(** * SpeechCraft-AI: the audio synthesis delivery pipeline

    A shallow embedding of [services/geminiService.ts] (WAV container
    encoder, PCM16 sample decoder, [playRawAudio]) and of the demo / voice
    preview handlers of [components/PracticeStudio.tsx] together with the
    mode switch of [App.tsx].

    Conventions.
    - A [Uint8Array] / [ArrayBuffer] is a [list byte]; a JavaScript binary
      string (the result of [atob]) is a [string], whose characters are
      8-bit code units.
    - A JavaScript exception is a value of [JsError]; code that can throw
      returns [Result A = JsError + A].
    - Browser functions the source calls ([atob], typed-array views,
      [DataView] setters, the Web Audio nodes) are modelled after their
      standards; each such definition says so. *)

From Stdlib Require Import ZArith QArith String Ascii Strings.Byte Lia.
From stdpp Require Import base list.

Local Open Scope Z_scope.

(** ** Exceptions and results *)

Inductive JsError : Type :=
| InvalidBase64       (* atob: DOMException InvalidCharacterError *)
| UnalignedFrame      (* new Int16Array(buffer): RangeError, odd byte length *)
| ZeroFrames          (* ctx.createBuffer: NotSupportedError, length 0 *)
| OutOfBounds         (* DataView / TypedArray.set: RangeError *)
| ContextUnavailable  (* the AudioContext constructor throws *)
| DeviceUnavailable   (* ctx.resume() rejects *)
| RenderFailure       (* createBufferSource / connect / start throws *)
| InvalidState        (* stop() on a node that never started *)
| GenerationError.    (* the synthesis request rejects *)

Definition Result (A : Type) : Type := (JsError + A)%type.

Definition ok {A} (a : A) : Result A := inr a.
Definition throw {A} (e : JsError) : Result A := inl e.

Definition rbind {A B} (r : Result A) (k : A -> Result B) : Result B :=
  match r with
  | inl e => inl e
  | inr a => k a
  end.

Notation "'let?' x ':=' e 'in' k" := (rbind e (fun x => k))
  (at level 10, x name, e at level 100, k at level 200).

(** ** Bytes *)

(** Storing a number into a [Uint8Array] slot keeps its low eight bits. *)
Definition u8 (v : Z) : byte :=
  match Byte.of_N (Z.to_N (v mod 256)) with
  | Some b => b
  | None => "000"%byte
  end.

Definition byte_val (b : byte) : Z := Z.of_N (Byte.to_N b).

(** [s.charCodeAt(i)]; out of range it is NaN, which a typed array stores
    as 0. *)
Definition charCodeAt (s : string) (i : nat) : Z :=
  match String.get i s with
  | Some c => Z.of_N (N_of_ascii c)
  | None => 0
  end.

(** [for (let i = 0; i < n; i++) body(i)] over a state. *)
Definition for_loop {S : Type} (n : nat) (body : nat -> S -> S) (s : S) : S :=
  fold_left (fun st i => body i st) (seq 0 n) s.

(** ** [atob]

    Modelled after the forgiving-base64 decode of the WHATWG Infra
    standard, which [atob] runs: ASCII whitespace is removed, one or two
    trailing [=] are dropped when the length is a multiple of four, a
    remaining length of 1 modulo 4 or a character outside the alphabet is
    a failure, and the leftover 12 or 18 bits lose their low 4 or 2 bits. *)

Definition is_ascii_whitespace (c : ascii) : bool :=
  match N_of_ascii c with
  | 9%N | 10%N | 12%N | 13%N | 32%N => true
  | _ => false
  end.

Definition base64_value (c : ascii) : option Z :=
  let n := Z.of_N (N_of_ascii c) in
  if (65 <=? n) && (n <=? 90) then Some (n - 65)
  else if (97 <=? n) && (n <=? 122) then Some (n - 71)
  else if (48 <=? n) && (n <=? 57) then Some (n + 4)
  else if n =? 43 then Some 62
  else if n =? 47 then Some 63
  else None.

Definition strip_padding (l : list ascii) : list ascii :=
  if (length l mod 4 =? 0)%nat then
    match rev l with
    | "="%char :: "="%char :: r => rev r
    | "="%char :: r => rev r
    | _ => l
    end
  else l.

Fixpoint base64_values (l : list ascii) : option (list Z) :=
  match l with
  | [] => Some []
  | c :: r =>
      match base64_value c, base64_values r with
      | Some v, Some vs => Some (v :: vs)
      | _, _ => None
      end
  end.

Fixpoint base64_groups (l : list Z) : list ascii :=
  match l with
  | a :: b :: c :: d :: r =>
      ascii_of_byte (u8 (a * 4 + b / 16))
      :: ascii_of_byte (u8 (b * 16 + c / 4))
      :: ascii_of_byte (u8 (c * 64 + d))
      :: base64_groups r
  | [a; b; c] =>
      [ascii_of_byte (u8 (a * 4 + b / 16)); ascii_of_byte (u8 (b * 16 + c / 4))]
  | [a; b] => [ascii_of_byte (u8 (a * 4 + b / 16))]
  | _ => []
  end.

Definition atob (data : string) : Result string :=
  let l := List.filter (fun c => negb (is_ascii_whitespace c))
                       (list_ascii_of_string data) in
  let l := strip_padding l in
  if (length l mod 4 =? 1)%nat then throw InvalidBase64
  else
    match base64_values l with
    | None => throw InvalidBase64
    | Some vs => ok (string_of_list_ascii (base64_groups vs))
    end.

(** The copy loop shared by [base64ToWavBlob] and [decode]:
    [bytes = new Uint8Array(len); for (i < len) bytes[i] = s.charCodeAt(i)]. *)
Definition uint8_of_binary (binaryString : string) : list byte :=
  let len := String.length binaryString in
  let bytes := replicate len "000"%byte in
  for_loop len (fun i bytes => <[i := u8 (charCodeAt binaryString i)]> bytes) bytes.

(** ** The WAV encoder ([writeString], [base64ToWavBlob]) *)

(** [DataView] setters, little-endian where the source passes [true]; a
    write outside the buffer throws. *)
Definition setUint8 (view : list byte) (offset : nat) (v : Z) : Result (list byte) :=
  if (offset + 1 <=? length view)%nat then ok (<[offset := u8 v]> view)
  else throw OutOfBounds.

Definition setUint16 (view : list byte) (offset : nat) (v : Z) : Result (list byte) :=
  if (offset + 2 <=? length view)%nat then
    ok (<[(offset + 1)%nat := u8 (v / 256)]> (<[offset := u8 v]> view))
  else throw OutOfBounds.

Definition setUint32 (view : list byte) (offset : nat) (v : Z) : Result (list byte) :=
  if (offset + 4 <=? length view)%nat then
    ok (<[(offset + 3)%nat := u8 (v / 16777216)]>
        (<[(offset + 2)%nat := u8 (v / 65536)]>
         (<[(offset + 1)%nat := u8 (v / 256)]>
          (<[offset := u8 v]> view))))
  else throw OutOfBounds.

(** [for (i < string.length) view.setUint8(offset + i, string.charCodeAt(i))]. *)
Fixpoint writeString (view : list byte) (offset : nat) (s : string) : Result (list byte) :=
  match s with
  | EmptyString => ok view
  | String c r =>
      let? view := setUint8 view offset (Z.of_N (N_of_ascii c)) in
      writeString view (S offset) r
  end.

(** [wavBytes.set(bytes, 44)]. *)
Definition typed_array_set (target : list byte) (src : list byte) (offset : nat)
  : Result (list byte) :=
  if (offset + length src <=? length target)%nat then ok (list_inserts offset src target)
  else throw OutOfBounds.

(** The part of [base64ToWavBlob] after the bytes are in hand. *)
Definition wav_encode (bytes : list byte) (sampleRate : Z) : Result (list byte) :=
  let len := Z.of_nat (length bytes) in
  let buffer := replicate (44 + length bytes) "000"%byte in
  let? view := writeString buffer 0 "RIFF" in
  let? view := setUint32 view 4 (36 + len) in
  let? view := writeString view 8 "WAVE" in
  let? view := writeString view 12 "fmt " in
  let? view := setUint32 view 16 16 in
  let? view := setUint16 view 20 1 in
  let? view := setUint16 view 22 1 in
  let? view := setUint32 view 24 sampleRate in
  let? view := setUint32 view 28 (sampleRate * 2) in
  let? view := setUint16 view 32 2 in
  let? view := setUint16 view 34 16 in
  let? view := writeString view 36 "data" in
  let? view := setUint32 view 40 len in
  typed_array_set view bytes 44.

Record Blob : Type := mkBlob { blob_bytes : list byte; blob_type : string }.

Definition default_sample_rate : Z := 24000.

Definition base64ToWavBlob (base64 : string) (sampleRate : Z) : Result Blob :=
  let? binaryString := atob base64 in
  let bytes := uint8_of_binary binaryString in
  let? buffer := wav_encode bytes sampleRate in
  ok (mkBlob buffer "audio/wav").

(** Reading a little-endian field back. *)
Fixpoint le_value (field : list byte) : Z :=
  match field with
  | [] => 0
  | b :: r => byte_val b + 256 * le_value r
  end.

Definition le16 (v : Z) : list byte := [u8 v; u8 (v / 256)].
Definition le32 (v : Z) : list byte :=
  [u8 v; u8 (v / 256); u8 (v / 65536); u8 (v / 16777216)].
Definition ascii_bytes (s : string) : list byte :=
  map byte_of_ascii (list_ascii_of_string s).

(** The header table of the specification: offset 0 "RIFF", 4 ChunkSize,
    8 "WAVE", 12 "fmt ", 16 Subchunk1Size, 20 AudioFormat, 22 NumChannels,
    24 SampleRate, 28 ByteRate, 32 BlockAlign, 34 BitsPerSample, 36 "data",
    40 Subchunk2Size; a 4-byte field holds the low 32 bits of its value. *)
Definition wav_header (dataLen sampleRate : Z) : list byte :=
  ascii_bytes "RIFF" ++ le32 (36 + dataLen) ++ ascii_bytes "WAVE"
  ++ ascii_bytes "fmt " ++ le32 16 ++ le16 1 ++ le16 1
  ++ le32 sampleRate ++ le32 (sampleRate * 2) ++ le16 2 ++ le16 16
  ++ ascii_bytes "data" ++ le32 dataLen.

(** The [size] bytes of a file that start at [offset]. *)
Definition wav_field (offset size : nat) (file : list byte) : list byte :=
  take size (drop offset file).

(** ** The sample decoder ([decode], [decodePCM16]) *)

Definition decode (base64 : string) : Result (list byte) :=
  let? binaryString := atob base64 in
  ok (uint8_of_binary binaryString).

(** Two's-complement reading of a 16-bit pattern. *)
Definition to_int16 (u : Z) : Z := if u <? 32768 then u else u - 65536.

Fixpoint int16_elements (buffer : list byte) : list Z :=
  match buffer with
  | lo :: hi :: r => to_int16 (byte_val lo + 256 * byte_val hi) :: int16_elements r
  | _ => []
  end.

(** [new Int16Array(buffer)]: a view over the whole buffer, which throws
    when the byte length is not a multiple of 2; elements are read in
    the platform's byte order, little-endian on the platforms the
    application runs on. *)
Definition Int16Array_of (buffer : list byte) : Result (list Z) :=
  if Nat.even (length buffer) then ok (int16_elements buffer)
  else throw UnalignedFrame.

Record AudioBuffer : Type := mkAudioBuffer {
  numberOfChannels : nat;
  frame_count : nat;
  buffer_sampleRate : Z;
  channels : list (list Q)
}.

(** [ctx.createBuffer(numChannels, length, sampleRate)]: a silent buffer;
    Web Audio throws NotSupportedError when an argument is zero. *)
Definition createBuffer (numChannels frameCount : nat) (sampleRate : Z)
  : Result AudioBuffer :=
  if (numChannels =? 0)%nat || (frameCount =? 0)%nat || (sampleRate <=? 0)
  then throw ZeroFrames
  else ok (mkAudioBuffer numChannels frameCount sampleRate
             (replicate numChannels (replicate frameCount 0%Q))).

(** [dataInt16[k] / 32768.0].  A 16-bit integer divided by 2^15 is a
    dyadic rational with at most 16 significant bits, so the 32-bit float
    the source stores is exactly this rational. *)
Definition pcm16_to_float (v : Z) : Q := (inject_Z v / inject_Z 32768)%Q.

Definition decodePCM16 (data : list byte) (sampleRate : Z) (numChannels : nat)
  : Result AudioBuffer :=
  let? dataInt16 := Int16Array_of data in
  let frameCount := (length dataInt16 / numChannels)%nat in
  let? buffer := createBuffer numChannels frameCount sampleRate in
  let filled :=
    for_loop numChannels (fun channel chans =>
      let channelData := nth channel chans [] in
      let channelData :=
        for_loop frameCount (fun i cd =>
          <[i := pcm16_to_float (nth (i * numChannels + channel) dataInt16 0)]> cd)
          channelData in
      <[channel := channelData]> chans) (channels buffer) in
  ok (mkAudioBuffer (numberOfChannels buffer) (frame_count buffer)
        (buffer_sampleRate buffer) filled).

(** The composition [playRawAudio] runs: [decodePCM16(decode(s), ctx)]
    with the default 24000 Hz, one channel. *)
Definition decode_samples (base64 : string) : Result AudioBuffer :=
  let? bytes := decode base64 in
  decodePCM16 bytes default_sample_rate 1.

(** The binary string of [k] NUL characters: what [atob] returns for the
    base64 text of a run of [k] zero bytes. *)
Definition zero_run (k : nat) : string := string_of_list_ascii (replicate k zero).

(** * The Web Audio platform and [playRawAudio]

    The machine state holds what [playRawAudio] and its stop closure read
    and write: the module-level [audioContext] singleton, the buffer
    source nodes created so far (a node is named by its index), the
    console, and the state [U] of the caller, on which the [onEnded]
    callbacks act.

    Modelled after the Web Audio API: a buffer source node renders from
    [start()] until its buffer has been played or [stop()] is called; in
    both cases the node's [ended] event is then dispatched, once, to the
    listeners registered on it ("the ended event is dispatched when the
    stop time determined by stop() is reached", and for a buffer source
    also when the whole buffer has been played).  The dispatch is a task
    of its own: [source_finishes] and the stop closure make the event
    pending, [dispatch_ended] delivers it.

    An invocation of [playRawAudio] is one step of the machine: its two
    awaits ([ctx.resume()], [decodePCM16]) settle, with success or with
    failure, before the next event is handled.  What the browser answers
    at the calls that can fail is read from [env]. *)

Inductive ContextState : Type := Suspended | Running.
Inductive SourceState : Type := Unstarted | Rendering | Finished.
Inductive EndedEvent : Type := NotDue | Pending | Dispatched.

Record Env : Type := mkEnv {
  env_new_context : Result ContextState;   (* new AudioContext({sampleRate}) *)
  env_resume : Result unit;                (* ctx.resume() *)
  env_createBufferSource : Result unit;    (* ctx.createBufferSource() *)
  env_connect : Result unit;               (* source.connect(ctx.destination) *)
  env_start : Result unit                  (* source.start() *)
}.

(** A browser in which every call succeeds and a new context runs. *)
Definition healthy_env : Env :=
  mkEnv (ok Running) (ok tt) (ok tt) (ok tt) (ok tt).

(** The function [playRawAudio] resolves with: [() => {}] of the catch
    branch, or the closure over the started [source]. *)
Inductive StopFn : Type := NoopStop | StopSource (i : nat).

Section Playback.

Context {Cb U : Type}.
Variable run_cb : Cb -> U -> U.

Record Source : Type := mkSource {
  src_buffer : option AudioBuffer;
  src_connected : bool;
  src_listeners : list Cb;
  src_state : SourceState;
  src_ended : EndedEvent
}.

(** A call of an [onEnded] callback: by the [ended] event of node [i],
    or directly by the catch branch of [playRawAudio]. *)
Inductive Invocation : Type :=
| FromEndedEvent (i : nat) (cb : Cb)
| FromCatch (cb : Cb).

Record Machine : Type := mkMachine {
  audioContext : option ContextState;
  sources : list Source;
  env : Env;
  console : list JsError;
  invoked : list Invocation;
  app : U
}.

Definition set_audioContext (c : option ContextState) (m : Machine) : Machine :=
  mkMachine c (sources m) (env m) (console m) (invoked m) (app m).
Definition set_sources (l : list Source) (m : Machine) : Machine :=
  mkMachine (audioContext m) l (env m) (console m) (invoked m) (app m).
Definition set_env (e : Env) (m : Machine) : Machine :=
  mkMachine (audioContext m) (sources m) e (console m) (invoked m) (app m).
Definition set_app (u : U) (m : Machine) : Machine :=
  mkMachine (audioContext m) (sources m) (env m) (console m) (invoked m) u.

Definition console_error (e : JsError) (m : Machine) : Machine :=
  mkMachine (audioContext m) (sources m) (env m) (console m ++ [e]) (invoked m) (app m).

Definition invoke (i : Invocation) (m : Machine) : Machine :=
  let cb := match i with FromEndedEvent _ cb => cb | FromCatch cb => cb end in
  mkMachine (audioContext m) (sources m) (env m) (console m)
            (invoked m ++ [i]) (run_cb cb (app m)).

Definition update_source (i : nat) (f : Source -> Source) (m : Machine) : Machine :=
  set_sources (alter f i (sources m)) m.

(** *** Computations that read and write the machine and may throw *)

Definition M (A : Type) : Type := Machine -> Machine * Result A.

Definition ret {A} (a : A) : M A := fun m => (m, inr a).
Definition raise {A} (e : JsError) : M A := fun m => (m, inl e).
Definition lift {A} (r : Result A) : M A := fun m => (m, r).
Definition bind {A B} (c : M A) (k : A -> M B) : M B :=
  fun m => match c m with
           | (m', inl e) => (m', inl e)
           | (m', inr a) => k a m'
           end.
Definition try_catch {A} (c : M A) (handler : JsError -> M A) : M A :=
  fun m => match c m with
           | (m', inl e) => handler e m'
           | (m', inr a) => (m', inr a)
           end.
Definition effect (f : Machine -> Machine) : M unit := fun m => (f m, inr tt).

Notation "x <- c ;; k" := (bind c (fun x => k))
  (at level 100, c at next level, right associativity).
Notation "c ;;; k" := (bind c (fun _ => k))
  (at level 100, right associativity).

(** *** The calls into the browser *)

(** [if (!audioContext) audioContext = new AudioContext(...); return audioContext]. *)
Definition getAudioContext : M unit := fun m =>
  match audioContext m with
  | Some _ => (m, inr tt)
  | None =>
      match env_new_context (env m) with
      | inl e => (m, inl e)
      | inr st => (set_audioContext (Some st) m, inr tt)
      end
  end.

Definition ctx_state : M ContextState := fun m =>
  match audioContext m with
  | Some st => (m, inr st)
  | None => (m, inl ContextUnavailable)
  end.

Definition ctx_resume : M unit := fun m =>
  match env_resume (env m) with
  | inl e => (m, inl e)
  | inr _ => (set_audioContext (Some Running) m, inr tt)
  end.

Definition createBufferSource : M nat := fun m =>
  match env_createBufferSource (env m) with
  | inl e => (m, inl e)
  | inr _ =>
      (set_sources (sources m ++ [mkSource None false [] Unstarted NotDue]) m,
       inr (length (sources m)))
  end.

Definition source_set_buffer (i : nat) (b : AudioBuffer) : M unit :=
  effect (update_source i (fun s =>
    mkSource (Some b) (src_connected s) (src_listeners s) (src_state s) (src_ended s))).

Definition source_connect (i : nat) : M unit := fun m =>
  match env_connect (env m) with
  | inl e => (m, inl e)
  | inr _ =>
      (update_source i (fun s =>
         mkSource (src_buffer s) true (src_listeners s) (src_state s) (src_ended s)) m,
       inr tt)
  end.

Definition source_addEventListener_ended (i : nat) (cb : Cb) : M unit :=
  effect (update_source i (fun s =>
    mkSource (src_buffer s) (src_connected s) (src_listeners s ++ [cb])
             (src_state s) (src_ended s))).

(** [source.start()]: a node can be started once. *)
Definition source_start (i : nat) : M unit := fun m =>
  match env_start (env m) with
  | inl e => (m, inl e)
  | inr _ =>
      match sources m !! i with
      | Some s =>
          match src_state s with
          | Unstarted =>
              (update_source i (fun s =>
                 mkSource (src_buffer s) (src_connected s) (src_listeners s)
                          Rendering (src_ended s)) m,
               inr tt)
          | _ => (m, inl InvalidState)
          end
      | None => (m, inl InvalidState)
      end
  end.

(** [source.stop()]: throws on a node that was never started, ends the
    rendering of a playing node and makes its [ended] event pending, and
    does nothing on a node that has already finished. *)
Definition source_stop (i : nat) : M unit := fun m =>
  match sources m !! i with
  | Some s =>
      match src_state s with
      | Unstarted => (m, inl InvalidState)
      | Rendering =>
          (update_source i (fun s =>
             mkSource (src_buffer s) (src_connected s) (src_listeners s)
                      Finished Pending) m,
           inr tt)
      | Finished => (m, inr tt)
      end
  | None => (m, inl InvalidState)
  end.

Definition source_disconnect (i : nat) : M unit :=
  effect (update_source i (fun s =>
    mkSource (src_buffer s) false (src_listeners s) (src_state s) (src_ended s))).

(** *** [playRawAudio] *)

(** The body of the [try] block. *)
Definition playRawAudio_try (base64String : string) (onEnded : option Cb) : M StopFn :=
  getAudioContext ;;;
  st <- ctx_state ;;
  match st with Suspended => ctx_resume | Running => ret tt end ;;;
  bytes <- lift (decode base64String) ;;
  buffer <- lift (decodePCM16 bytes default_sample_rate 1) ;;
  source <- createBufferSource ;;
  source_set_buffer source buffer ;;;
  source_connect source ;;;
  match onEnded with
  | Some cb => source_addEventListener_ended source cb
  | None => ret tt
  end ;;;
  source_start source ;;;
  ret (StopSource source).

Definition playRawAudio (base64String : string) (onEnded : option Cb) : M StopFn :=
  try_catch (playRawAudio_try base64String onEnded)
    (fun e =>
       effect (console_error e) ;;;
       match onEnded with
       | Some cb => effect (invoke (FromCatch cb))
       | None => ret tt
       end ;;;
       ret NoopStop).

(** Calling the function [playRawAudio] resolved with:
    [try { source.stop(); source.disconnect(); } catch(e) {}]. *)
Definition call_stop (stop : StopFn) : M unit :=
  match stop with
  | NoopStop => ret tt
  | StopSource i =>
      try_catch (source_stop i ;;; source_disconnect i) (fun _ => ret tt)
  end.

(** *** What the audio engine does on its own *)

(** Node [i] has played its whole buffer. *)
Definition source_finishes (i : nat) (m : Machine) : Machine :=
  match sources m !! i with
  | Some s =>
      match src_state s with
      | Rendering =>
          update_source i (fun s =>
            mkSource (src_buffer s) (src_connected s) (src_listeners s)
                     Finished Pending) m
      | _ => m
      end
  | None => m
  end.

(** The pending [ended] event of node [i] is delivered to its listeners. *)
Definition dispatch_ended (i : nat) (m : Machine) : Machine :=
  match sources m !! i with
  | Some s =>
      match src_ended s with
      | Pending =>
          fold_left (fun m cb => invoke (FromEndedEvent i cb) m) (src_listeners s)
            (update_source i (fun s =>
               mkSource (src_buffer s) (src_connected s) (src_listeners s)
                        (src_state s) Dispatched) m)
      | _ => m
      end
  | None => m
  end.

(** The browser suspends the context (power or autoplay policy). *)
Definition context_suspends (m : Machine) : Machine :=
  match audioContext m with
  | Some _ => set_audioContext (Some Suspended) m
  | None => m
  end.

(** *** Observations *)

Definition is_rendering (s : Source) : bool :=
  match src_state s with Rendering => true | _ => false end.

(** The number of nodes that render at this instant. *)
Definition rendering_count (m : Machine) : nat :=
  length (List.filter is_rendering (sources m)).

Definition source_rendering (m : Machine) (i : nat) : bool :=
  match sources m !! i with
  | Some s => is_rendering s
  | None => false
  end.

(** How often the [ended] event of node [i] has called a callback. *)
Definition ended_calls (i : nat) (m : Machine) : nat :=
  length (List.filter (fun inv => match inv with
                                  | FromEndedEvent j _ => (j =? i)%nat
                                  | FromCatch _ => false
                                  end) (invoked m)).

(** How often the catch branch of [playRawAudio] has called one. *)
Definition catch_calls (m : Machine) : nat :=
  length (List.filter (fun inv => match inv with
                                  | FromEndedEvent _ _ => false
                                  | FromCatch _ => true
                                  end) (invoked m)).

(** The state of the session behind a stop function, in the words of the
    specification: [Playing] while its node renders, [Idle] otherwise. *)
Inductive PlaybackState : Type := Idle | Playing.

Definition session_state (m : Machine) (stop : StopFn) : PlaybackState :=
  match stop with
  | NoopStop => Idle
  | StopSource i => if source_rendering m i then Playing else Idle
  end.

(** *** Which invocations of [playRawAudio] fail inside *)

Definition is_error {A} (r : Result A) : bool :=
  match r with inl _ => true | inr _ => false end.

(** The context [getAudioContext] returns: the singleton, or a new one. *)
Definition context_after_get (m : Machine) : Result ContextState :=
  match audioContext m with
  | Some st => ok st
  | None => env_new_context (env m)
  end.

(** Some step of the [try] block throws: the context cannot be created,
    a suspended context cannot be resumed, the payload is not base64 or
    does not decode to a buffer, or the node cannot be created,
    connected or started. *)
Definition some_step_fails (base64String : string) (m : Machine) : bool :=
  match context_after_get m with
  | inl _ => true
  | inr st =>
      match st with
      | Suspended => is_error (env_resume (env m))
      | Running => false
      end
      || is_error (decode_samples base64String)
      || is_error (env_createBufferSource (env m))
      || is_error (env_connect (env m))
      || is_error (env_start (env m))
  end.

Definition listeners_of (onEnded : option Cb) : list Cb :=
  match onEnded with Some cb => [cb] | None => [] end.

(** The catch branch of [playRawAudio], run on machine [m]. *)
Definition caught (onEnded : option Cb) (e : JsError) (m : Machine)
  : Machine * Result StopFn :=
  (mkMachine (audioContext m) (sources m) (env m) (console m ++ [e])
     (invoked m ++ map FromCatch (listeners_of onEnded))
     (match onEnded with Some cb => run_cb cb (app m) | None => app m end),
   inr NoopStop).

Definition with_node (x : Source) (m : Machine) : Machine :=
  set_sources (sources m ++ [x]) m.

(** [playRawAudio] by cases on the first step that throws; shown equal
    to [playRawAudio] in [playRawAudio_outcome]. *)
Definition play_outcome (base64String : string) (onEnded : option Cb) (m : Machine)
  : Machine * Result StopFn :=
  match context_after_get m with
  | inl e => caught onEnded e m
  | inr st =>
      match (match st with Suspended => env_resume (env m) | Running => ok tt end) with
      | inl e => caught onEnded e (set_audioContext (Some st) m)
      | inr _ =>
          let m2 := set_audioContext (Some Running) m in
          match decode_samples base64String with
          | inl e => caught onEnded e m2
          | inr buffer =>
              match env_createBufferSource (env m) with
              | inl e => caught onEnded e m2
              | inr _ =>
                  match env_connect (env m) with
                  | inl e =>
                      caught onEnded e
                        (with_node (mkSource (Some buffer) false [] Unstarted NotDue) m2)
                  | inr _ =>
                      match env_start (env m) with
                      | inl e =>
                          caught onEnded e
                            (with_node (mkSource (Some buffer) true (listeners_of onEnded)
                                                 Unstarted NotDue) m2)
                      | inr _ =>
                          (with_node (mkSource (Some buffer) true (listeners_of onEnded)
                                               Rendering NotDue) m2,
                           inr (StopSource (length (sources m))))
                      end
                  end
              end
          end
      end
  end.

(** What calling the stop closure of node [i] leaves; shown in
    [call_stop_outcome]. *)
Definition after_stop (i : nat) (m : Machine) : Machine :=
  match sources m !! i with
  | Some s =>
      match src_state s with
      | Unstarted => m
      | Rendering =>
          set_sources (<[i := mkSource (src_buffer s) false (src_listeners s)
                                        Finished Pending]> (sources m)) m
      | Finished =>
          set_sources (<[i := mkSource (src_buffer s) false (src_listeners s)
                                        Finished (src_ended s)]> (sources m)) m
      end
  | None => m
  end.

(** What delivering the pending [ended] event of node [i] leaves; shown
    in [dispatch_ended_outcome]. *)
Definition after_dispatch (i : nat) (m : Machine) : Machine :=
  match sources m !! i with
  | Some s =>
      match src_ended s with
      | Pending =>
          mkMachine (audioContext m)
            (<[i := mkSource (src_buffer s) (src_connected s) (src_listeners s)
                             (src_state s) Dispatched]> (sources m))
            (env m) (console m)
            (invoked m ++ map (FromEndedEvent i) (src_listeners s))
            (fold_left (fun u cb => run_cb cb u) (src_listeners s) (app m))
      | _ => m
      end
  | None => m
  end.

(** *** Executions of the playback layer

    Everything a caller and the audio engine can do with it. *)
Inductive AudioOp : Type :=
| OpPlay (base64String : string) (onEnded : option Cb)
| OpStop (stop : StopFn)
| OpFinishes (i : nat)
| OpDispatch (i : nat)
| OpSuspends
| OpEnv (e : Env).

Definition audio_step (m : Machine) (op : AudioOp) : Machine :=
  match op with
  | OpPlay base64String onEnded => fst (playRawAudio base64String onEnded m)
  | OpStop stop => fst (call_stop stop m)
  | OpFinishes i => source_finishes i m
  | OpDispatch i => dispatch_ended i m
  | OpSuspends => context_suspends m
  | OpEnv e => set_env e m
  end.

Definition audio_run (m : Machine) (ops : list AudioOp) : Machine :=
  fold_left audio_step ops m.

Definition fresh_machine (e : Env) (u : U) : Machine := mkMachine None [] e [] [] u.

Definition ended_state (m : Machine) (i : nat) : option EndedEvent :=
  src_ended <$> sources m !! i.

(** The bookkeeping of the [ended] event of one node: its listeners
    have been called once each when the event has been delivered and not
    at all before, and the event is due exactly when the node has
    finished. *)
Definition node_ok (calls : nat) (s : Source) : Prop :=
  calls = match src_ended s with
          | Dispatched => length (src_listeners s)
          | _ => 0%nat
          end
  /\ (src_state s = Finished <-> src_ended s <> NotDue).

Definition audio_inv (m : Machine) : Prop :=
  (forall j s, sources m !! j = Some s -> node_ok (ended_calls j m) s)
  /\ (forall j, (length (sources m) <= j)%nat -> ended_calls j m = 0%nat).

(** The node of index [i] exists and carries the listeners [l]. *)
Definition has_listeners (i : nat) (l : list Cb) (m : Machine) : Prop :=
  exists s, sources m !! i = Some s /\ src_listeners s = l.

End Playback.

(** * [PracticeStudio] and [App]

    The React state of the mounted [PracticeStudio], the [mode] and
    [script] state of [App], and the calls of
    [generateDemonstrationAudio] that have not settled yet.  A handler
    runs up to its [await generateDemonstrationAudio(...)] in the step of
    the click; the rest of it runs in the step [Settle] that delivers the
    outcome of the request. *)

Inductive AppMode : Type := EDITOR | PRACTICE.

Record VoiceOption : Type := mkVoice {
  voice_id : string;
  voice_name : string;
  voice_label : string
}.

Definition VOICE_OPTIONS : list VoiceOption :=
  [ mkVoice "Puck" "Puck" "Puck (Male, Neutral)";
    mkVoice "Charon" "Charon" "Charon (Male, Deep)";
    mkVoice "Kore" "Kore" "Kore (Female, Calm)";
    mkVoice "Fenrir" "Fenrir" "Fenrir (Male, Intense)";
    mkVoice "Zephyr" "Zephyr" "Zephyr (Female, Gentle)" ].

Definition default_voice : VoiceOption := mkVoice "Puck" "Puck" "Puck (Male, Neutral)".

Definition voice_eqb (a b : VoiceOption) : bool :=
  String.eqb (voice_id a) (voice_id b)
  && String.eqb (voice_name a) (voice_name b)
  && String.eqb (voice_label a) (voice_label b).

Definition is_voice_option (v : VoiceOption) : bool := existsb (voice_eqb v) VOICE_OPTIONS.

(** The closure [() => setIsPlayingDemo(false)] of the component instance
    (mount) number [inst]. *)
Inductive Callback : Type := SetIsPlayingDemoFalse (inst : nat).

Record Studio : Type := mkStudio {
  instance : nat;                      (* which mount this state belongs to *)
  demoAudioData : option string;       (* null or the generated base64 *)
  isGeneratingDemo : bool;
  isPlayingDemo : bool;
  stopDemoRef : option StopFn;         (* stopDemoRef.current *)
  selectedVoice : VoiceOption;
  isVoiceDropdownOpen : bool;
  previewingVoiceId : option string
}.

Definition initial_studio (inst : nat) : Studio :=
  mkStudio inst None false false None default_voice false None.

(** A call of [generateDemonstrationAudio(text, voiceName)] in flight and
    the handler instance that awaits it. *)
Inductive Request : Type :=
| DemoRequest (inst : nat) (text voiceName : string)
| PreviewRequest (inst : nat) (text voiceName : string).

Record App : Type := mkApp {
  mode : AppMode;
  script : string;
  studio : Studio;
  pending : list Request;
  requested : list (string * string)   (* every call made, oldest first *)
}.

Definition run_callback (cb : Callback) (a : App) : App :=
  match cb with
  | SetIsPlayingDemoFalse inst =>
      let st := studio a in
      if (inst =? instance st)%nat then
        mkApp (mode a) (script a)
              (mkStudio (instance st) (demoAudioData st) (isGeneratingDemo st) false
                        (stopDemoRef st) (selectedVoice st) (isVoiceDropdownOpen st)
                        (previewingVoiceId st))
              (pending a) (requested a)
      else a                          (* a setter of an unmounted instance *)
  end.

Definition World : Type := @Machine Callback App.

Definition the_studio (w : World) : Studio := studio (app w).

Definition upd_studio (f : Studio -> Studio) (w : World) : World :=
  let a := app w in
  set_app (mkApp (mode a) (script a) (f (studio a)) (pending a) (requested a)) w.

Definition setDemoAudioData (d : option string) (st : Studio) : Studio :=
  mkStudio (instance st) d (isGeneratingDemo st) (isPlayingDemo st) (stopDemoRef st)
           (selectedVoice st) (isVoiceDropdownOpen st) (previewingVoiceId st).
Definition setIsGeneratingDemo (b : bool) (st : Studio) : Studio :=
  mkStudio (instance st) (demoAudioData st) b (isPlayingDemo st) (stopDemoRef st)
           (selectedVoice st) (isVoiceDropdownOpen st) (previewingVoiceId st).
Definition setIsPlayingDemo (b : bool) (st : Studio) : Studio :=
  mkStudio (instance st) (demoAudioData st) (isGeneratingDemo st) b (stopDemoRef st)
           (selectedVoice st) (isVoiceDropdownOpen st) (previewingVoiceId st).
Definition set_stopDemoRef (r : option StopFn) (st : Studio) : Studio :=
  mkStudio (instance st) (demoAudioData st) (isGeneratingDemo st) (isPlayingDemo st) r
           (selectedVoice st) (isVoiceDropdownOpen st) (previewingVoiceId st).
Definition setSelectedVoice (v : VoiceOption) (st : Studio) : Studio :=
  mkStudio (instance st) (demoAudioData st) (isGeneratingDemo st) (isPlayingDemo st)
           (stopDemoRef st) v (isVoiceDropdownOpen st) (previewingVoiceId st).
Definition setIsVoiceDropdownOpen (b : bool) (st : Studio) : Studio :=
  mkStudio (instance st) (demoAudioData st) (isGeneratingDemo st) (isPlayingDemo st)
           (stopDemoRef st) (selectedVoice st) b (previewingVoiceId st).
Definition setPreviewingVoiceId (v : option string) (st : Studio) : Studio :=
  mkStudio (instance st) (demoAudioData st) (isGeneratingDemo st) (isPlayingDemo st)
           (stopDemoRef st) (selectedVoice st) (isVoiceDropdownOpen st) v.

(** [generateDemonstrationAudio(text, voiceName)] is called: the request
    is in flight and recorded. *)
Definition send_request (r : Request) (w : World) : World :=
  let a := app w in
  let call := match r with
              | DemoRequest _ text voiceName => (text, voiceName)
              | PreviewRequest _ text voiceName => (text, voiceName)
              end in
  set_app (mkApp (mode a) (script a) (studio a) (pending a ++ [r])
                 (requested a ++ [call])) w.

(** JavaScript truthiness of [string | null]: [null] and [""] are falsy. *)
Definition truthy (d : option string) : option string :=
  match d with
  | Some EmptyString => None
  | other => other
  end.

(** [!script.trim()]: the script consists of white space only. *)
Definition is_js_whitespace (c : ascii) : bool :=
  match N_of_ascii c with
  | 9%N | 10%N | 11%N | 12%N | 13%N | 32%N | 160%N => true
  | _ => false
  end.

Definition trim_is_empty (s : string) : bool :=
  forallb is_js_whitespace (list_ascii_of_string s).

Definition previewText : string := "Hello, this is a voice preview. 您好，这是语音示例。".

(** The guarded stop shared by [handleGenerateAndPlayDemo] and
    [startRecording]:
    [if (isPlayingDemo && stopDemoRef.current) { stopDemoRef.current();
    setIsPlayingDemo(false); ... }].  The result tells whether the guard
    held. *)
Definition stop_demo_if_playing (w : World) : World * bool :=
  match isPlayingDemo (the_studio w), stopDemoRef (the_studio w) with
  | true, Some stop =>
      match call_stop stop w with
      | (w1, inr _) => (upd_studio (setIsPlayingDemo false) w1, true)
      | (w1, inl _) => (w1, true)       (* an exception would end the handler *)
      end
  | _, _ => (w, false)
  end.

Definition demo_callback (w : World) : Callback :=
  SetIsPlayingDemoFalse (instance (the_studio w)).

(** [handleGenerateAndPlayDemo], up to its first await of a request. *)
Definition handleGenerateAndPlayDemo (w : World) : World :=
  match stop_demo_if_playing w with
  | (w1, true) => w1
  | (_, false) =>
      match truthy (demoAudioData (the_studio w)) with
      | Some d =>
          (* Play existing *)
          let w1 := upd_studio (setIsPlayingDemo true) w in
          match playRawAudio run_callback d (Some (demo_callback w)) w1 with
          | (w2, inr stopFn) => upd_studio (set_stopDemoRef (Some stopFn)) w2
          | (w2, inl _) => w2
          end
      | None =>
          if trim_is_empty (script (app w)) then w
          else
            send_request
              (DemoRequest (instance (the_studio w))
                           (substring 0 500 (script (app w)))
                           (voice_id (selectedVoice (the_studio w))))
              (upd_studio (setIsGeneratingDemo true) w)
      end
  end.

(** The rest of [handleGenerateAndPlayDemo] once the request of instance
    [inst] has settled.  The state setters of an unmounted instance have
    no effect; its call of [playRawAudio] still runs. *)
Definition demo_settled (inst : nat) (outcome : Result string) (w : World) : World :=
  let cb := SetIsPlayingDemoFalse inst in
  if (inst =? instance (the_studio w))%nat then
    match outcome with
    | inr base64Data =>
        let w1 := upd_studio (setDemoAudioData (Some base64Data)) w in
        (* Auto play after generation *)
        let w2 := upd_studio (setIsPlayingDemo true) w1 in
        match playRawAudio run_callback base64Data (Some cb) w2 with
        | (w3, inr stopFn) =>
            upd_studio (setIsGeneratingDemo false)
              (upd_studio (set_stopDemoRef (Some stopFn)) w3)
        | (w3, inl _) => upd_studio (setIsGeneratingDemo false) w3
        end
    | inl _ => upd_studio (setIsGeneratingDemo false) w
    end
  else
    match outcome with
    | inr base64Data => fst (playRawAudio run_callback base64Data (Some cb) w)
    | inl _ => w
    end.

(** [handlePreviewVoice(e, voice)], up to its await of the request. *)
Definition handlePreviewVoice (voice : VoiceOption) (w : World) : World :=
  match previewingVoiceId (the_studio w) with
  | Some id => if String.eqb id (voice_id voice) then w
               else send_request
                      (PreviewRequest (instance (the_studio w)) previewText (voice_id voice))
                      (upd_studio (setPreviewingVoiceId (Some (voice_id voice))) w)
  | None => send_request
              (PreviewRequest (instance (the_studio w)) previewText (voice_id voice))
              (upd_studio (setPreviewingVoiceId (Some (voice_id voice))) w)
  end.

(** The rest of [handlePreviewVoice]: [await playRawAudio(audioData)]
    without a callback, the stop function dropped, and
    [finally { setPreviewingVoiceId(null) }]. *)
Definition preview_settled (inst : nat) (outcome : Result string) (w : World) : World :=
  let w1 := match outcome with
            | inr audioData => fst (playRawAudio run_callback audioData None w)
            | inl _ => w
            end in
  if (inst =? instance (the_studio w1))%nat
  then upd_studio (setPreviewingVoiceId None) w1
  else w1.

(** The click handler of an entry of the voice dropdown. *)
Definition select_voice (voice : VoiceOption) (w : World) : World :=
  let w1 := upd_studio (setSelectedVoice voice) w in
  let w2 := upd_studio (setIsVoiceDropdownOpen false) w1 in
  (* Clear previous demo if voice changes *)
  match truthy (demoAudioData (the_studio w)) with
  | Some _ => upd_studio (setDemoAudioData None) w2
  | None => w2
  end.

(** [generateDemonstrationAudio] rejects when the response has no audio:
    [if (!base64Audio) throw new Error("No audio generated")]. *)
Definition generation_result (response : Result string) : Result string :=
  match response with
  | inr EmptyString => throw GenerationError
  | other => other
  end.

(** The request at position [k] is no longer in flight. *)
Definition drop_request (k : nat) (w : World) : World :=
  let a := app w in
  set_app (mkApp (mode a) (script a) (studio a) (delete k (pending a)) (requested a)) w.

Definition settle (k : nat) (response : Result string) (w : World) : World :=
  match pending (app w) !! k with
  | None => w
  | Some r =>
      let w1 := drop_request k w in
      match r with
      | DemoRequest inst _ _ => demo_settled inst (generation_result response) w1
      | PreviewRequest inst _ _ => preview_settled inst (generation_result response) w1
      end
  end.

(** [App]: [setMode].  Leaving the practice view unmounts [PracticeStudio]:
    its cleanup effect runs [if (stopDemoRef.current) stopDemoRef.current()]
    and its state is discarded; the next mount starts from the initial
    state as a new instance. *)
Definition set_mode (target : AppMode) (w : World) : World :=
  let a := app w in
  match mode a, target with
  | PRACTICE, EDITOR =>
      let w1 := match stopDemoRef (studio a) with
                | Some stop => fst (call_stop stop w)
                | None => w
                end in
      let a1 := app w1 in
      set_app (mkApp EDITOR (script a1) (initial_studio (S (instance (studio a1))))
                     (pending a1) (requested a1)) w1
  | EDITOR, PRACTICE =>
      set_app (mkApp PRACTICE (script a) (studio a) (pending a) (requested a)) w
  | _, _ => w
  end.

Definition set_script (s : string) (w : World) : World :=
  let a := app w in
  set_app (mkApp (mode a) s (studio a) (pending a) (requested a)) w.

Inductive Event : Type :=
(* App.tsx and the editor *)
| SetMode (target : AppMode)
| ScriptChange (s : string)
(* PracticeStudio *)
| ToggleVoiceDropdown
| ClickOutsideDropdown
| SelectVoice (voice : VoiceOption)
| PreviewVoice (voice : VoiceOption)
| GenerateAndPlayDemo
| StartRecording
(* the synthesis service answers the request at position [k] *)
| Settle (k : nat) (response : Result string)
(* the audio engine and the browser *)
| SourceFinishes (i : nat)
| DispatchEnded (i : nat)
| ContextSuspends
| EnvChanges (e : Env).

Definition in_practice (w : World) : bool :=
  match mode (app w) with PRACTICE => true | EDITOR => false end.

Definition nonempty (s : string) : bool :=
  match s with EmptyString => false | _ => true end.

(** One event.  An event the interface does not offer in the current
    state (a control that is not rendered or is disabled) changes nothing:
    the editor is only rendered in [EDITOR] mode and [PracticeStudio] only
    in [PRACTICE] mode; the voice entries only while the dropdown is open;
    the demo button is disabled while [isGeneratingDemo || !script]; the
    record button is disabled while [!script]. *)
Definition step (w : World) (e : Event) : World :=
  match e with
  | SetMode target => set_mode target w
  | ScriptChange s => if in_practice w then w else set_script s w
  | ToggleVoiceDropdown =>
      if in_practice w
      then upd_studio (fun st => setIsVoiceDropdownOpen (negb (isVoiceDropdownOpen st)) st) w
      else w
  | ClickOutsideDropdown =>
      if in_practice w then upd_studio (setIsVoiceDropdownOpen false) w else w
  | SelectVoice voice =>
      if in_practice w && isVoiceDropdownOpen (the_studio w) && is_voice_option voice
      then select_voice voice w else w
  | PreviewVoice voice =>
      if in_practice w && isVoiceDropdownOpen (the_studio w) && is_voice_option voice
      then handlePreviewVoice voice w else w
  | GenerateAndPlayDemo =>
      if in_practice w && negb (isGeneratingDemo (the_studio w))
         && nonempty (script (app w))
      then handleGenerateAndPlayDemo w else w
  | StartRecording =>
      if in_practice w && nonempty (script (app w))
      then fst (stop_demo_if_playing w) else w
  | Settle k response => settle k response w
  | SourceFinishes i => source_finishes i w
  | DispatchEnded i => dispatch_ended run_callback i w
  | ContextSuspends => context_suspends w
  | EnvChanges e => set_env e w
  end.

Definition run (w : World) (trace : list Event) : World := fold_left step trace w.

Definition initial_app : App := mkApp EDITOR "" (initial_studio 0) [] [].

Definition initial_world (e : Env) : World := mkMachine None [] e [] [] initial_app.

(** *** Observations on the studio *)

(** A node that was started with an [onEnded] listener: in this
    application, a demo session. *)
Definition is_demo_source (s : @Source Callback) : bool :=
  match src_listeners s with [] => false | _ :: _ => true end.

Definition demo_rendering_count (w : World) : nat :=
  length (List.filter (fun s => is_demo_source s && is_rendering s) (sources w)).



Definition is_app_event (e : Event) : bool :=
  match e with
  | SetMode _ | ScriptChange _ => true
  | _ => false
  end.


(** The worlds the application goes through, without restriction. *)
Inductive reachable : World -> Prop :=
| reachable_initial (e : Env) : reachable (initial_world e)
| reachable_step (w : World) (ev : Event) :
    reachable w -> reachable (step w ev).

(** The requests in flight for voice [voiceName]. *)
Definition outstanding_for (voiceName : string) (w : World) : nat :=
  length (List.filter (fun r => match r with
                                | PreviewRequest _ _ v => String.eqb v voiceName
                                | DemoRequest _ _ _ => false
                                end) (pending (app w))).

(** *** The invariant behind the demo toggle

    A demo node that renders is the one [stopDemoRef] holds, and
    [isPlayingDemo] is set ([inv_tracked]); while one renders, no [ended]
    event of a demo node waits for delivery ([inv_quiet]); the requests in
    flight belong to the mounted instance ([inv_requests]); while the demo
    is generated none renders ([inv_generating]) and at most one demo
    request is in flight, none when [isGeneratingDemo] is false
    ([inv_single]). *)

Definition demo_live (s : @Source Callback) : bool := is_demo_source s && is_rendering s.

Definition demo_due (s : @Source Callback) : bool :=
  is_demo_source s && match src_ended s with Pending => true | _ => false end.

Definition request_instance (r : Request) : nat :=
  match r with
  | DemoRequest inst _ _ => inst
  | PreviewRequest inst _ _ => inst
  end.



Definition no_live (w : World) : Prop :=
  forall i s, sources w !! i = Some s -> demo_live s = false.

Definition no_due (w : World) : Prop :=
  forall j x, sources w !! j = Some x -> demo_due x = false.

Definition tracked (w : World) : Prop :=
  forall i s, sources w !! i = Some s -> demo_live s = true ->
              isPlayingDemo (the_studio w) = true
              /\ stopDemoRef (the_studio w) = Some (StopSource i).

Definition quiet (w : World) : Prop :=
  forall i s, sources w !! i = Some s -> demo_live s = true -> no_due w.


(** *** The application around the studio *)

(** What a step other than [SetMode] and [ScriptChange] may change in the
    state of the application: the instance, the mode and the script stay,
    and a request that is new belongs to the current instance. *)
Definition app_frame (a a' : App) : Prop :=
  instance (studio a') = instance (studio a)
  /\ mode a' = mode a
  /\ script a' = script a
  /\ (forall r, In r (pending a') ->
                In r (pending a) \/ request_instance r = instance (studio a)).

(** The requests in flight were made by the mounted instance or an earlier
    one; in [EDITOR] mode no demo audio is cached and every request in
    flight belongs to an instance that is gone. *)
Definition app_inv (w : World) : Prop :=
  (forall r, In r (pending (app w)) ->
             (request_instance r <= instance (the_studio w))%nat)
  /\ (mode (app w) = EDITOR ->
      demoAudioData (the_studio w) = None
      /\ forall r, In r (pending (app w)) ->
                   (request_instance r < instance (the_studio w))%nat).

(** * Text, downloads and uploads

    The pieces of [services/geminiService.ts] and of
    [components/PracticeStudio.tsx] around the audio pipeline that work on
    text: the name of the downloaded file, the description shown for a
    voice, and the base64 text [blobToBase64] cuts out of a data URL.

    A JavaScript string is a [string] of code units below 256, as in the
    rest of the development. *)

(** ** String methods *)

(** [s.split(sep)] for a separator of one character. *)
Fixpoint split_on (sep : ascii) (s : string) : list string :=
  match s with
  | EmptyString => [EmptyString]
  | String c r =>
      if Ascii.eqb c sep then EmptyString :: split_on sep r
      else match split_on sep r with
           | piece :: pieces => String c piece :: pieces
           | [] => [String c EmptyString]
           end
  end.

(** [s.replace(c, '')] with a pattern that is a string of one character:
    the first occurrence is removed. *)
Fixpoint remove_first (c : ascii) (s : string) : string :=
  match s with
  | EmptyString => EmptyString
  | String x r => if Ascii.eqb x c then r else String x (remove_first c r)
  end.

(** [s.replace(/[...]/g, '')]: every character of the class is removed. *)
Fixpoint remove_all (class : ascii -> bool) (s : string) : string :=
  match s with
  | EmptyString => EmptyString
  | String x r => if class x then remove_all class r else String x (remove_all class r)
  end.

(** [c] occurs in [s]. *)
Definition has_char (c : ascii) (s : string) : bool :=
  existsb (Ascii.eqb c) (list_ascii_of_string s).

(** [s.slice(0, n)] for [n >= 0]. *)
Definition slice_to (n : nat) (s : string) : string := substring 0 n s.

(** ** The description of a voice

    [voice.label.split('(')[1].replace(')', '')] of the voice dropdown;
    [None] stands for the TypeError of calling [replace] on [undefined]. *)
Definition voice_description (label : string) : option string :=
  match split_on "(" label !! 1%nat with
  | Some piece => Some (remove_first ")" piece)
  | None => None
  end.

(** ** [handleDownload] *)

(** The class [[-:T.]]. *)
Definition is_date_punctuation (c : ascii) : bool :=
  Ascii.eqb c "-" || Ascii.eqb c ":" || Ascii.eqb c "T" || Ascii.eqb c ".".

(** [iso.replace(/[-:T.]/g, '').slice(0, 14)]. *)
Definition download_timestamp (iso : string) : string :=
  slice_to 14 (remove_all is_date_punctuation iso).

Record Download : Type := mkDownload { download_name : string; download_file : Blob }.

(** [handleDownload] with [iso] the value of [new Date().toISOString()]:
    nothing without cached audio, otherwise the WAV file of the cached
    audio at the default rate is offered under a time-stamped name; an
    exception of [base64ToWavBlob] leaves the handler. *)
Definition handleDownload (demoAudioData : option string) (iso : string)
  : Result (option Download) :=
  match truthy demoAudioData with
  | None => ok None
  | Some d =>
      let? blob := base64ToWavBlob d default_sample_rate in
      ok (Some (mkDownload ("ai_voice_" ++ download_timestamp iso ++ ".wav") blob))
  end.








(** ** [blobToBase64] *)

(** The base64 alphabet of RFC 4648, which [FileReader.readAsDataURL]
    writes, with padding. *)
Definition base64_char (v : Z) : ascii :=
  ascii_of_N (Z.to_N (if v <? 26 then v + 65
                      else if v <? 52 then v + 71
                      else if v <? 62 then v - 4
                      else if v =? 62 then 43 else 47)).

Fixpoint base64_encode (bytes : list byte) : list ascii :=
  match bytes with
  | a :: b :: c :: r =>
      base64_char (byte_val a / 4)
      :: base64_char (byte_val a mod 4 * 16 + byte_val b / 16)
      :: base64_char (byte_val b mod 16 * 4 + byte_val c / 64)
      :: base64_char (byte_val c mod 64)
      :: base64_encode r
  | [a; b] =>
      [ base64_char (byte_val a / 4);
        base64_char (byte_val a mod 4 * 16 + byte_val b / 16);
        base64_char (byte_val b mod 16 * 4);
        "="%char ]
  | [a] =>
      [ base64_char (byte_val a / 4);
        base64_char (byte_val a mod 4 * 16);
        "="%char; "="%char ]
  | [] => []
  end.

(** [reader.result] after [reader.readAsDataURL(blob)] has loaded:
    [data:<type>;base64,<data>]. *)
Definition readAsDataURL (blob : Blob) : string :=
  "data:" ++ blob_type blob ++ ";base64,"
  ++ string_of_list_ascii (base64_encode (blob_bytes blob)).

(** [blobToBase64]: the promise rejects when the read fails and resolves
    with [reader.result.split(',')[1]] otherwise; [None] stands for
    [undefined]. *)
Definition blobToBase64 (read : Result string) : Result (option string) :=
  let? result := read in
  ok (split_on "," result !! 1%nat).

(** The binary string of a byte sequence. *)
Definition binary_string (bytes : list byte) : string :=
  string_of_list_ascii (map ascii_of_byte bytes).

(** The 6-bit values [base64_encode] writes and the padding it adds. *)
Fixpoint base64_sextets (bytes : list byte) : list Z :=
  match bytes with
  | a :: b :: c :: r =>
      byte_val a / 4
      :: byte_val a mod 4 * 16 + byte_val b / 16
      :: byte_val b mod 16 * 4 + byte_val c / 64
      :: byte_val c mod 64
      :: base64_sextets r
  | [a; b] =>
      [ byte_val a / 4; byte_val a mod 4 * 16 + byte_val b / 16; byte_val b mod 16 * 4 ]
  | [a] => [ byte_val a / 4; byte_val a mod 4 * 16 ]
  | [] => []
  end.

Fixpoint base64_padding (bytes : list byte) : list ascii :=
  match bytes with
  | _ :: _ :: _ :: r => base64_padding r
  | [_; _] => ["="%char]
  | [_] => ["="%char; "="%char]
  | [] => []
  end.

(** ** Counting the calls of [playRawAudio] in an execution *)

Section PlaybackCounts.

Context {Cb U : Type}.

Definition is_play (op : @AudioOp Cb) : bool :=
  match op with OpPlay _ _ => true | _ => false end.

Definition count_plays (ops : list (@AudioOp Cb)) : nat :=
  length (List.filter is_play ops).

(** A node that exists and does not render. *)
Definition silent (i : nat) (m : @Machine Cb U) : Prop :=
  (i < length (sources m))%nat /\ source_rendering m i = false.

End PlaybackCounts.

(** ** Observations on the requests and on what handlers leave alone *)

(** Two application states that differ at most in [isPlayingDemo]: what
    the [onEnded] callbacks can change. *)
Definition playing_only (a a' : App) : Prop :=
  mode a' = mode a
  /\ script a' = script a
  /\ pending a' = pending a
  /\ requested a' = requested a
  /\ setIsPlayingDemo false (studio a') = setIsPlayingDemo false (studio a).

(** The part of the studio state that belongs to the demo. *)
Definition demo_fields (st : Studio)
  : option string * bool * bool * option StopFn * VoiceOption :=
  (demoAudioData st, isGeneratingDemo st, isPlayingDemo st, stopDemoRef st,
   selectedVoice st).

(** A call of the synthesis service the application may make: at most
    500 characters of text, for one of the voice options. *)
Definition request_ok (call : string * string) : Prop :=
  (String.length (fst call) <= 500)%nat
  /\ In (snd call) (map voice_id VOICE_OPTIONS).

(** * The synthesis service: [getAiClient] and [generateDemonstrationAudio]

    The state of the service layer is the API key of the environment, the
    requests sent to the model and the console.  What the model answers
    is an argument: a rejection of [generateContent] or a response, whose
    fields may be missing. *)

Inductive ServiceError : Type :=
| ApiKeyMissing                      (* new Error("API Key is missing") *)
| NoAudioGenerated                   (* new Error("No audio generated") *)
| RequestRejected (reason : string). (* ai.models.generateContent rejects *)

Record InlineData : Type := mkInlineData {
  inline_mimeType : option string;
  inline_data : option string
}.

Record Part : Type := mkPart {
  part_text : option string;
  part_inlineData : option InlineData
}.

Record Content : Type := mkContent { content_parts : option (list Part) }.

Record Candidate : Type := mkCandidate { candidate_content : option Content }.

Record GenerateContentResponse : Type := mkResponse {
  candidates : option (list Candidate)
}.

(** [response.candidates?.[0]?.content?.parts?.[0]?.inlineData?.data]:
    each optional step yields [undefined] when what it reads from is
    missing. *)
Definition first_inline_data (response : GenerateContentResponse) : option string :=
  cs ← candidates response;
  candidate ← cs !! 0%nat;
  content ← candidate_content candidate;
  ps ← content_parts content;
  part ← ps !! 0%nat;
  inlineData ← part_inlineData part;
  inline_data inlineData.

Record TtsRequest : Type := mkTtsRequest {
  tts_model : string;
  tts_text : string;
  tts_voiceName : string
}.

Record Service : Type := mkService {
  api_key : option string;                      (* process.env.API_KEY *)
  sent : list TtsRequest;                       (* calls of generateContent *)
  service_console : list (string * ServiceError)  (* console.error(label, error) *)
}.

(** [if (!process.env.API_KEY) throw new Error("API Key is missing")]. *)
Definition getAiClient (s : Service) : ServiceError + unit :=
  match truthy (api_key s) with
  | None => inl ApiKeyMissing
  | Some _ => inr tt
  end.

(** [App]: [if (process.env.API_KEY) setHasApiKey(true)]; the editor and
    the studio are rendered only when [hasApiKey] holds. *)
Definition hasApiKey (s : Service) : bool :=
  match truthy (api_key s) with
  | None => false
  | Some _ => true
  end.

(** [generateDemonstrationAudio(text, voiceName = 'Puck')], with [reply]
    the outcome of the call of [generateContent]. *)
Definition generateDemonstrationAudio
    (text : string) (voiceName : option string)
    (reply : ServiceError + GenerateContentResponse) (s : Service)
  : Service * (ServiceError + string) :=
  match getAiClient s with
  | inl e => (s, inl e)
  | inr _ =>
      let voice := match voiceName with Some v => v | None => "Puck"%string end in
      let s1 := mkService (api_key s)
                  (sent s ++ [mkTtsRequest "gemini-2.5-flash-preview-tts" text voice])
                  (service_console s) in
      let attempt :=
        match reply with
        | inl e => inl e
        | inr response =>
            match truthy (first_inline_data response) with
            | None => inl NoAudioGenerated
            | Some base64Audio => inr base64Audio
            end
        end in
      match attempt with
      | inl e =>
          (mkService (api_key s1) (sent s1) (service_console s1 ++ [("TTS error:"%string, e)]),
           inl e)
      | inr base64Audio => (s1, inr base64Audio)
      end
  end.

(** * [ScriptEditor]

    The state of the mounted editor: the [currentScript] it receives from
    [App], its React state, the handlers suspended at
    [await optimizeScript(...)], and what it has sent out (the calls of
    [optimizeScript], the clipboard writes, the alerts). *)

(** [s.endsWith(c)] and [s.slice(0, -1)]. *)
Fixpoint ends_with (c : ascii) (s : string) : bool :=
  match s with
  | EmptyString => false
  | String x EmptyString => Ascii.eqb x c
  | String _ r => ends_with c r
  end.

Fixpoint drop_last (s : string) : string :=
  match s with
  | EmptyString => EmptyString
  | String _ EmptyString => EmptyString
  | String x r => String x (drop_last r)
  end.

(** ** The instruction field and its quick prompts *)

Record PromptState : Type := mkPromptState {
  customInstruction : string;
  showQuickPrompts : bool
}.

(** [handlePromptChange] with [val] the new value of the input. *)
Definition handlePromptChange (val : string) (p : PromptState) : PromptState :=
  let p1 := mkPromptState val (showQuickPrompts p) in
  if ends_with "/" val then mkPromptState (customInstruction p1) true
  else if showQuickPrompts p then mkPromptState (customInstruction p1) false
       else p1.

(** [selectQuickPrompt(promptValue)]. *)
Definition selectQuickPrompt (promptValue : string) (p : PromptState) : PromptState :=
  let newVal :=
    if ends_with "/" (customInstruction p)
    then (drop_last (customInstruction p) ++ promptValue)%string
    else promptValue in
  mkPromptState newVal false.

(** [clearInstruction]. *)
Definition clearInstruction (p : PromptState) : PromptState :=
  mkPromptState EmptyString false.

(** ** Optimizing *)


Record OptimizationResult : Type := mkOptimizationResult {
  original : string;
  optimized : option string;
  rationale : option string;
  readabilityScore : option Z;
  tone : option string
}.


Record Editor : Type := mkEditor {
  currentScript : option string;     (* [None]: [onScriptChange(undefined)] was called *)
  isOptimizing : bool;
  result : option OptimizationResult;
  copied : bool;
  prompt : PromptState;
  awaiting : list string;            (* the script each suspended handler captured *)
  optimize_calls : list (string * string);
  clipboard : list (option string);
  editor_alerts : nat
}.


(** The component renders [currentScript.length] and
    [currentScript.trim()]: with an undefined script rendering throws and
    the interface is gone. *)
Definition rendered (e : Editor) : bool :=
  match currentScript e with Some _ => true | None => false end.





Definition set_prompt (p : PromptState) (e : Editor) : Editor :=
  mkEditor (currentScript e) (isOptimizing e) (result e) (copied e) p
           (awaiting e) (optimize_calls e) (clipboard e) (editor_alerts e).




(** What holds of the editor in every state it reaches: while the
    interface is there, one handler is suspended when [isOptimizing] is
    set and none otherwise; every call of [optimizeScript] carried a
    script that is not blank; every suspended handler and every result
    shown stems from such a call. *)
Definition editor_inv (e : Editor) : Prop :=
  (rendered e = true ->
   length (awaiting e) = if isOptimizing e then 1%nat else 0%nat)
  /\ Forall (fun call => trim_is_empty (fst call) = false) (optimize_calls e)
  /\ Forall (fun script => In script (map fst (optimize_calls e))) (awaiting e)
  /\ (forall r, result e = Some r -> In (original r) (map fst (optimize_calls e))).

(** * Recording and analysis in [PracticeStudio]

    The recording state of the mounted studio beside the demo state of
    [Studio]: the React state, the refs, and the handlers in flight.
    The browser is a source of events here: the outcome of
    [getUserMedia] and of the construction and start of the
    [MediaRecorder], whether [stop()] throws, and the [dataavailable]
    and [stop] events of a recorder are given by the environment; a
    recorder is named by the order of its creation. *)

Section Recording.

(** What [analyzeSpeech] resolves with; [setAnalysis] stores it as it is. *)
Context {Analysis : Type}.

Record Recording : Type := mkRecording {
  isRecording : bool;
  audioBlob : option Blob;
  audioUrl : option nat;               (* the object URL, named by its number *)
  isAnalyzing : bool;
  analysis : option Analysis;
  mediaRecorderRef : option nat;       (* mediaRecorderRef.current *)
  chunksRef : list Blob;               (* chunksRef.current *)
  startTimeRef : Z;
  recorders : list string;             (* per recorder, the script its handlers closed over *)
  stop_calls : list nat;               (* calls of stop(), by recorder *)
  tracks_stopped : list nat;           (* streams whose tracks were stopped, by recorder *)
  mic_awaiting : list string;          (* handlers suspended at getUserMedia *)
  analysing : list (Blob * string);    (* handlers suspended at analyzeSpeech(blob, script) *)
  object_urls : list Blob;             (* URL.createObjectURL calls *)
  recording_console : list string;
  recording_alerts : nat
}.

Definition initial_recording : Recording :=
  mkRecording false None None false None None [] 0 [] [] [] [] [] [] [] 0.

Inductive MicOutcome : Type :=
| MicDenied             (* getUserMedia rejects *)
| ConstructorThrows     (* new MediaRecorder(stream) throws *)
| StartThrows           (* mediaRecorderRef.current.start() throws *)
| MicGranted.

Inductive RecordingEvent : Type :=
| RecStartClick
| RecMicSettles (k : nat) (outcome : MicOutcome) (now : Z)
| RecStopClick (stop_throws : bool)
| RecDataAvailable (i : nat) (data : Blob)
| RecStopped (i : nat)
| RecAnalysisSettles (k : nat) (outcome : option Analysis).

(** [startRecording], up to its await: the demo is stopped first. *)
Definition startRecording (w : World) (r : Recording) : World * Recording :=
  (fst (stop_demo_if_playing w),
   mkRecording (isRecording r) (audioBlob r) (audioUrl r) (isAnalyzing r) (analysis r)
     (mediaRecorderRef r) (chunksRef r) (startTimeRef r) (recorders r) (stop_calls r)
     (tracks_stopped r) (mic_awaiting r ++ [script (app w)]) (analysing r)
     (object_urls r) (recording_console r) (recording_alerts r)).

Definition microphone_error (r : Recording) : Recording :=
  mkRecording (isRecording r) (audioBlob r) (audioUrl r) (isAnalyzing r) (analysis r)
    (mediaRecorderRef r) (chunksRef r) (startTimeRef r) (recorders r) (stop_calls r)
    (tracks_stopped r) (mic_awaiting r) (analysing r) (object_urls r)
    (recording_console r ++ ["Error accessing microphone"%string])
    (S (recording_alerts r)).

(** The rest of [startRecording] for the handler at position [k]. *)
Definition start_settled (k : nat) (outcome : MicOutcome) (now : Z) (r : Recording)
  : Recording :=
  match mic_awaiting r !! k with
  | None => r
  | Some captured =>
      let r0 :=
        mkRecording (isRecording r) (audioBlob r) (audioUrl r) (isAnalyzing r) (analysis r)
          (mediaRecorderRef r) (chunksRef r) (startTimeRef r) (recorders r) (stop_calls r)
          (tracks_stopped r) (delete k (mic_awaiting r)) (analysing r)
          (object_urls r) (recording_console r) (recording_alerts r) in
      (* the recorder exists, the chunks are reset, the handlers are set *)
      let created (recording : bool) (started : Z) (cleared : option Analysis) :=
        mkRecording recording (audioBlob r0) (audioUrl r0) (isAnalyzing r0) cleared
          (Some (length (recorders r0))) [] started (recorders r0 ++ [captured])
          (stop_calls r0) (tracks_stopped r0) (mic_awaiting r0) (analysing r0)
          (object_urls r0) (recording_console r0) (recording_alerts r0) in
      match outcome with
      | MicDenied | ConstructorThrows => microphone_error r0
      | StartThrows =>
          microphone_error (created (isRecording r0) (startTimeRef r0) (analysis r0))
      | MicGranted => created true now None
      end
  end.

(** [stopRecording]. *)
Definition stopRecording (stop_throws : bool) (r : Recording) : Recording :=
  match mediaRecorderRef r, isRecording r with
  | Some i, true =>
      if stop_throws then
        mkRecording (isRecording r) (audioBlob r) (audioUrl r) (isAnalyzing r) (analysis r)
          (mediaRecorderRef r) (chunksRef r) (startTimeRef r) (recorders r)
          (stop_calls r ++ [i]) (tracks_stopped r) (mic_awaiting r) (analysing r)
          (object_urls r) (recording_console r) (recording_alerts r)
      else
        mkRecording false (audioBlob r) (audioUrl r) (isAnalyzing r) (analysis r)
          (mediaRecorderRef r) (chunksRef r) (startTimeRef r) (recorders r)
          (stop_calls r ++ [i]) (tracks_stopped r ++ [i]) (mic_awaiting r) (analysing r)
          (object_urls r) (recording_console r) (recording_alerts r)
  | _, _ => r
  end.

(** [ondataavailable]: [if (e.data.size > 0) chunksRef.current.push(e.data)]. *)
Definition ondataavailable (data : Blob) (r : Recording) : Recording :=
  match blob_bytes data with
  | [] => r
  | _ :: _ =>
      mkRecording (isRecording r) (audioBlob r) (audioUrl r) (isAnalyzing r) (analysis r)
        (mediaRecorderRef r) (chunksRef r ++ [data]) (startTimeRef r) (recorders r)
        (stop_calls r) (tracks_stopped r) (mic_awaiting r) (analysing r)
        (object_urls r) (recording_console r) (recording_alerts r)
  end.

(** [new Blob(chunks, { type })]: the bytes of the chunks, in order. *)
Definition Blob_of (chunks : list Blob) (type : string) : Blob :=
  mkBlob (concat (map blob_bytes chunks)) type.

(** [onstop] of a recorder whose handlers closed over [captured],
    followed by [handleAnalysis(blob)] up to its await. *)
Definition onstop (captured : string) (r : Recording) : Recording :=
  let blob := Blob_of (chunksRef r) "audio/webm" in
  mkRecording (isRecording r) (Some blob) (Some (length (object_urls r))) true (analysis r)
    (mediaRecorderRef r) (chunksRef r) (startTimeRef r) (recorders r)
    (stop_calls r) (tracks_stopped r) (mic_awaiting r) (analysing r ++ [(blob, captured)])
    (object_urls r ++ [blob]) (recording_console r) (recording_alerts r).

(** The rest of [handleAnalysis] for the handler at position [k];
    [None] is a rejection of [analyzeSpeech]. *)
Definition analysis_settled (k : nat) (outcome : option Analysis) (r : Recording)
  : Recording :=
  match analysing r !! k with
  | None => r
  | Some _ =>
      mkRecording (isRecording r) (audioBlob r) (audioUrl r) false
        (match outcome with Some a => Some a | None => analysis r end)
        (mediaRecorderRef r) (chunksRef r) (startTimeRef r) (recorders r)
        (stop_calls r) (tracks_stopped r) (mic_awaiting r) (delete k (analysing r))
        (object_urls r)
        (match outcome with
         | Some _ => recording_console r
         | None => recording_console r ++ ["Analysis failed"%string]
         end)
        (recording_alerts r)
  end.

(** One event.  The record button is rendered while [!isRecording] and
    disabled while [!script]; the stop button is rendered while
    [isRecording]; the events of a recorder reach the handlers that were
    set on it. *)
Definition recording_step (s : World * Recording) (ev : RecordingEvent)
  : World * Recording :=
  let (w, r) := s in
  match ev with
  | RecStartClick =>
      if in_practice w && negb (isRecording r) && nonempty (script (app w))
      then startRecording w r else s
  | RecMicSettles k outcome now => (w, start_settled k outcome now r)
  | RecStopClick stop_throws =>
      if in_practice w && isRecording r then (w, stopRecording stop_throws r) else s
  | RecDataAvailable i data =>
      match recorders r !! i with
      | Some _ => (w, ondataavailable data r)
      | None => s
      end
  | RecStopped i =>
      match recorders r !! i with
      | Some captured => (w, onstop captured r)
      | None => s
      end
  | RecAnalysisSettles k outcome => (w, analysis_settled k outcome r)
  end.

Definition recording_run (s : World * Recording) (trace : list RecordingEvent)
  : World * Recording :=
  fold_left recording_step trace s.

(** The chunks [ondataavailable] keeps. *)
Definition kept_chunks (chunks : list Blob) : list Blob :=
  List.filter (fun data => match blob_bytes data with [] => false | _ :: _ => true end)
              chunks.

(** In every state the recording reaches: the stop button has a recorder
    to stop, the spinner has an analysis to wait for, and no chunk kept
    is empty. *)
Definition recording_inv (r : Recording) : Prop :=
  (isRecording r = true ->
   exists i, mediaRecorderRef r = Some i /\ (i < length (recorders r))%nat)
  /\ (isAnalyzing r = true -> analysing r <> [])
  /\ Forall (fun chunk => blob_bytes chunk <> []) (chunksRef r).

End Recording.
(** * Properties of the pure pipeline *)

Section Bytes.

Lemma u8_val (v : Z) : byte_val (u8 v) = v mod 256.
Proof.
  unfold u8, byte_val.
  assert (Hr : 0 <= v mod 256 < 256) by (apply Z.mod_pos_bound; lia).
  destruct (Byte.of_N (Z.to_N (v mod 256))) as [b|] eqn:E.
  - apply Byte.to_of_N in E. rewrite E. lia.
  - apply Byte.of_N_None_iff in E. lia.
Qed.

Lemma u8_char (c : ascii) : u8 (Z.of_N (N_of_ascii c)) = byte_of_ascii c.
Proof.
  unfold u8.
  pose proof (N_ascii_bounded c) as Hb.
  rewrite Z.mod_small by lia.
  rewrite N2Z.id, <- byte_of_ascii_via_N. reflexivity.
Qed.

Lemma byte_val_range (b : byte) : 0 <= byte_val b < 256.
Proof. unfold byte_val. pose proof (Byte.to_N_bounded b). lia. Qed.

Lemma for_loop_fill {A} (f : nat -> A) (l : list A) (k : nat) :
  (k <= length l)%nat ->
  for_loop k (fun i a => <[i := f i]> a) l = map f (seq 0 k) ++ drop k l.
Proof.
  unfold for_loop. induction k as [|k IH]; intros Hk.
  - simpl. now rewrite drop_0.
  - rewrite seq_S, fold_left_app, IH by lia.
    rewrite map_app. cbn [fold_left map Nat.add].
    destruct (drop k l) as [|x r] eqn:E.
    + apply (f_equal length) in E. rewrite length_drop in E. simpl in E. lia.
    + assert (Hr : drop (S k) l = r).
      { replace (drop (S k) l) with (drop 1 (drop k l))
          by (rewrite drop_drop; f_equal; lia).
        rewrite E. reflexivity. }
      rewrite Hr, <- app_assoc. cbn [app].
      rewrite insert_app_r_alt by (rewrite length_map, length_seq; lia).
      rewrite length_map, length_seq, Nat.sub_diag. reflexivity.
Qed.

Lemma charCodeAt_cons (c : ascii) (r : string) (i : nat) :
  charCodeAt (String c r) (S i) = charCodeAt r i.
Proof. reflexivity. Qed.

Lemma uint8_of_binary_spec (s : string) : uint8_of_binary s = ascii_bytes s.
Proof.
  unfold uint8_of_binary, ascii_bytes.
  rewrite for_loop_fill by (rewrite length_replicate; lia).
  rewrite drop_ge by (rewrite length_replicate; lia).
  rewrite app_nil_r.
  induction s as [|c r IH]; [reflexivity|].
  cbn [String.length seq map list_ascii_of_string].
  rewrite <- seq_shift, map_map.
  f_equal.
  - unfold charCodeAt. simpl. apply u8_char.
  - rewrite <- IH. apply map_ext. intros i. now rewrite charCodeAt_cons.
Qed.

Lemma le32_value (v : Z) : le_value (le32 v) = v mod 4294967296.
Proof.
  unfold le32, le_value. rewrite !u8_val.
  Z.to_euclidean_division_equations. lia.
Qed.

Lemma le16_value (v : Z) : le_value (le16 v) = v mod 65536.
Proof.
  unfold le16, le_value. rewrite !u8_val.
  Z.to_euclidean_division_equations. lia.
Qed.

End Bytes.

Section Wav.

Lemma wav_header_length (dataLen sampleRate : Z) :
  length (wav_header dataLen sampleRate) = 44%nat.
Proof. reflexivity. Qed.

Lemma typed_array_set_tail (hdr tail src : list byte) :
  length src = length tail ->
  typed_array_set (hdr ++ tail) src (length hdr) = ok (hdr ++ src).
Proof.
  intros Hlen. unfold typed_array_set.
  rewrite length_app, Hlen, Nat.leb_refl.
  replace (length hdr) with (length hdr + 0)%nat at 1 by lia.
  rewrite list_inserts_app_r.
  rewrite <- (app_nil_r tail), list_inserts_0_r by exact Hlen.
  now rewrite app_nil_r.
Qed.

(** The writes of [wav_encode] leave the header of the table in front
    of the still-zero payload area. *)
Lemma wav_encode_writes (bytes : list byte) (sampleRate : Z) :
  wav_encode bytes sampleRate
  = typed_array_set
      (wav_header (Z.of_nat (length bytes)) sampleRate
       ++ replicate (length bytes) "000"%byte) bytes 44.
Proof.
  unfold wav_encode.
  rewrite replicate_add.
  cbn -[u8 Z.div Z.mul Z.add Z.of_nat N_of_ascii typed_array_set].
  rewrite !u8_char. reflexivity.
Qed.

Lemma wav_encode_eq (bytes : list byte) (sampleRate : Z) :
  wav_encode bytes sampleRate
  = ok (wav_header (Z.of_nat (length bytes)) sampleRate ++ bytes).
Proof.
  rewrite wav_encode_writes.
  pose proof (typed_array_set_tail
                (wav_header (Z.of_nat (length bytes)) sampleRate)
                (replicate (length bytes) "000"%byte) bytes) as H.
  rewrite wav_header_length in H. apply H. now rewrite length_replicate.
Qed.

End Wav.

Section Decode.

Lemma div2_SS (n : nat) : (S (S n) / 2 = S (n / 2))%nat.
Proof.
  change (S (S n)) with (1 * 2 + n)%nat.
  rewrite Nat.div_add_l by lia. reflexivity.
Qed.

Lemma int16_elements_length (data : list byte) :
  length (int16_elements data) = (length data / 2)%nat.
Proof.
  remember (length data) as n eqn:Hn.
  revert data Hn. induction n as [n IH] using lt_wf_ind. intros data Hn.
  destruct data as [|lo [|hi r]]; subst; try reflexivity.
  cbn [int16_elements length].
  rewrite div2_SS. f_equal. apply (IH (length r)); [cbn [length]; lia | reflexivity].
Qed.

Lemma map_nth_seq {A B} (g : A -> B) (l : list A) (d : A) :
  map (fun i => g (nth (i * 1 + 0) l d)) (seq 0 (length l)) = map g l.
Proof.
  induction l as [|x l IH]; [reflexivity|].
  cbn [length seq map]. f_equal.
  rewrite <- seq_shift, map_map, <- IH.
  apply map_ext. intros i. reflexivity.
Qed.

(** With one channel the two loops of [decodePCM16] fill the single
    channel with the samples in order. *)
Lemma decodePCM16_mono (data : list byte) (sampleRate : Z) :
  Nat.even (length data) = true -> data <> [] -> 0 < sampleRate ->
  decodePCM16 data sampleRate 1
  = ok (mkAudioBuffer 1 (length data / 2) sampleRate
          [map pcm16_to_float (int16_elements data)]).
Proof.
  intros Heven Hne Hsr.
  unfold decodePCM16, Int16Array_of. rewrite Heven. cbn [rbind ok].
  rewrite Nat.div_1_r, int16_elements_length.
  assert (Hfc : (length data / 2 <> 0)%nat).
  { destruct data as [|a [|b r]]; [congruence|discriminate|].
    cbn [length]. rewrite div2_SS. lia. }
  unfold createBuffer.
  destruct (Nat.eqb_spec (length data / 2) 0) as [E|_]; [contradiction|].
  destruct (Z.leb_spec sampleRate 0) as [E|_]; [lia|].
  cbn [Nat.eqb orb rbind ok channels numberOfChannels frame_count buffer_sampleRate replicate].
  unfold for_loop at 1. cbn [seq fold_left nth].
  rewrite for_loop_fill by (rewrite length_replicate; lia).
  rewrite drop_ge by (rewrite length_replicate; lia).
  rewrite app_nil_r, <- int16_elements_length, map_nth_seq.
  reflexivity.
Qed.

Lemma decodePCM16_odd (data : list byte) (sampleRate : Z) (numChannels : nat) :
  Nat.odd (length data) = true ->
  decodePCM16 data sampleRate numChannels = throw UnalignedFrame.
Proof.
  intros Hodd. unfold decodePCM16, Int16Array_of.
  rewrite <- Nat.negb_odd, Hodd. reflexivity.
Qed.

Lemma ascii_bytes_length (s : string) : length (ascii_bytes s) = String.length s.
Proof.
  unfold ascii_bytes. rewrite length_map.
  induction s as [|c r IH]; [reflexivity|]. cbn. now rewrite IH.
Qed.

Lemma ascii_bytes_zero_run (k : nat) :
  ascii_bytes (zero_run k) = replicate k "000"%byte.
Proof.
  unfold ascii_bytes, zero_run. rewrite list_ascii_of_string_of_list_ascii.
  induction k as [|k IH]; [reflexivity|]. cbn [replicate map]. now rewrite IH.
Qed.

Lemma int16_elements_zero (n : nat) :
  int16_elements (replicate (2 * n) "000"%byte) = replicate n 0.
Proof.
  induction n as [|n IH]; [reflexivity|].
  replace (2 * S n)%nat with (S (S (2 * n))) by lia.
  cbn [replicate int16_elements]. rewrite IH. reflexivity.
Qed.

Lemma to_int16_range (lo hi : byte) :
  -32768 <= to_int16 (byte_val lo + 256 * byte_val hi) < 32768.
Proof.
  pose proof (byte_val_range lo). pose proof (byte_val_range hi).
  unfold to_int16. destruct (Z.ltb_spec (byte_val lo + 256 * byte_val hi) 32768); lia.
Qed.

Lemma pcm16_to_float_eq (v : Z) : (pcm16_to_float v == v # 32768)%Q.
Proof. unfold pcm16_to_float, Qeq. cbn. lia. Qed.

Lemma decode_eq (base64 binaryString : string) :
  atob base64 = ok binaryString ->
  decode base64 = ok (ascii_bytes binaryString).
Proof. intros H. unfold decode. rewrite H. cbn. now rewrite uint8_of_binary_spec. Qed.

End Decode.

(** * The WAV container *)

Section WavClaims.

Lemma base64ToWavBlob_eq (base64 binaryString : string) (sampleRate : Z) :
  atob base64 = ok binaryString ->
  base64ToWavBlob base64 sampleRate
  = ok (mkBlob (wav_header (Z.of_nat (String.length binaryString)) sampleRate
                ++ ascii_bytes binaryString) "audio/wav").
Proof.
  intros H. unfold base64ToWavBlob. rewrite H. cbn [rbind ok].
  rewrite uint8_of_binary_spec, wav_encode_eq, ascii_bytes_length. reflexivity.
Qed.

Lemma drop_header (dataLen sampleRate : Z) (bytes : list byte) :
  drop 44 (wav_header dataLen sampleRate ++ bytes) = bytes.
Proof. reflexivity. Qed.

(** C4.  For every PCM byte sequence and sample rate [wav_encode], the
    encoder of [base64ToWavBlob], succeeds with a file of 44 + payload
    length bytes: the 44 header bytes of the table, field by field at
    its offset and little-endian ("RIFF", ChunkSize = 36 + dataLen,
    "WAVE", "fmt ", 16, 1, 1, SampleRate, ByteRate = SampleRate * 2, 2,
    16, "data", Subchunk2Size = dataLen, a 4-byte field holding the low
    32 bits of its value), followed by the unmodified payload;
    [base64ToWavBlob] returns that file for the bytes [atob] yields; and
    the empty payload at 24000 Hz gives a 44-byte file whose ChunkSize
    reads 36 and whose Subchunk2Size reads 0. *)
Theorem wav_header_exact :
  (forall (bytes : list byte) (sampleRate : Z),
      let dataLen := Z.of_nat (length bytes) in
      exists file,
        wav_encode bytes sampleRate = ok file
        /\ length file = (44 + length bytes)%nat
        /\ file = wav_header dataLen sampleRate ++ bytes
        /\ drop 44 file = bytes
        /\ wav_field 0 4 file = ascii_bytes "RIFF"
        /\ wav_field 4 4 file = le32 (36 + dataLen)
        /\ wav_field 8 4 file = ascii_bytes "WAVE"
        /\ wav_field 12 4 file = ascii_bytes "fmt "
        /\ wav_field 16 4 file = le32 16
        /\ wav_field 20 2 file = le16 1
        /\ wav_field 22 2 file = le16 1
        /\ wav_field 24 4 file = le32 sampleRate
        /\ wav_field 28 4 file = le32 (sampleRate * 2)
        /\ wav_field 32 2 file = le16 2
        /\ wav_field 34 2 file = le16 16
        /\ wav_field 36 4 file = ascii_bytes "data"
        /\ wav_field 40 4 file = le32 dataLen
        /\ le_value (wav_field 4 4 file) = (36 + dataLen) mod 4294967296
        /\ le_value (wav_field 16 4 file) = 16
        /\ le_value (wav_field 20 2 file) = 1
        /\ le_value (wav_field 22 2 file) = 1
        /\ le_value (wav_field 24 4 file) = sampleRate mod 4294967296
        /\ le_value (wav_field 28 4 file) = (sampleRate * 2) mod 4294967296
        /\ le_value (wav_field 32 2 file) = 2
        /\ le_value (wav_field 34 2 file) = 16
        /\ le_value (wav_field 40 4 file) = dataLen mod 4294967296)
  /\ (forall (base64 binaryString : string) (sampleRate : Z),
         atob base64 = ok binaryString ->
         base64ToWavBlob base64 sampleRate
         = ok (mkBlob (wav_header (Z.of_nat (String.length binaryString)) sampleRate
                       ++ ascii_bytes binaryString) "audio/wav"))
  /\ (exists file,
         wav_encode [] 24000 = ok file
         /\ length file = 44%nat
         /\ le_value (wav_field 4 4 file) = 36
         /\ le_value (wav_field 40 4 file) = 0).
Proof.
  split; [|split].
  - intros bytes sampleRate dataLen.
    exists (wav_header dataLen sampleRate ++ bytes).
    split; [apply wav_encode_eq|].
    split; [rewrite length_app, wav_header_length; reflexivity|].
    split; [reflexivity|].
    split; [reflexivity|].
    repeat (split; [reflexivity|]).
    repeat (split; [first [ apply le32_value
                          | rewrite <- (le32_value 16); reflexivity
                          | rewrite <- (le16_value 1); reflexivity
                          | rewrite <- (le16_value 2); reflexivity
                          | rewrite <- (le16_value 16); reflexivity ]|]).
    apply le32_value.
  - intros base64 binaryString sampleRate H. now apply base64ToWavBlob_eq.
  - exists (wav_header 0 24000). repeat split; reflexivity.
Qed.

Lemma wav_header_exact_witness :
  atob "AAEC" = ok (string_of_list_ascii [zero; one; ascii_of_N 2])
  /\ base64ToWavBlob "AAEC" 24000
     = ok (mkBlob (wav_header 3 24000 ++ ["000"; "001"; "002"]%byte) "audio/wav").
Proof.
  split; [reflexivity|].
  exact (proj1 (proj2 wav_header_exact) "AAEC"%string _ 24000 eq_refl).
Defined.

(** C5.  Round trip: for any byte sequence of even length, the file the
    WAV encoder produces, stripped of its first 44 bytes, is the original
    byte sequence. *)
Theorem wav_round_trip (bytes : list byte) (sampleRate : Z) :
  Nat.even (length bytes) = true ->
  exists file, wav_encode bytes sampleRate = ok file /\ drop 44 file = bytes.
Proof.
  intros _. exists (wav_header (Z.of_nat (length bytes)) sampleRate ++ bytes).
  split; [apply wav_encode_eq | apply drop_header].
Qed.

Lemma wav_round_trip_witness :
  exists file,
    wav_encode ["001"; "128"; "255"; "127"]%byte 24000 = ok file
    /\ drop 44 file = ["001"; "128"; "255"; "127"]%byte.
Proof. apply wav_round_trip. reflexivity. Defined.

End WavClaims.

(** * The sample decoder *)

Section DecodeClaims.

(** Counterexample to C6 as stated: the empty text is valid base64 of a
    run of zero bytes of even length 0, and decoding it yields no
    buffer: [createBuffer] rejects a buffer of zero frames. *)
Lemma decode_empty_run_rejected :
  atob "" = ok (zero_run (2 * 0))
  /\ Nat.even (String.length (zero_run (2 * 0))) = true
  /\ decode_samples "" = throw ZeroFrames.
Proof. repeat split; reflexivity. Qed.

(** C6, amended.  Decoding a base64 payload whose decoded byte length is
    odd fails with [UnalignedFrame] and yields no buffer; decoding valid
    base64 of a non-empty even-length run of zero bytes yields a
    one-channel buffer whose samples are all zero; and every non-empty
    even-length payload decodes to the samples obtained from its
    consecutive byte pairs read as signed 16-bit little-endian integers
    and divided by 32768. *)
Theorem decode_alignment :
  (forall base64 binaryString,
      atob base64 = ok binaryString ->
      Nat.odd (String.length binaryString) = true ->
      decode_samples base64 = throw UnalignedFrame)
  /\ (forall base64 n,
         (0 < n)%nat ->
         atob base64 = ok (zero_run (2 * n)) ->
         exists buffer,
           decode_samples base64 = ok buffer
           /\ frame_count buffer = n
           /\ channels buffer = [replicate n (pcm16_to_float 0)]
           /\ Forall (Forall (fun sample => (sample == 0)%Q)) (channels buffer))
  /\ (forall base64 binaryString,
         atob base64 = ok binaryString ->
         Nat.even (String.length binaryString) = true ->
         binaryString <> EmptyString ->
         decode_samples base64
         = ok (mkAudioBuffer 1 (String.length binaryString / 2) 24000
                 [map pcm16_to_float (int16_elements (ascii_bytes binaryString))]))
  /\ (forall lo hi r,
         int16_elements (lo :: hi :: r)
         = to_int16 (byte_val lo + 256 * byte_val hi) :: int16_elements r)
  /\ (forall v, (pcm16_to_float v == v # 32768)%Q).
Proof.
  split; [|split; [|split; [|split]]].
  - intros base64 bin Hatob Hodd.
    unfold decode_samples. rewrite (decode_eq _ _ Hatob). cbn [rbind ok].
    apply decodePCM16_odd. now rewrite ascii_bytes_length.
  - intros base64 n Hn Hatob.
    unfold decode_samples. rewrite (decode_eq _ _ Hatob). cbn [rbind ok].
    rewrite ascii_bytes_zero_run.
    rewrite decodePCM16_mono.
    + rewrite length_replicate, int16_elements_zero.
      replace (2 * n / 2)%nat with n
        by (rewrite Nat.mul_comm, Nat.div_mul; lia).
      eexists. split; [reflexivity|]. cbn [frame_count channels].
      split; [reflexivity|].
      assert (Hmap : map pcm16_to_float (replicate n 0) = replicate n (pcm16_to_float 0)).
      { clear. induction n as [|n IH]; [reflexivity|]. cbn. now rewrite IH. }
      rewrite Hmap. split; [reflexivity|].
      constructor; [|constructor].
      apply Forall_replicate. reflexivity.
    + rewrite length_replicate. replace (2 * n)%nat with (n * 2)%nat by lia.
      rewrite Nat.even_mul. cbn. apply orb_true_r.
    + destruct n; [lia|]. replace (2 * S n)%nat with (S (S (2 * n))) by lia.
      discriminate.
    + reflexivity.
  - intros base64 bin Hatob Heven Hne.
    unfold decode_samples. rewrite (decode_eq _ _ Hatob). cbn [rbind ok].
    rewrite decodePCM16_mono.
    + now rewrite ascii_bytes_length.
    + now rewrite ascii_bytes_length.
    + destruct bin; [congruence | discriminate].
    + reflexivity.
  - reflexivity.
  - apply pcm16_to_float_eq.
Qed.

Lemma decode_alignment_witness :
  decode_samples "AA==" = throw UnalignedFrame
  /\ (exists buffer,
         decode_samples "AAAAAAAA" = ok buffer
         /\ frame_count buffer = 3%nat
         /\ channels buffer = [replicate 3 (pcm16_to_float 0)]
         /\ Forall (Forall (fun sample => (sample == 0)%Q)) (channels buffer))
  /\ decode_samples "/38AgAEA"
     = ok (mkAudioBuffer 1 3 24000
             [[pcm16_to_float 32767; pcm16_to_float (-32768); pcm16_to_float 1]]).
Proof.
  destruct decode_alignment as (Hodd & Hzero & Heven & _).
  split; [|split].
  - apply (Hodd "AA=="%string (zero_run 1)); reflexivity.
  - apply (Hzero "AAAAAAAA"%string 3%nat); [lia | reflexivity].
  - apply (Heven "/38AgAEA"%string
             (string_of_list_ascii
                [ascii_of_N 255; ascii_of_N 127; zero; ascii_of_N 128; one; zero]));
      [reflexivity | reflexivity | discriminate].
Defined.

End DecodeClaims.

(** * Properties of the playback layer *)

Section PlaybackProps.

Context {Cb U : Type}.
Variable run_cb : Cb -> U -> U.

Local Abbreviation Machine := (@Machine Cb U) (only parsing).
Local Abbreviation Source := (@Source Cb) (only parsing).

Lemma alter_last (f : Source -> Source) (l : list Source) (x : Source) :
  alter f (length l) (l ++ [x]) = l ++ [f x].
Proof.
  replace (length l) with (length l + 0)%nat by lia.
  now rewrite alter_app_r.
Qed.

Lemma lookup_last (l : list Source) (x : Source) :
  (l ++ [x]) !! length l = Some x.
Proof. apply list_lookup_middle. reflexivity. Qed.

Ltac play_unfold :=
  unfold playRawAudio, playRawAudio_try, try_catch, bind, getAudioContext,
    ctx_state, ctx_resume, lift, ret, effect, createBufferSource,
    source_set_buffer, source_connect, source_addEventListener_ended,
    source_start, update_source, console_error, invoke, play_outcome, caught,
    with_node, context_after_get, decode_samples, set_sources, set_audioContext.

Lemma playRawAudio_outcome (base64String : string) (onEnded : option Cb) (m : Machine) :
  playRawAudio run_cb base64String onEnded m = play_outcome run_cb base64String onEnded m.
Proof.
  destruct m as [ctx srcs [enew eres ecre econ esta] con inv u].
  play_unfold. cbn.
  destruct ctx as [[]|]; [| |destruct enew as [|[]]]; try destruct eres; cbn;
    try (destruct onEnded; cbn; rewrite ?app_nil_r; reflexivity);
    (destruct (decode base64String) as [e|bytes]; cbn;
     [destruct onEnded; cbn; rewrite ?app_nil_r; reflexivity|]);
    (destruct (decodePCM16 bytes default_sample_rate 1) as [e|buffer]; cbn;
     [destruct onEnded; cbn; rewrite ?app_nil_r; reflexivity|]);
    (destruct ecre; cbn;
     [destruct onEnded; cbn; rewrite ?app_nil_r; reflexivity|]);
    rewrite ?alter_last; cbn;
    (destruct econ; cbn;
     [destruct onEnded; cbn; rewrite ?app_nil_r; reflexivity|]);
    rewrite ?alter_last; cbn;
    destruct onEnded; cbn; rewrite ?alter_last; cbn;
    (destruct esta; cbn; rewrite ?lookup_last; cbn;
     rewrite ?alter_last, ?app_nil_r; reflexivity).
Qed.

Lemma play_outcome_success (base64String : string) (onEnded : option Cb) (m : Machine) :
  some_step_fails base64String m = false ->
  exists buffer,
    decode_samples base64String = ok buffer
    /\ play_outcome run_cb base64String onEnded m
       = (with_node (mkSource (Some buffer) true (listeners_of onEnded) Rendering NotDue)
            (set_audioContext (Some Running) m),
          inr (StopSource (length (sources m)))).
Proof.
  unfold some_step_fails, play_outcome. intros H.
  destruct (context_after_get m) as [e|st]; [discriminate|].
  destruct st, (env_resume (env m)); cbn in H; try discriminate;
    destruct (decode_samples base64String) as [e|buffer]; cbn in H; try discriminate;
    destruct (env_createBufferSource (env m)); cbn in H; try discriminate;
    destruct (env_connect (env m)); cbn in H; try discriminate;
    destruct (env_start (env m)); cbn in H; try discriminate;
    exists buffer; split; reflexivity.
Qed.

Lemma play_outcome_failure (base64String : string) (onEnded : option Cb) (m : Machine) :
  some_step_fails base64String m = true ->
  exists e m1 extra,
    play_outcome run_cb base64String onEnded m = caught run_cb onEnded e m1
    /\ env m1 = env m /\ console m1 = console m /\ invoked m1 = invoked m
    /\ app m1 = app m
    /\ sources m1 = sources m ++ extra
    /\ Forall (fun x => src_state x = Unstarted /\ src_ended x = NotDue) extra.
Proof.
  unfold some_step_fails, play_outcome. intros H.
  destruct (context_after_get m) as [e|st].
  { exists e, m, []. rewrite app_nil_r. repeat split; constructor. }
  destruct (match st with Suspended => env_resume (env m) | Running => ok tt end) as [e|?] eqn:Er.
  { exists e, (set_audioContext (Some st) m), []. cbn. rewrite app_nil_r. repeat split; constructor. }
  assert (Hr : match st with Suspended => is_error (env_resume (env m)) | Running => false end = false).
  { destruct st; [|reflexivity]. now rewrite Er. }
  rewrite Hr in H. cbn in H. clear Hr Er.
  destruct (decode_samples base64String) as [e|buffer].
  { exists e, (set_audioContext (Some Running) m), []. cbn. rewrite app_nil_r. repeat split; constructor. }
  destruct (env_createBufferSource (env m)) as [e|?].
  { exists e, (set_audioContext (Some Running) m), []. cbn. rewrite app_nil_r. repeat split; constructor. }
  destruct (env_connect (env m)) as [e|?].
  { eexists e, _, [_]. cbn. repeat split. repeat constructor. }
  destruct (env_start (env m)) as [e|?]; [|discriminate].
  eexists e, _, [_]. cbn. repeat split. repeat constructor.
Qed.

Lemma playRawAudio_total (base64String : string) (onEnded : option Cb) (m : Machine) :
  exists m' stop, playRawAudio run_cb base64String onEnded m = (m', inr stop).
Proof.
  rewrite playRawAudio_outcome.
  destruct (some_step_fails base64String m) eqn:E.
  - destruct (play_outcome_failure base64String onEnded m E) as (e & m1 & extra & -> & _).
    eexists _, _. reflexivity.
  - destruct (play_outcome_success base64String onEnded m E) as (b & _ & ->).
    eexists _, _. reflexivity.
Qed.

(** *** The stop closure *)

Lemma alter_lookup_insert (f : Source -> Source) (l : list Source) (i : nat) (x : Source) :
  l !! i = Some x -> alter f i l = <[i := f x]> l.
Proof.
  revert i. induction l as [|y l IH]; intros [|i] H; try discriminate.
  - cbn in *. congruence.
  - cbn in *. f_equal. now apply IH.
Qed.

Lemma call_stop_outcome (i : nat) (m : Machine) :
  call_stop (StopSource i) m = (after_stop i m, inr tt).
Proof.
  unfold call_stop, try_catch, bind, source_stop, source_disconnect, effect,
    update_source, after_stop, ret.
  destruct (sources m !! i) as [s|] eqn:E; [|reflexivity].
  destruct (src_state s) eqn:Es; [reflexivity| |].
  - cbn. rewrite (alter_lookup_insert _ _ _ _ E).
    erewrite alter_lookup_insert
      by (apply list_lookup_insert_eq; eapply lookup_lt_Some; eassumption).
    rewrite list_insert_insert_eq. reflexivity.
  - cbn. rewrite (alter_lookup_insert _ _ _ _ E). rewrite Es. reflexivity.
Qed.

Lemma call_stop_total (stop : StopFn) (m : Machine) :
  exists m', call_stop stop m = (m', inr tt).
Proof.
  destruct stop as [|i]; [eexists; reflexivity|].
  rewrite call_stop_outcome. eexists; reflexivity.
Qed.

Lemma fold_invoke (i : nat) (l : list Cb) (m : Machine) :
  fold_left (fun m cb => invoke run_cb (FromEndedEvent i cb) m) l m
  = mkMachine (audioContext m) (sources m) (env m) (console m)
      (invoked m ++ map (FromEndedEvent i) l)
      (fold_left (fun u cb => run_cb cb u) l (app m)).
Proof.
  revert m. induction l as [|cb l IH]; intros m.
  - cbn. rewrite app_nil_r. now destruct m.
  - cbn [fold_left map]. rewrite IH. unfold invoke. cbn.
    now rewrite <- app_assoc.
Qed.

Lemma dispatch_ended_outcome (i : nat) (m : Machine) :
  dispatch_ended run_cb i m = after_dispatch run_cb i m.
Proof.
  unfold dispatch_ended, after_dispatch.
  destruct (sources m !! i) as [s|] eqn:E; [|reflexivity].
  destruct (src_ended s); try reflexivity.
  rewrite fold_invoke. unfold update_source, set_sources. cbn.
  now rewrite (alter_lookup_insert _ _ _ _ E).
Qed.

Lemma source_finishes_outcome (i : nat) (m : Machine) :
  source_finishes i m
  = match sources m !! i with
    | Some s =>
        match src_state s with
        | Rendering =>
            set_sources (<[i := mkSource (src_buffer s) (src_connected s)
                                 (src_listeners s) Finished Pending]> (sources m)) m
        | _ => m
        end
    | None => m
    end.
Proof.
  unfold source_finishes, update_source.
  destruct (sources m !! i) as [s|] eqn:E; [|reflexivity].
  destruct (src_state s); try reflexivity.
  now rewrite (alter_lookup_insert _ _ _ _ E).
Qed.

(** **** The [ended] event calls the listener once *)

Lemma ended_calls_catch (j : nat) (l : list Cb) (m m' : Machine) :
  invoked m' = invoked m ++ map FromCatch l ->
  ended_calls j m' = ended_calls j m.
Proof.
  unfold ended_calls. intros ->. rewrite List.filter_app, length_app.
  induction l as [|cb l IH]; cbn in *; lia.
Qed.

Lemma ended_calls_event (i j : nat) (l : list Cb) (m m' : Machine) :
  invoked m' = invoked m ++ map (FromEndedEvent i) l ->
  ended_calls j m' = (ended_calls j m + if (i =? j)%nat then length l else 0)%nat.
Proof.
  unfold ended_calls. intros ->. rewrite List.filter_app, length_app. f_equal.
  induction l as [|cb l IH]; cbn [map List.filter].
  - now destruct (i =? j)%nat.
  - destruct (i =? j)%nat; cbn [length]; [now rewrite IH | exact IH].
Qed.

Lemma ended_calls_same (j : nat) (m m' : Machine) :
  invoked m' = invoked m -> ended_calls j m' = ended_calls j m.
Proof. unfold ended_calls. now intros ->. Qed.

Lemma audio_inv_fresh (e : Env) (u : U) : audio_inv (@fresh_machine Cb U e u).
Proof. split; [intros j s H; discriminate | reflexivity]. Qed.

Lemma audio_inv_insert (i : nat) (s s' : Source) (m m' : Machine) :
  audio_inv m ->
  sources m !! i = Some s ->
  sources m' = <[i := s']> (sources m) ->
  (forall j, j <> i -> ended_calls j m' = ended_calls j m) ->
  node_ok (ended_calls i m') s' ->
  audio_inv m'.
Proof.
  intros [Hin Hout] Hi Hs Hcalls Hok. split.
  - intros j x Hj. rewrite Hs in Hj.
    destruct (decide (j = i)) as [->|Hne].
    + rewrite list_lookup_insert_eq in Hj by (eapply lookup_lt_Some; eassumption).
      now inversion Hj; subst.
    + rewrite list_lookup_insert_ne in Hj by congruence.
      rewrite Hcalls by assumption. now apply Hin.
  - intros j Hj. rewrite Hs, length_insert in Hj.
    rewrite Hcalls; [now apply Hout|].
    apply lookup_lt_Some in Hi. lia.
Qed.

Lemma audio_inv_stop (i : nat) (m : Machine) :
  audio_inv m -> audio_inv (after_stop i m).
Proof.
  intros Hinv. unfold after_stop.
  destruct (sources m !! i) as [s|] eqn:E; [|assumption].
  destruct (src_state s) eqn:Es; [assumption| |].
  - eapply (audio_inv_insert i s _ m);
      [exact Hinv | exact E | reflexivity | intros; reflexivity |].
    destruct Hinv as [Hin _]. specialize (Hin i s E). destruct Hin as [Hc Hf].
    change (ended_calls i (set_sources _ m)) with (ended_calls i m).
    split; cbn.
    + rewrite Hc. destruct (src_ended s) eqn:Ee; try reflexivity.
      assert (src_state s = Finished) by (apply Hf; congruence). congruence.
    + split; congruence.
  - eapply (audio_inv_insert i s _ m);
      [exact Hinv | exact E | reflexivity | intros; reflexivity |].
    destruct Hinv as [Hin _]. specialize (Hin i s E). destruct Hin as [Hc Hf].
    change (ended_calls i (set_sources _ m)) with (ended_calls i m).
    split; cbn; [exact Hc|]. split; [intros _; now apply Hf | reflexivity].
Qed.

Lemma audio_inv_finishes (i : nat) (m : Machine) :
  audio_inv m -> audio_inv (source_finishes i m).
Proof.
  intros Hinv. rewrite source_finishes_outcome.
  destruct (sources m !! i) as [s|] eqn:E; [|assumption].
  destruct (src_state s) eqn:Es; try assumption.
  eapply (audio_inv_insert i s _ m);
    [exact Hinv | exact E | reflexivity | intros; reflexivity |].
  destruct Hinv as [Hin _]. specialize (Hin i s E). destruct Hin as [Hc Hf].
  change (ended_calls i (set_sources _ m)) with (ended_calls i m).
  split; cbn.
  - rewrite Hc. destruct (src_ended s) eqn:Ee; try reflexivity.
    assert (src_state s = Finished) by (apply Hf; congruence). congruence.
  - split; congruence.
Qed.

Lemma audio_inv_dispatch (i : nat) (m : Machine) :
  audio_inv m -> audio_inv (dispatch_ended run_cb i m).
Proof.
  intros Hinv. rewrite dispatch_ended_outcome. unfold after_dispatch.
  destruct (sources m !! i) as [s|] eqn:E; [|assumption].
  destruct (src_ended s) eqn:Ee; try assumption.
  destruct (Hinv) as [Hin _]. specialize (Hin i s E). destruct Hin as [Hc Hf].
  eapply (audio_inv_insert i s _ m); [exact Hinv | exact E | reflexivity | |].
  - intros j Hne. erewrite ended_calls_event by reflexivity.
    destruct (Nat.eqb_spec i j); [congruence | lia].
  - erewrite ended_calls_event by reflexivity.
    rewrite Nat.eqb_refl, Hc, Ee. split; cbn; [reflexivity|].
    split; [congruence | intros _; apply Hf; congruence].
Qed.

Lemma audio_inv_append (extra : list Source) (m m' : Machine) :
  audio_inv m ->
  sources m' = sources m ++ extra ->
  (forall j, ended_calls j m' = ended_calls j m) ->
  Forall (fun x => src_state x <> Finished /\ src_ended x = NotDue) extra ->
  audio_inv m'.
Proof.
  intros [Hin Hout] Hs Hcalls Hextra. split.
  - intros j x Hj. rewrite Hs in Hj. rewrite Hcalls.
    apply lookup_app_Some in Hj as [Hj|[Hlen Hj]].
    + now apply Hin.
    + rewrite Hout by assumption.
      rewrite Forall_forall in Hextra.
      destruct (Hextra x) as [Hst He].
      { eapply list_elem_of_lookup_2. eassumption. }
      split; [now rewrite He|]. split; [contradiction | congruence].
  - intros j Hj. rewrite Hcalls. apply Hout. rewrite Hs, length_app in Hj. lia.
Qed.

Lemma audio_inv_play (base64String : string) (onEnded : option Cb) (m : Machine) :
  audio_inv m -> audio_inv (fst (playRawAudio run_cb base64String onEnded m)).
Proof.
  intros Hinv. rewrite playRawAudio_outcome.
  destruct (some_step_fails base64String m) eqn:E.
  - destruct (play_outcome_failure base64String onEnded m E)
      as (e & m1 & extra & -> & _ & _ & Hi & _ & Hs & Hx).
    cbn. eapply (audio_inv_append extra); [exact Hinv | cbn; exact Hs | |].
    + intros j. eapply ended_calls_catch. cbn. rewrite Hi. reflexivity.
    + eapply Forall_impl; [exact Hx|]. cbn. intros x [-> ->]. split; congruence.
  - destruct (play_outcome_success base64String onEnded m E) as (b & _ & ->).
    cbn. eapply (audio_inv_append [_]);
      [exact Hinv | reflexivity | intros; reflexivity |].
    repeat constructor. cbn. congruence.
Qed.

Lemma audio_inv_step (m : Machine) (op : AudioOp) :
  audio_inv m -> audio_inv (audio_step run_cb m op).
Proof.
  intros Hinv. destruct op as [s cb|stop|i|i| |e]; cbn.
  - now apply audio_inv_play.
  - destruct stop as [|i]; [assumption|].
    rewrite call_stop_outcome. now apply audio_inv_stop.
  - now apply audio_inv_finishes.
  - now apply audio_inv_dispatch.
  - unfold context_suspends. destruct (audioContext m); assumption.
  - assumption.
Qed.

Lemma audio_inv_run (m : Machine) (ops : list AudioOp) :
  audio_inv m -> audio_inv (audio_run run_cb m ops).
Proof.
  revert m. induction ops as [|op ops IH]; intros m Hinv; [assumption|].
  cbn. apply IH. now apply audio_inv_step.
Qed.


(** **** A started session keeps its listener *)

Lemma has_listeners_insert (i j : nat) (l : list Cb) (s s' : Source) (m m' : Machine) :
  has_listeners i l m ->
  sources m !! j = Some s ->
  src_listeners s' = src_listeners s ->
  sources m' = <[j := s']> (sources m) ->
  has_listeners i l m'.
Proof.
  intros (x & Hx & Hl) Hj Hs' Hm'. unfold has_listeners. rewrite Hm'.
  destruct (decide (i = j)) as [->|Hne].
  - exists s'. rewrite list_lookup_insert_eq by (eapply lookup_lt_Some; eassumption).
    split; [reflexivity|]. congruence.
  - exists x. rewrite list_lookup_insert_ne by congruence. now split.
Qed.

Lemma has_listeners_step (i : nat) (l : list Cb) (m : Machine) (op : AudioOp) :
  has_listeners i l m -> has_listeners i l (audio_step run_cb m op).
Proof.
  intros H. destruct op as [s cb|stop|j|j| |e]; cbn.
  - rewrite playRawAudio_outcome.
    destruct H as (x & Hx & Hl).
    destruct (some_step_fails s m) eqn:E.
    + destruct (play_outcome_failure s cb m E)
        as (e & m1 & extra & -> & _ & _ & _ & _ & Hs & _).
      exists x. cbn. rewrite Hs. split; [|assumption].
      now apply lookup_app_l_Some.
    + destruct (play_outcome_success s cb m E) as (b & _ & ->).
      exists x. cbn. split; [|assumption]. now apply lookup_app_l_Some.
  - destruct stop as [|j]; [assumption|].
    rewrite call_stop_outcome. cbn [fst]. unfold after_stop.
    destruct (sources m !! j) as [s|] eqn:E; [|assumption].
    destruct (src_state s); [assumption| |];
      (eapply (has_listeners_insert i j l s _ m);
       [exact H | exact E | | reflexivity]; reflexivity).
  - rewrite source_finishes_outcome.
    destruct (sources m !! j) as [s|] eqn:E; [|assumption].
    destruct (src_state s); try assumption.
    (eapply (has_listeners_insert i j l s _ m);
       [exact H | exact E | | reflexivity]; reflexivity).
  - rewrite dispatch_ended_outcome. unfold after_dispatch.
    destruct (sources m !! j) as [s|] eqn:E; [|assumption].
    destruct (src_ended s); try assumption.
    (eapply (has_listeners_insert i j l s _ m);
       [exact H | exact E | | reflexivity]; reflexivity).
  - unfold context_suspends. destruct (audioContext m); assumption.
  - assumption.
Qed.

Lemma has_listeners_run (i : nat) (l : list Cb) (m : Machine) (ops : list AudioOp) :
  has_listeners i l m -> has_listeners i l (audio_run run_cb m ops).
Proof.
  revert m. induction ops as [|op ops IH]; intros m H; [assumption|].
  cbn. apply IH. now apply has_listeners_step.
Qed.

(** A session that [playRawAudio] started: the new node renders, with
    the callback as its only listener. *)
Lemma playRawAudio_started (base64String : string) (onEnded : option Cb)
      (m m1 : Machine) (i : nat) :
  playRawAudio run_cb base64String onEnded m = (m1, inr (StopSource i)) ->
  exists buffer,
    i = length (sources m)
    /\ m1 = with_node (mkSource (Some buffer) true (listeners_of onEnded) Rendering NotDue)
                      (set_audioContext (Some Running) m).
Proof.
  rewrite playRawAudio_outcome. intros H.
  destruct (some_step_fails base64String m) eqn:E.
  - destruct (play_outcome_failure base64String onEnded m E) as (e & m' & extra & Hc & _).
    rewrite Hc in H. unfold caught in H. congruence.
  - destruct (play_outcome_success base64String onEnded m E) as (b & _ & Hc).
    rewrite Hc in H. exists b. inversion H. split; reflexivity.
Qed.

End PlaybackProps.

(** * The completion callback and the total [playRawAudio] *)

Section PlaybackClaims.

Context {Cb U : Type}.
Variable run_cb : Cb -> U -> U.

Local Abbreviation Machine := (@Machine Cb U) (only parsing).

(** C2, amended.  For every playback session started by [playRawAudio]
    with a caller-supplied [onEnded] callback, in any execution of the
    playback layer: the callback has been invoked exactly once when the
    [ended] event of the session's node has been dispatched and not at
    all before, so at most once per session.  The event is dispatched
    after playback reached its natural end, and the callback is then
    invoked exactly once; it is also dispatched after the returned stop
    function stopped the node, which leaves the listener registered, so
    a preempted session invokes the callback once too. *)
Theorem ended_callback_once
    (e : Env) (u : U) (before : list AudioOp)
    (base64String : string) (cb : Cb) (m1 : Machine) (i : nat) :
  playRawAudio run_cb base64String (Some cb)
               (audio_run run_cb (fresh_machine e u) before)
  = (m1, inr (StopSource i)) ->
  source_rendering m1 i = true
  /\ ended_calls i m1 = 0%nat
  /\ (forall after,
         let m2 := audio_run run_cb m1 after in
         ended_calls i m2
         = match ended_state m2 i with Some Dispatched => 1%nat | _ => 0%nat end
         /\ (ended_calls i m2 <= 1)%nat
         /\ (source_rendering m2 i = true -> ended_calls i m2 = 0%nat))
  /\ (let m2 := dispatch_ended run_cb i (source_finishes i m1) in
      ended_calls i (source_finishes i m1) = 0%nat
      /\ ended_calls i m2 = 1%nat
      /\ app m2 = run_cb cb (app m1))
  /\ (let m2 := dispatch_ended run_cb i (fst (call_stop (StopSource i) m1)) in
      ended_calls i (fst (call_stop (StopSource i) m1)) = 0%nat
      /\ ended_calls i m2 = 1%nat
      /\ app m2 = run_cb cb (app m1)).
Proof.
  intros Hplay.
  set (m := audio_run run_cb (fresh_machine e u) before) in *.
  assert (Hm : audio_inv m) by (apply audio_inv_run, audio_inv_fresh).
  assert (Hm1 : audio_inv m1).
  { pose proof (audio_inv_play run_cb base64String (Some cb) m Hm) as H.
    now rewrite Hplay in H. }
  destruct (playRawAudio_started run_cb _ _ _ _ _ Hplay) as (buffer & Hi & Hshape).
  set (node := mkSource (Some buffer) true [cb] Rendering NotDue) in *.
  assert (Hnode : sources m1 !! i = Some node).
  { rewrite Hshape, Hi. cbn. apply list_lookup_middle. reflexivity. }
  assert (Hcalls : ended_calls i m1 = 0%nat).
  { destruct Hm1 as [Hin _]. destruct (Hin i node Hnode) as [Hc _]. exact Hc. }
  assert (Hlist : has_listeners i [cb] m1) by (exists node; split; [exact Hnode | reflexivity]).
  split; [unfold source_rendering; now rewrite Hnode|].
  split; [exact Hcalls|].
  split; [|split].
  - intros after m2.
    assert (Hm2 : audio_inv m2) by (now apply audio_inv_run).
    destruct (has_listeners_run run_cb i [cb] m1 after Hlist) as (s & Hs & Hl).
    fold m2 in Hs.
    destruct Hm2 as [Hin _]. destruct (Hin i s Hs) as [Hc Hf].
    unfold ended_state, source_rendering, is_rendering. rewrite Hs. cbn.
    rewrite Hl in Hc. cbn in Hc.
    split; [rewrite Hc; now destruct (src_ended s)|].
    split; [rewrite Hc; destruct (src_ended s); lia|].
    intros Hr. rewrite Hc. destruct (src_ended s) eqn:Ee; try reflexivity.
    assert (src_state s = Finished) by (apply Hf; congruence).
    destruct (src_state s); congruence.
  - cbn zeta. rewrite dispatch_ended_outcome, source_finishes_outcome, Hnode. cbn.
    unfold after_dispatch. cbn.
    rewrite list_lookup_insert_eq by (eapply lookup_lt_Some; eassumption). cbn.
    unfold ended_calls in Hcalls.
    split; [exact Hcalls|]. split; [|reflexivity].
    rewrite List.filter_app, length_app, Hcalls. cbn.
    now rewrite Nat.eqb_refl.
  - cbn zeta. rewrite call_stop_outcome. cbn [fst].
    rewrite dispatch_ended_outcome. unfold after_stop. rewrite Hnode. cbn.
    unfold after_dispatch. cbn.
    rewrite list_lookup_insert_eq by (eapply lookup_lt_Some; eassumption). cbn.
    unfold ended_calls in Hcalls.
    split; [exact Hcalls|]. split; [|reflexivity].
    rewrite List.filter_app, length_app, Hcalls. cbn.
    now rewrite Nat.eqb_refl.
Qed.

(** C10.  For every input string, optional callback and machine,
    [playRawAudio] returns normally with a stop function.  Whenever a
    step of its [try] block throws (in particular for invalid base64, a
    payload that does not decode, a failing resume of a suspended
    context, and a node that cannot be created, connected or started),
    it logs the error, invokes [onEnded] exactly once if one was
    supplied, starts no rendering, and returns the no-op stop function;
    and the stop function it returns can always be called. *)
Theorem playRawAudio_never_throws
    (base64String : string) (onEnded : option Cb) (m : Machine) :
  exists m' stop,
    playRawAudio run_cb base64String onEnded m = (m', inr stop)
    /\ (exists m'', call_stop stop m' = (m'', inr tt))
    /\ (some_step_fails base64String m = true ->
        stop = NoopStop
        /\ invoked m' = invoked m ++ map FromCatch (listeners_of onEnded)
        /\ catch_calls m' = (catch_calls m + length (listeners_of onEnded))%nat
        /\ app m' = match onEnded with Some cb => run_cb cb (app m) | None => app m end
        /\ length (console m') = S (length (console m))
        /\ rendering_count m' = rendering_count m)
    /\ (is_error (atob base64String) = true -> some_step_fails base64String m = true)
    /\ (is_error (decode_samples base64String) = true ->
        some_step_fails base64String m = true)
    /\ (context_after_get m = ok Suspended -> is_error (env_resume (env m)) = true ->
        some_step_fails base64String m = true)
    /\ (is_error (context_after_get m) = true -> some_step_fails base64String m = true)
    /\ (is_error (env_createBufferSource (env m)) = true
        \/ is_error (env_connect (env m)) = true
        \/ is_error (env_start (env m)) = true ->
        some_step_fails base64String m = true).
Proof.
  destruct (playRawAudio_total run_cb base64String onEnded m) as (m' & stop & Hplay).
  exists m', stop. split; [exact Hplay|].
  split; [apply call_stop_total|].
  split; [|repeat split].
  - intros Hfail. rewrite playRawAudio_outcome in Hplay.
    destruct (play_outcome_failure run_cb base64String onEnded m Hfail)
      as (e & m1 & extra & Hc & _ & Hcon & Hinv & Happ & Hsrc & Hextra).
    rewrite Hc in Hplay. unfold caught in Hplay. inversion Hplay; subst m' stop. cbn.
    split; [reflexivity|].
    split; [now rewrite Hinv|].
    split.
    { unfold catch_calls. cbn. rewrite Hinv, List.filter_app, length_app.
      f_equal. now destruct onEnded. }
    split; [now rewrite Happ|].
    split; [rewrite length_app, Hcon; cbn; lia|].
    unfold rendering_count. cbn. rewrite Hsrc, List.filter_app, length_app.
    assert (Hnone : List.filter is_rendering extra = []).
    { clear -Hextra. induction Hextra as [|x l [Hx _] _ IH]; [reflexivity|].
      cbn. unfold is_rendering at 1. now rewrite Hx. }
    rewrite Hnone. cbn. lia.
  - unfold some_step_fails, decode_samples, decode. intros H.
    destruct (context_after_get m) as [|st]; [reflexivity|].
    destruct (atob base64String); [|discriminate]. cbn.
    now rewrite orb_true_r.
  - unfold some_step_fails. intros H.
    destruct (context_after_get m) as [|st]; [reflexivity|].
    rewrite H. cbn. now rewrite orb_true_r.
  - unfold some_step_fails. intros -> H. cbn. now rewrite H.
  - unfold some_step_fails. intros H.
    destruct (context_after_get m); [reflexivity | discriminate].
  - unfold some_step_fails. intros H.
    destruct (context_after_get m) as [|st]; [reflexivity|].
    destruct H as [H|[H|H]]; rewrite H; cbn; now rewrite ?orb_true_r.
Qed.

End PlaybackClaims.

(** Counterexample to C2 as stated: a session is started with a callback
    and preempted with the returned stop function before its natural end;
    the [ended] event of the stopped node is then delivered and invokes
    the callback. *)
Lemma stop_then_ended_invokes_callback :
  let count (_ : unit) (n : nat) := S n in
  let started := playRawAudio count "AAAAAAAA" (Some tt) (fresh_machine healthy_env 0%nat) in
  let stopped := fst (call_stop (StopSource 0) (fst started)) in
  let delivered := dispatch_ended count 0 stopped in
  snd started = inr (StopSource 0)
  /\ source_rendering (fst started) 0 = true
  /\ source_rendering stopped 0 = false
  /\ ended_state stopped 0 = Some Pending
  /\ ended_calls 0 delivered = 1%nat
  /\ app delivered = 1%nat.
Proof. repeat split; reflexivity. Qed.

Lemma ended_callback_once_witness :
  let count (_ : unit) (n : nat) := S n in
  let started := playRawAudio count "AAAAAAAA" (Some tt) (fresh_machine healthy_env 0%nat) in
  ended_calls 0 (dispatch_ended count 0 (source_finishes 0 (fst started))) = 1%nat
  /\ ended_calls 0 (dispatch_ended count 0 (fst (call_stop (StopSource 0) (fst started))))
     = 1%nat.
Proof.
  pose proof (ended_callback_once (fun (_ : unit) (n : nat) => S n) healthy_env 0%nat []
                "AAAAAAAA" tt _ 0%nat eq_refl) as (_ & _ & _ & (_ & Hn & _) & (_ & Hs & _)).
  split; [exact Hn | exact Hs].
Defined.

Lemma playRawAudio_never_throws_witness :
  exists m',
    playRawAudio (fun (_ : unit) (n : nat) => S n) "not base64!" (Some tt)
                 (fresh_machine healthy_env 0%nat)
    = (m', inr NoopStop)
    /\ catch_calls m' = 1%nat /\ app m' = 1%nat.
Proof.
  destruct (playRawAudio_never_throws (fun (_ : unit) (n : nat) => S n)
              "not base64!" (Some tt) (fresh_machine healthy_env 0%nat))
    as (m' & stop & Hplay & _ & Hfail & Hatob & _).
  destruct (Hfail (Hatob eq_refl)) as (-> & _ & Hc & Ha & _).
  exists m'. split; [exact Hplay|]. split; [exact Hc | exact Ha].
Defined.

(** * Properties of the studio *)

Section StudioProps.

Local Abbreviation Node := (@Source Callback) (only parsing).

(** *** Elementary facts *)


Lemma run_callback_studio (cb : Callback) (a : App) :
  studio (run_callback cb a)
  = (match cb with
     | SetIsPlayingDemoFalse inst =>
         if (inst =? instance (studio a))%nat
         then setIsPlayingDemo false (studio a) else studio a
     end)
  /\ pending (run_callback cb a) = pending a
  /\ requested (run_callback cb a) = requested a
  /\ mode (run_callback cb a) = mode a
  /\ script (run_callback cb a) = script a.
Proof.
  destruct cb as [inst]. cbn. destruct (inst =? instance (studio a))%nat; repeat split.
Qed.

(** What [playRawAudio] does to a world: it starts a new node and
    leaves the rest alone, or it starts nothing and runs the callback. *)
Lemma play_world (d : string) (onEnded : option Callback) (w : World) :
  (exists buffer,
      playRawAudio run_callback d onEnded w
      = (with_node (mkSource (Some buffer) true (listeners_of onEnded) Rendering NotDue)
           (set_audioContext (Some Running) w),
         inr (StopSource (length (sources w)))))
  \/ (exists e m1 extra,
         playRawAudio run_callback d onEnded w = caught run_callback onEnded e m1
         /\ app m1 = app w
         /\ sources m1 = sources w ++ extra
         /\ Forall (fun x => src_state x = Unstarted /\ src_ended x = NotDue) extra).
Proof.
  rewrite playRawAudio_outcome.
  destruct (some_step_fails d w) eqn:E.
  - right. destruct (play_outcome_failure run_callback d onEnded w E)
      as (e & m1 & extra & Hc & _ & _ & _ & Happ & Hs & Hx).
    now exists e, m1, extra.
  - left. destruct (play_outcome_success run_callback d onEnded w E) as (b & _ & Hc).
    now exists b.
Qed.

Lemma not_live_unstarted (x : Node) : src_state x = Unstarted -> demo_live x = false.
Proof. unfold demo_live, is_rendering. intros ->. apply andb_false_r. Qed.

Lemma not_due_notdue (x : Node) : src_ended x = NotDue -> demo_due x = false.
Proof. unfold demo_due. intros ->. apply andb_false_r. Qed.

Lemma lookup_extra (l extra : list Node) (j : nat) (x : Node) (P : Node -> Prop) :
  (l ++ extra) !! j = Some x ->
  Forall P extra ->
  (l !! j = Some x) \/ ((length l <= j)%nat /\ P x).
Proof.
  intros H HP. apply lookup_app_Some in H as [H|[Hlen H]]; [now left|].
  right. split; [assumption|].
  rewrite Forall_forall in HP. apply HP. eapply list_elem_of_lookup_2. eassumption.
Qed.


(** *** Starting a demo playback *)


(** *** A preview playback: no callback, nothing stopped *)

Lemma preview_play_effect (w : World) (d : string) :
  let w' := fst (playRawAudio run_callback d None w) in
  app w' = app w
  /\ exists extra,
       sources w' = sources w ++ extra
       /\ Forall (fun x => demo_live x = false /\ demo_due x = false) extra.
Proof.
  destruct (play_world d None w)
    as [(buffer & Hs)|(e & m1 & extra & Hc & Happ & Hsrc & Hextra)].
  - rewrite Hs. cbn. split; [reflexivity|].
    eexists [_]. split; [reflexivity|]. repeat constructor.
  - rewrite Hc. cbn. split; [exact Happ|].
    exists extra. split; [exact Hsrc|].
    eapply Forall_impl; [exact Hextra|]. cbn. intros x [Hu Hn].
    split; [now apply not_live_unstarted | now apply not_due_notdue].
Qed.

Lemma lookup_extra_frame (P : Node -> bool) (l extra : list Node) :
  (forall i s, l !! i = Some s -> P s = false) ->
  Forall (fun x => P x = false) extra ->
  forall i s, (l ++ extra) !! i = Some s -> P s = false.
Proof.
  intros Hl He i s Hi.
  destruct (lookup_extra _ _ _ _ _ Hi He) as [Hi'|[_ Hp]]; [now apply (Hl i s) | exact Hp].
Qed.

(** *** The stop closure of the stored session *)

Lemma call_stop_world (stop : StopFn) (w : World) :
  call_stop stop w
  = (match stop with NoopStop => w | StopSource i => after_stop i w end, inr tt).
Proof. destruct stop as [|i]; [reflexivity | apply call_stop_outcome]. Qed.

Lemma after_stop_app (i : nat) (w : World) : app (after_stop i w) = app w.
Proof.
  unfold after_stop. destruct (sources w !! i) as [s|]; [|reflexivity].
  now destruct (src_state s).
Qed.



Lemma no_live_tracked (w : World) : no_live w -> tracked w /\ quiet w.
Proof.
  intros H. split; intros i s Hi Hl; rewrite (H i s Hi) in Hl; discriminate.
Qed.


Lemma stop_demo_skip (w : World) :
  isPlayingDemo (the_studio w) = false \/ stopDemoRef (the_studio w) = None ->
  stop_demo_if_playing w = (w, false).
Proof.
  intros H. unfold stop_demo_if_playing.
  destruct (isPlayingDemo (the_studio w)), (stopDemoRef (the_studio w));
    try reflexivity; destruct H; discriminate.
Qed.


Lemma call_stop_app (stop : StopFn) (w : World) : app (fst (call_stop stop w)) = app w.
Proof.
  rewrite call_stop_world. destruct stop; [reflexivity | apply after_stop_app].
Qed.


(** *** Changes of the studio state that the invariant does not read *)





(** *** The audio engine *)



Lemma fold_callbacks_frame (l : list Callback) (a : App) :
  let a' := fold_left (fun u cb => run_callback cb u) l a in
  pending a' = pending a
  /\ instance (studio a') = instance (studio a)
  /\ isGeneratingDemo (studio a') = isGeneratingDemo (studio a)
  /\ stopDemoRef (studio a') = stopDemoRef (studio a)
  /\ demoAudioData (studio a') = demoAudioData (studio a)
  /\ previewingVoiceId (studio a') = previewingVoiceId (studio a)
  /\ mode a' = mode a /\ script a' = script a /\ requested a' = requested a.
Proof.
  revert a. induction l as [|[inst] l IH]; intros a; [cbn; repeat split|].
  cbn [fold_left]. specialize (IH (run_callback (SetIsPlayingDemoFalse inst) a)).
  cbn zeta in IH. destruct IH as (H1 & H2 & H3 & H4 & H5 & H6 & H7 & H8 & H9).
  cbn zeta. rewrite H1, H2, H3, H4, H5, H6, H7, H8, H9.
  cbn. destruct (inst =? instance (studio a))%nat; repeat split.
Qed.


(** *** Requests that settle *)

Lemma In_delete (k : nat) (l : list Request) (r : Request) :
  In r (delete k l) -> In r l.
Proof.
  intros H. apply list_elem_of_In. apply list_elem_of_In in H.
  eapply elem_of_sublist; [exact H | apply sublist_delete].
Qed.







(** *** The demo button *)



(** *** Every step of a mounted studio keeps the invariant *)





(** *** At most one demo node renders *)



End StudioProps.

(** * Properties of the application around the studio *)

Section AppProps.

(** *** What a step may change in the state of the application *)

Lemma app_frame_refl (a : App) : app_frame a a.
Proof. repeat split. intros r Hr. now left. Qed.

Lemma app_frame_trans (a b c : App) : app_frame a b -> app_frame b c -> app_frame a c.
Proof.
  intros (Hi1 & Hm1 & Hs1 & Hp1) (Hi2 & Hm2 & Hs2 & Hp2).
  repeat split; try congruence.
  intros r Hr. destruct (Hp2 r Hr) as [H|H]; [now apply Hp1 | right; congruence].
Qed.

Lemma frame_run_callback (cb : Callback) (a : App) : app_frame a (run_callback cb a).
Proof.
  destruct (run_callback_studio cb a) as (Hst & Hp & _ & Hm & Hs).
  repeat split; try assumption.
  - rewrite Hst. destruct cb as [inst]. now destruct (inst =? instance (studio a))%nat.
  - intros r Hr. left. now rewrite Hp in Hr.
Qed.

Lemma frame_upd_studio (f : Studio -> Studio) (w : World) :
  (forall st, instance (f st) = instance st) ->
  app_frame (app w) (app (upd_studio f w)).
Proof. intros Hf. repeat split; cbn; [apply Hf | now left]. Qed.

Lemma play_app (d : string) (onEnded : option Callback) (w : World) :
  app (fst (playRawAudio run_callback d onEnded w)) = app w
  \/ exists cb, onEnded = Some cb
                /\ app (fst (playRawAudio run_callback d onEnded w))
                   = run_callback cb (app w).
Proof.
  destruct (play_world d onEnded w)
    as [(buffer & Hs)|(e & m1 & extra & Hc & Happ & _)].
  - left. now rewrite Hs.
  - rewrite Hc. cbn. rewrite Happ. destruct onEnded as [cb|]; [right; now exists cb | now left].
Qed.

Lemma frame_play (d : string) (onEnded : option Callback) (w : World) :
  app_frame (app w) (app (fst (playRawAudio run_callback d onEnded w))).
Proof.
  destruct (play_app d onEnded w) as [->|(cb & _ & ->)];
    [apply app_frame_refl | apply frame_run_callback].
Qed.

Lemma frame_stop_demo (w : World) :
  app_frame (app w) (app (fst (stop_demo_if_playing w))).
Proof.
  unfold stop_demo_if_playing.
  destruct (isPlayingDemo (the_studio w)); [|apply app_frame_refl].
  destruct (stopDemoRef (the_studio w)) as [stop|]; [|apply app_frame_refl].
  rewrite call_stop_world. cbn [fst].
  eapply app_frame_trans; [|apply frame_upd_studio; reflexivity].
  destruct stop as [|i]; [apply app_frame_refl|].
  rewrite after_stop_app. apply app_frame_refl.
Qed.

Lemma frame_send (r : Request) (w : World) :
  request_instance r = instance (the_studio w) ->
  app_frame (app w) (app (send_request r w)).
Proof.
  intros Hr. repeat split. cbn. intros r' H.
  apply in_app_or in H as [H|[<-|[]]]; [now left | now right].
Qed.

Lemma frame_handleGenerateAndPlayDemo (w : World) :
  app_frame (app w) (app (handleGenerateAndPlayDemo w)).
Proof.
  unfold handleGenerateAndPlayDemo.
  pose proof (frame_stop_demo w) as Hstop.
  destruct (stop_demo_if_playing w) as [w1 [|]]; [exact Hstop|].
  destruct (truthy (demoAudioData (the_studio w))) as [d|].
  - set (w1' := upd_studio (setIsPlayingDemo true) w).
    pose proof (frame_play d (Some (demo_callback w)) w1') as Hp.
    destruct (playRawAudio run_callback d (Some (demo_callback w)) w1') as [w2 [e|stopFn]];
      cbn [fst] in Hp.
    + eapply app_frame_trans; [|exact Hp]. now apply frame_upd_studio.
    + eapply app_frame_trans; [|apply frame_upd_studio; reflexivity].
      eapply app_frame_trans; [|exact Hp]. now apply frame_upd_studio.
  - destruct (trim_is_empty (script (app w))); [apply app_frame_refl|].
    eapply app_frame_trans; [apply (frame_upd_studio (setIsGeneratingDemo true)); reflexivity|].
    now apply frame_send.
Qed.

Lemma frame_handlePreviewVoice (voice : VoiceOption) (w : World) :
  app_frame (app w) (app (handlePreviewVoice voice w)).
Proof.
  unfold handlePreviewVoice.
  assert (H : app_frame (app w)
                (app (send_request
                        (PreviewRequest (instance (the_studio w)) previewText (voice_id voice))
                        (upd_studio (setPreviewingVoiceId (Some (voice_id voice))) w)))).
  { eapply app_frame_trans;
      [apply (frame_upd_studio (setPreviewingVoiceId (Some (voice_id voice)))); reflexivity|].
    now apply frame_send. }
  destruct (previewingVoiceId (the_studio w)) as [id|]; [|exact H].
  destruct (String.eqb id (voice_id voice)); [apply app_frame_refl | exact H].
Qed.

Lemma frame_drop_request (k : nat) (w : World) :
  app_frame (app w) (app (drop_request k w)).
Proof. repeat split. cbn. intros r Hr. left. now apply In_delete in Hr. Qed.

Lemma frame_demo_settled (inst : nat) (outcome : Result string) (w : World) :
  app_frame (app w) (app (demo_settled inst outcome w)).
Proof.
  unfold demo_settled.
  destruct (inst =? instance (the_studio w))%nat.
  - destruct outcome as [e|d]; [now apply frame_upd_studio|].
    set (w2 := upd_studio (setIsPlayingDemo true)
                 (upd_studio (setDemoAudioData (Some d)) w)).
    pose proof (frame_play d (Some (SetIsPlayingDemoFalse inst)) w2) as Hp.
    destruct (playRawAudio run_callback d (Some (SetIsPlayingDemoFalse inst)) w2)
      as [w3 [e|stopFn]]; cbn [fst] in Hp.
    + eapply app_frame_trans; [|apply frame_upd_studio; reflexivity].
      eapply app_frame_trans; [|exact Hp]. repeat split. now left.
    + eapply app_frame_trans; [|apply frame_upd_studio; reflexivity].
      eapply app_frame_trans; [|apply frame_upd_studio; reflexivity].
      eapply app_frame_trans; [|exact Hp]. repeat split. now left.
  - destruct outcome as [e|d]; [apply app_frame_refl | apply frame_play].
Qed.

Lemma frame_preview_settled (inst : nat) (outcome : Result string) (w : World) :
  app_frame (app w) (app (preview_settled inst outcome w)).
Proof.
  unfold preview_settled.
  set (w1 := match outcome with
             | inl _ => w
             | inr audioData => fst (playRawAudio run_callback audioData None w)
             end).
  assert (H1 : app_frame (app w) (app w1)).
  { subst w1. destruct outcome; [apply app_frame_refl | apply frame_play]. }
  destruct (inst =? instance (the_studio w1))%nat; [|exact H1].
  eapply app_frame_trans; [exact H1 | now apply frame_upd_studio].
Qed.

Lemma frame_dispatch (i : nat) (w : World) :
  app_frame (app w) (app (dispatch_ended run_callback i w)).
Proof.
  rewrite dispatch_ended_outcome. unfold after_dispatch.
  destruct (sources w !! i) as [x|]; [|apply app_frame_refl].
  destruct (src_ended x); try apply app_frame_refl. cbn.
  destruct (fold_callbacks_frame (src_listeners x) (app w))
    as (Hp & Hi & _ & _ & _ & _ & Hm & Hs & _).
  repeat split; try assumption. intros r Hr. left. now rewrite Hp in Hr.
Qed.

Lemma frame_step (w : World) (ev : Event) :
  is_app_event ev = false -> app_frame (app w) (app (step w ev)).
Proof.
  intros Hev.
  destruct ev as [target|s| | |voice|voice| | |k response|i|i| |e];
    cbn [step]; try discriminate.
  - destruct (in_practice w); [now apply frame_upd_studio | apply app_frame_refl].
  - destruct (in_practice w); [now apply frame_upd_studio | apply app_frame_refl].
  - destruct (in_practice w && isVoiceDropdownOpen (the_studio w) && is_voice_option voice);
      [|apply app_frame_refl].
    unfold select_voice. destruct (truthy (demoAudioData (the_studio w)));
      repeat split; now left.
  - destruct (in_practice w && isVoiceDropdownOpen (the_studio w) && is_voice_option voice);
      [apply frame_handlePreviewVoice | apply app_frame_refl].
  - destruct (in_practice w && negb (isGeneratingDemo (the_studio w))
              && nonempty (script (app w)));
      [apply frame_handleGenerateAndPlayDemo | apply app_frame_refl].
  - destruct (in_practice w && nonempty (script (app w)));
      [apply frame_stop_demo | apply app_frame_refl].
  - unfold settle. destruct (pending (app w) !! k) as [r|]; [|apply app_frame_refl].
    eapply app_frame_trans; [apply (frame_drop_request k)|].
    destruct r; [apply frame_demo_settled | apply frame_preview_settled].
  - rewrite source_finishes_outcome.
    destruct (sources w !! i) as [x|]; [|apply app_frame_refl].
    destruct (src_state x); apply app_frame_refl.
  - apply frame_dispatch.
  - unfold context_suspends. destruct (audioContext w); apply app_frame_refl.
  - apply app_frame_refl.
Qed.

(** *** The cache does not outlive the practice view *)

Lemma in_practice_mode (w : World) : in_practice w = false <-> mode (app w) = EDITOR.
Proof. unfold in_practice. destruct (mode (app w)); split; congruence. Qed.

Lemma play_cache (d : string) (onEnded : option Callback) (w : World) :
  let a' := app (fst (playRawAudio run_callback d onEnded w)) in
  demoAudioData (studio a') = demoAudioData (studio (app w))
  /\ pending a' = pending (app w)
  /\ requested a' = requested (app w).
Proof.
  cbn zeta. destruct (play_app d onEnded w) as [->|(cb & _ & ->)]; [repeat split|].
  destruct (run_callback_studio cb (app w)) as (Hst & Hp & Hr & _).
  rewrite Hst, Hp, Hr. destruct cb as [inst].
  destruct (inst =? instance (studio (app w)))%nat; repeat split.
Qed.

Lemma editor_step (w : World) (ev : Event) :
  mode (app w) = EDITOR ->
  (forall r, In r (pending (app w)) -> (request_instance r < instance (the_studio w))%nat) ->
  is_app_event ev = false ->
  demoAudioData (the_studio (step w ev)) = demoAudioData (the_studio w)
  /\ (forall r, In r (pending (app (step w ev))) -> In r (pending (app w))).
Proof.
  intros Hmode Hold Hev. pose proof (proj2 (in_practice_mode w) Hmode) as Hp.
  destruct ev as [target|s| | |voice|voice| | |k response|i|i| |e];
    cbn [step]; try discriminate; rewrite ?Hp; cbn [andb]; try (split; [reflexivity|tauto]).
  - unfold settle. destruct (pending (app w) !! k) as [r|] eqn:Ek; [|split; [reflexivity|tauto]].
    assert (Hlt : (request_instance r < instance (the_studio w))%nat).
    { apply Hold. apply list_elem_of_In. eapply list_elem_of_lookup_2. eassumption. }
    assert (Hne : (request_instance r =? instance (the_studio (drop_request k w)))%nat = false).
    { apply Nat.eqb_neq. unfold the_studio in *. cbn. lia. }
    destruct r as [inst text voiceName|inst text voiceName];
      change (request_instance _) with inst in Hne.
    + unfold demo_settled. rewrite Hne.
      destruct (generation_result response) as [e|d].
      * split; [reflexivity|]. intros r Hr. now apply In_delete in Hr.
      * destruct (play_cache d (Some (SetIsPlayingDemoFalse inst)) (drop_request k w))
          as (Hc & Hpd & _).
        unfold the_studio. rewrite Hc, Hpd. split; [reflexivity|].
        intros r Hr. now apply In_delete in Hr.
    + unfold preview_settled.
      set (w1 := match generation_result response with
                 | inl _ => drop_request k w
                 | inr audioData =>
                     fst (playRawAudio run_callback audioData None (drop_request k w))
                 end).
      assert (H1 : app w1 = app (drop_request k w)).
      { subst w1. destruct (generation_result response) as [e|d]; [reflexivity|].
        destruct (play_app d None (drop_request k w)) as [H|(cb & Hcb & _)];
          [exact H | discriminate]. }
      unfold the_studio. rewrite H1. unfold the_studio in Hne. rewrite Hne, H1.
      split; [reflexivity|]. intros r Hr. now apply In_delete in Hr.
  - rewrite source_finishes_outcome. destruct (sources w !! i) as [x|]; [|split; [reflexivity|tauto]].
    destruct (src_state x); split; try reflexivity; tauto.
  - rewrite dispatch_ended_outcome. unfold after_dispatch.
    destruct (sources w !! i) as [x|]; [|split; [reflexivity|tauto]].
    destruct (src_ended x); try (split; [reflexivity|tauto]).
    unfold the_studio. cbn.
    destruct (fold_callbacks_frame (src_listeners x) (app w))
      as (Hpd & _ & _ & _ & Hc & _).
    rewrite Hc, Hpd. split; [reflexivity|tauto].
  - unfold context_suspends. destruct (audioContext w); split; try reflexivity; tauto.
Qed.

Lemma app_inv_step (w : World) (ev : Event) : app_inv w -> app_inv (step w ev).
Proof.
  intros [Hle Hed].
  destruct (is_app_event ev) eqn:Hev.
  - destruct ev as [target|s| | | | | | | | | | |]; try discriminate; cbn [step].
    + unfold set_mode. cbv zeta.
      destruct (mode (app w)) eqn:Hmode.
      * destruct (Hed eq_refl) as [Hc Hlt].
        destruct target.
        { split; [exact Hle | intros _; now split]. }
        split; unfold the_studio; cbn; [|intros H; discriminate H].
        intros r Hr. specialize (Hlt r Hr). unfold the_studio in Hlt. lia.
      * destruct target; [|split; [exact Hle | intros H; congruence]].
        set (w1 := match stopDemoRef (studio (app w)) with
                   | Some stop => fst (call_stop stop w)
                   | None => w
                   end).
        assert (H1 : app w1 = app w).
        { subst w1. destruct (stopDemoRef (studio (app w))); [apply call_stop_app|reflexivity]. }
        unfold the_studio. cbn. rewrite H1.
        assert (Hlt : forall r, In r (pending (app w)) ->
                                (request_instance r < S (instance (studio (app w))))%nat).
        { intros r Hr. specialize (Hle r Hr). unfold the_studio in Hle. lia. }
        split; unfold the_studio; cbn; [intros r Hr; specialize (Hlt r Hr); lia|].
        intros _. split; [reflexivity | exact Hlt].
    + destruct (in_practice w) eqn:Hp; [split; [exact Hle | exact Hed]|].
      apply in_practice_mode in Hp. destruct (Hed Hp) as [Hc Hlt].
      split; unfold the_studio; cbn; [exact Hle|]. intros _. now split.
  - destruct (frame_step w ev Hev) as (Hi & Hm & _ & Hpd).
    destruct (mode (app w)) eqn:Hmode.
    + destruct (Hed eq_refl) as [Hc Hlt].
      destruct (editor_step w ev Hmode Hlt Hev) as [Hc' Hsub].
      unfold app_inv, the_studio in *. rewrite Hi, Hc'. split.
      * intros r Hr. specialize (Hlt r (Hsub r Hr)). lia.
      * intros _. split; [exact Hc|].
        intros r Hr. apply Hlt. now apply Hsub.
    + unfold app_inv, the_studio in *. rewrite Hi, Hm. split.
      * intros r Hr. destruct (Hpd r Hr) as [H|H]; [now apply Hle | lia].
      * intros H; discriminate H.
Qed.

Lemma reachable_app_inv (w : World) : reachable w -> app_inv w.
Proof.
  induction 1 as [e|w ev Hr IH].
  - split; [intros r []|]. intros _. split; [reflexivity | intros r []].
  - now apply app_inv_step.
Qed.
End AppProps.

(** * Lemmas on the cache and on previews *)

Section StudioLemmas.

(** *** Facts used by several claims *)


Lemma preview_keeps_rendering (inst : nat) (outcome : Result string) (w : World) (i : nat) :
  source_rendering w i = true ->
  source_rendering (preview_settled inst outcome w) i = true.
Proof.
  unfold preview_settled, source_rendering. intros H.
  set (w1 := match outcome with
             | inl _ => w
             | inr audioData => fst (playRawAudio run_callback audioData None w)
             end).
  assert (H1 : sources w1 !! i = sources w !! i).
  { subst w1. destruct outcome as [e|d]; [reflexivity|].
    destruct (preview_play_effect w d) as (_ & extra & -> & _).
    destruct (sources w !! i) as [s|] eqn:E; [|discriminate].
    now apply lookup_app_l_Some. }
  destruct (inst =? instance (the_studio w1))%nat; cbn; now rewrite H1.
Qed.


Lemma cache_hit_plays (w : World) (d : string) :
  truthy (demoAudioData (the_studio w)) = Some d ->
  isPlayingDemo (the_studio w) = false \/ stopDemoRef (the_studio w) = None ->
  exists w2 stop,
    playRawAudio run_callback d (Some (demo_callback w))
                 (upd_studio (setIsPlayingDemo true) w) = (w2, inr stop)
    /\ handleGenerateAndPlayDemo w = upd_studio (set_stopDemoRef (Some stop)) w2.
Proof.
  intros Hd Hskip. unfold handleGenerateAndPlayDemo.
  rewrite (stop_demo_skip w Hskip), Hd.
  destruct (playRawAudio_total run_callback d (Some (demo_callback w))
              (upd_studio (setIsPlayingDemo true) w)) as (w2 & stop & Hplay).
  exists w2, stop. now rewrite Hplay.
Qed.


End StudioLemmas.

(** * The stop closure and a suspended context *)

Section StopAndResume.

Context {Cb U : Type}.
Variable run_cb : Cb -> U -> U.

Local Abbreviation Machine := (@Machine Cb U) (only parsing).

Lemma after_stop_idle (i : nat) (m : Machine) : source_rendering (after_stop i m) i = false.
Proof.
  unfold after_stop, source_rendering.
  destruct (sources m !! i) as [x|] eqn:E; [|now rewrite E].
  destruct (src_state x) eqn:Ex.
  - rewrite E. unfold is_rendering. now rewrite Ex.
  - cbn. now rewrite list_lookup_insert_eq by (eapply lookup_lt_Some; eassumption).
  - cbn. now rewrite list_lookup_insert_eq by (eapply lookup_lt_Some; eassumption).
Qed.


Lemma after_stop_frame (i : nat) (m : Machine) :
  invoked (after_stop i m) = invoked m /\ app (after_stop i m) = app m
  /\ console (after_stop i m) = console m.
Proof.
  unfold after_stop. destruct (sources m !! i) as [x|]; [|repeat split].
  destruct (src_state x); repeat split.
Qed.


Lemma finishes_idle (i : nat) (m : Machine) :
  source_rendering (source_finishes i m) i = false.
Proof.
  rewrite source_finishes_outcome. unfold source_rendering.
  destruct (sources m !! i) as [x|] eqn:E; [|now rewrite E].
  destruct (src_state x) eqn:Ex.
  - rewrite E. unfold is_rendering. now rewrite Ex.
  - cbn. now rewrite list_lookup_insert_eq by (eapply lookup_lt_Some; eassumption).
  - rewrite E. unfold is_rendering. now rewrite Ex.
Qed.

Lemma dispatch_rendering (i j : nat) (m : Machine) :
  source_rendering (dispatch_ended run_cb i m) j = source_rendering m j.
Proof.
  rewrite dispatch_ended_outcome. unfold after_dispatch, source_rendering.
  destruct (sources m !! i) as [x|] eqn:E; [|reflexivity].
  destruct (src_ended x); try reflexivity. cbn.
  destruct (decide (j = i)) as [->|Hne].
  - rewrite list_lookup_insert_eq by (eapply lookup_lt_Some; eassumption).
    now rewrite E.
  - now rewrite list_lookup_insert_ne by congruence.
Qed.


(** *** A suspended context *)

Lemma play_resume_failure (base64String : string) (onEnded : option Cb)
      (m : Machine) (e : JsError) :
  context_after_get m = ok Suspended ->
  env_resume (env m) = inl e ->
  playRawAudio run_cb base64String onEnded m
  = caught run_cb onEnded e (set_audioContext (Some Suspended) m).
Proof.
  intros Hc Hr. rewrite playRawAudio_outcome. unfold play_outcome.
  rewrite Hc. unfold ok. now rewrite Hr.
Qed.

Lemma play_resumed (base64String : string) (onEnded : option Cb) (m : Machine) (u0 : unit) :
  context_after_get m = ok Suspended ->
  env_resume (env m) = inr u0 ->
  audioContext (fst (playRawAudio run_cb base64String onEnded m)) = Some Running
  /\ (some_step_fails base64String m = false ->
      snd (playRawAudio run_cb base64String onEnded m)
      = inr (StopSource (length (sources m)))
      /\ source_rendering (fst (playRawAudio run_cb base64String onEnded m))
                          (length (sources m)) = true).
Proof.
  intros Hc Hr. rewrite playRawAudio_outcome. split.
  - unfold play_outcome. rewrite Hc. unfold ok. rewrite Hr.
    destruct (decode_samples base64String); [reflexivity|].
    destruct (env_createBufferSource (env m)); [reflexivity|].
    destruct (env_connect (env m)); [reflexivity|].
    destruct (env_start (env m)); reflexivity.
  - intros Hf.
    destruct (play_outcome_success run_cb base64String onEnded m Hf) as (b & _ & ->).
    split; [reflexivity|]. unfold source_rendering. cbn.
    now rewrite list_lookup_middle.
Qed.

End StopAndResume.

(** * The claims about the studio *)

Section StudioClaims.

Local Open Scope string_scope.

(** ** Playback sessions *)



(** Without the condition on the [ended] events two demo nodes can
    render: the demo is stopped and started again before the event of
    the stopped node is delivered; the late event clears
    [isPlayingDemo], and the next click starts a second node. *)
Lemma late_ended_event_overlap :
  let w := run (initial_world healthy_env)
               [ScriptChange "hello"; SetMode PRACTICE;
                GenerateAndPlayDemo; Settle 0 (inr "AAAAAAAA");
                GenerateAndPlayDemo; GenerateAndPlayDemo;
                DispatchEnded 0; GenerateAndPlayDemo] in
  demo_rendering_count w = 2%nat.
Proof. reflexivity. Qed.



(** ** The generation cache *)



(** ** Voice previews in flight *)

(** Counterexample to C7 as stated: a preview of Puck is requested and
    outstanding; a preview of Kore is requested; a second request for
    Puck is then accepted while the first is still outstanding, and the
    generation function is called again. *)
Lemma preview_same_voice_twice_in_flight :
  let kore := mkVoice "Kore" "Kore" "Kore (Female, Calm)" in
  let w := run (initial_world healthy_env)
               [ScriptChange "hello"; SetMode PRACTICE; ToggleVoiceDropdown;
                PreviewVoice default_voice; PreviewVoice kore] in
  let w' := step w (PreviewVoice default_voice) in
  outstanding_for "Puck" w = 1%nat
  /\ outstanding_for "Puck" w' = 2%nat
  /\ requested (app w') = (requested (app w) ++ [(previewText, "Puck")])%list.
Proof. repeat split; reflexivity. Qed.

(** C7, amended.  A voice-preview request for a voice is rejected
    exactly when [previewingVoiceId] is that voice, that is when the
    preview started last was for it and no preview has settled since:
    the rejected request calls nothing, changes nothing and raises
    nothing.  Any other request from the open dropdown is accepted: it
    calls the generation function and makes the voice the previewing
    one, so the same request repeated at once is rejected; and a preview
    that settles clears [previewingVoiceId]. *)
Theorem preview_single_flight :
  (forall w voice,
      previewingVoiceId (the_studio w) = Some (voice_id voice) ->
      step w (PreviewVoice voice) = w)
  /\ (forall w voice,
         in_practice w = true -> isVoiceDropdownOpen (the_studio w) = true ->
         is_voice_option voice = true ->
         previewingVoiceId (the_studio w) <> Some (voice_id voice) ->
         let w' := step w (PreviewVoice voice) in
         requested (app w') = (requested (app w) ++ [(previewText, voice_id voice)])%list
         /\ pending (app w')
            = (pending (app w)
               ++ [PreviewRequest (instance (the_studio w)) previewText
                                  (voice_id voice)])%list
         /\ previewingVoiceId (the_studio w') = Some (voice_id voice))
  /\ (forall w voice,
         step (step w (PreviewVoice voice)) (PreviewVoice voice)
         = step w (PreviewVoice voice))
  /\ (forall w k response text voiceName,
         pending (app w) !! k
         = Some (PreviewRequest (instance (the_studio w)) text voiceName) ->
         previewingVoiceId (the_studio (settle k response w)) = None).
Proof.
  assert (Hrej : forall w voice,
             previewingVoiceId (the_studio w) = Some (voice_id voice) ->
             step w (PreviewVoice voice) = w).
  { intros w voice H. cbn [step].
    destruct (in_practice w && isVoiceDropdownOpen (the_studio w) && is_voice_option voice);
      [|reflexivity].
    unfold handlePreviewVoice. now rewrite H, String.eqb_refl. }
  assert (Hacc : forall w voice,
             in_practice w = true -> isVoiceDropdownOpen (the_studio w) = true ->
             is_voice_option voice = true ->
             previewingVoiceId (the_studio w) <> Some (voice_id voice) ->
             step w (PreviewVoice voice)
             = send_request
                 (PreviewRequest (instance (the_studio w)) previewText (voice_id voice))
                 (upd_studio (setPreviewingVoiceId (Some (voice_id voice))) w)).
  { intros w voice Hp Ho Hv Hne. cbn [step]. rewrite Hp, Ho, Hv. cbn [andb].
    unfold handlePreviewVoice.
    destruct (previewingVoiceId (the_studio w)) as [id|]; [|reflexivity].
    destruct (String.eqb_spec id (voice_id voice)) as [->|]; [congruence | reflexivity]. }
  split; [exact Hrej|]. split; [|split].
  - intros w voice Hp Ho Hv Hne w'. subst w'. rewrite (Hacc w voice Hp Ho Hv Hne).
    repeat split.
  - intros w voice.
    destruct (in_practice w && isVoiceDropdownOpen (the_studio w) && is_voice_option voice)
      eqn:Hg.
    2:{ assert (Hno : step w (PreviewVoice voice) = w) by (cbn [step]; now rewrite Hg).
        now rewrite !Hno. }
    apply andb_true_iff in Hg as [Hg Hv]. apply andb_true_iff in Hg as [Hp Ho].
    assert (Hdec : previewingVoiceId (the_studio w) = Some (voice_id voice)
                   \/ previewingVoiceId (the_studio w) <> Some (voice_id voice)).
    { destruct (previewingVoiceId (the_studio w)) as [id|]; [|right; discriminate].
      destruct (String.eqb_spec id (voice_id voice)) as [->|Hne];
        [now left | right; congruence]. }
    destruct Hdec as [Heq|Hne].
    + now rewrite !(Hrej w voice Heq).
    + rewrite (Hacc w voice Hp Ho Hv Hne). now apply Hrej.
  - intros w k response text voiceName Hk. unfold settle. rewrite Hk.
    unfold preview_settled.
    set (w1 := match generation_result response with
               | inl _ => drop_request k w
               | inr audioData =>
                   fst (playRawAudio run_callback audioData None (drop_request k w))
               end).
    assert (H1 : app w1 = app (drop_request k w)).
    { subst w1. destruct (generation_result response) as [e|d]; [reflexivity|].
      destruct (play_app d None (drop_request k w)) as [H|(cb & Hcb & _)];
        [exact H | discriminate]. }
    unfold the_studio. rewrite H1. cbn. now rewrite Nat.eqb_refl.
Qed.

Lemma preview_single_flight_witness :
  let w := run (initial_world healthy_env)
               [ScriptChange "hello"; SetMode PRACTICE; ToggleVoiceDropdown;
                PreviewVoice default_voice] in
  step w (PreviewVoice default_voice) = w
  /\ requested (app w) = [(previewText, "Puck")].
Proof.
  destruct preview_single_flight as (Hrej & _).
  split; [apply Hrej; reflexivity | reflexivity].
Defined.

(** ** Stopping *)



(** ** A suspended context *)

(** Counterexample to C9 as stated: the context is suspended and its
    resumption is rejected; [playRawAudio] does not fail with
    [DeviceUnavailable], it returns the no-op stop function. *)
Lemma resume_failure_not_propagated :
  let count (_ : unit) (n : nat) := S n in
  let m := fresh_machine
             (mkEnv (ok Suspended) (throw DeviceUnavailable) (ok tt) (ok tt) (ok tt))
             0%nat in
  context_after_get m = ok Suspended
  /\ env_resume (env m) = throw DeviceUnavailable
  /\ snd (playRawAudio count "AAAAAAAA" (Some tt) m) = inr NoopStop
  /\ snd (playRawAudio count "AAAAAAAA" (Some tt) m) <> inl DeviceUnavailable.
Proof. repeat split; try reflexivity. discriminate. Qed.

(** C9, amended.  If the audio context is suspended, [playRawAudio]
    resumes it before it decodes and renders: when the resumption
    succeeds the context runs and, unless a later step fails, the new
    node renders.  When the resumption fails, the failure does not reach
    the caller: [playRawAudio] logs it, invokes [onEnded], creates no
    node, leaves the context suspended and returns the no-op stop
    function.  In the studio [isPlayingDemo] is then false again, the
    cached audio is kept and the next click on the demo button attempts
    the playback again. *)
Theorem suspended_context :
  (forall (Cb U : Type) (run_cb : Cb -> U -> U) base64String onEnded (m : @Machine Cb U),
      context_after_get m = ok Suspended ->
      (forall u0, env_resume (env m) = inr u0 ->
                  audioContext (fst (playRawAudio run_cb base64String onEnded m))
                  = Some Running
                  /\ (some_step_fails base64String m = false ->
                      snd (playRawAudio run_cb base64String onEnded m)
                      = inr (StopSource (length (sources m)))
                      /\ source_rendering
                           (fst (playRawAudio run_cb base64String onEnded m))
                           (length (sources m)) = true))
      /\ (forall e, env_resume (env m) = inl e ->
                    playRawAudio run_cb base64String onEnded m
                    = caught run_cb onEnded e (set_audioContext (Some Suspended) m)))
  /\ (forall (w : World) d e,
         truthy (demoAudioData (the_studio w)) = Some d ->
         isPlayingDemo (the_studio w) = false ->
         context_after_get w = ok Suspended ->
         env_resume (env w) = inl e ->
         let w' := handleGenerateAndPlayDemo w in
         isPlayingDemo (the_studio w') = false
         /\ stopDemoRef (the_studio w') = Some NoopStop
         /\ sources w' = sources w
         /\ audioContext w' = Some Suspended
         /\ console w' = (console w ++ [e])%list
         /\ truthy (demoAudioData (the_studio w')) = Some d
         /\ forall env',
              exists w2 stop,
                playRawAudio run_callback d (Some (demo_callback w'))
                  (upd_studio (setIsPlayingDemo true) (set_env env' w')) = (w2, inr stop)
                /\ handleGenerateAndPlayDemo (set_env env' w')
                   = upd_studio (set_stopDemoRef (Some stop)) w2).
Proof.
  split.
  - intros Cb U run_cb base64String onEnded m Hc. split.
    + intros u0 Hr. now apply (play_resumed run_cb _ _ _ u0).
    + intros e Hr. now apply play_resume_failure.
  - intros w d e Hd Hf Hc Hr w'.
    assert (Hw' : w' = upd_studio (set_stopDemoRef (Some NoopStop))
                         (fst (caught run_callback (Some (demo_callback w)) e
                                 (set_audioContext (Some Suspended)
                                    (upd_studio (setIsPlayingDemo true) w))))).
    { subst w'. unfold handleGenerateAndPlayDemo.
      rewrite (stop_demo_skip w) by now left. rewrite Hd.
      now rewrite (play_resume_failure run_callback d (Some (demo_callback w))
                     (upd_studio (setIsPlayingDemo true) w) e Hc Hr). }
    assert (Hflag : isPlayingDemo (the_studio w') = false).
    { rewrite Hw'. unfold the_studio, demo_callback, the_studio. cbn.
      now rewrite Nat.eqb_refl. }
    assert (Hcache : demoAudioData (the_studio w') = demoAudioData (the_studio w)).
    { rewrite Hw'. unfold the_studio, demo_callback, the_studio. cbn.
      now rewrite Nat.eqb_refl. }
    split; [exact Hflag|].
    split; [now rewrite Hw'|].
    split; [now rewrite Hw'|].
    split; [now rewrite Hw'|].
    split; [now rewrite Hw'|].
    split; [now rewrite Hcache|].
    clearbody w'. intros env'.
    change (demo_callback w') with (demo_callback (set_env env' w')).
    apply cache_hit_plays.
    + change (the_studio (set_env env' w')) with (the_studio w'). now rewrite Hcache.
    + left. exact Hflag.
Qed.

Lemma suspended_context_witness :
  let broken := mkEnv (ok Suspended) (throw DeviceUnavailable) (ok tt) (ok tt) (ok tt) in
  let w := run (initial_world healthy_env)
               [ScriptChange "hello"; SetMode PRACTICE;
                GenerateAndPlayDemo; Settle 0 (inr "AAAAAAAA"); SourceFinishes 0;
                DispatchEnded 0; ContextSuspends; EnvChanges broken] in
  let w' := handleGenerateAndPlayDemo w in
  isPlayingDemo (the_studio w') = false
  /\ console w' = [DeviceUnavailable]
  /\ rendering_count (handleGenerateAndPlayDemo (set_env healthy_env w')) = 1%nat.
Proof.
  intros broken w w'.
  destruct suspended_context as (_ & Hstudio).
  destruct (Hstudio w "AAAAAAAA" DeviceUnavailable eq_refl eq_refl eq_refl eq_refl)
    as (Hflag & _ & _ & _ & Hcon & _).
  split; [exact Hflag|]. split; [exact Hcon | reflexivity].
Defined.

End StudioClaims.

(** * Properties of the text helpers *)

Section TextProps.

Local Open Scope string_scope.

Lemma has_char_cons (c x : ascii) (s : string) :
  has_char c (String x s) = Ascii.eqb c x || has_char c s.
Proof. reflexivity. Qed.

Lemma has_char_app (c : ascii) (a b : string) :
  has_char c (a ++ b) = has_char c a || has_char c b.
Proof.
  induction a as [|x a IH]; [reflexivity|].
  cbn [append]. rewrite !has_char_cons, IH. now rewrite orb_assoc.
Qed.

Lemma string_app_assoc (a b c : string) : (a ++ b) ++ c = a ++ (b ++ c).
Proof. induction a as [|x a IH]; [reflexivity|]. cbn [append]. now rewrite IH. Qed.

Lemma split_on_whole (sep : ascii) (s : string) :
  has_char sep s = false -> split_on sep s = [s].
Proof.
  induction s as [|x s IH]; [reflexivity|].
  rewrite has_char_cons. intros H. apply orb_false_elim in H as [Hx Hs].
  cbn [split_on]. rewrite Ascii.eqb_sym, Hx, (IH Hs). reflexivity.
Qed.

Lemma split_on_app (sep : ascii) (a b : string) :
  has_char sep a = false ->
  split_on sep (a ++ String sep b) = a :: split_on sep b.
Proof.
  induction a as [|x a IH]; intros H.
  - cbn [append split_on]. now rewrite Ascii.eqb_refl.
  - rewrite has_char_cons in H. apply orb_false_elim in H as [Hx Hs].
    cbn [append split_on]. rewrite Ascii.eqb_sym, Hx, (IH Hs). reflexivity.
Qed.

Lemma remove_first_last (c : ascii) (a : string) :
  has_char c a = false -> remove_first c (a ++ String c EmptyString) = a.
Proof.
  induction a as [|x a IH]; intros H.
  - cbn. now rewrite Ascii.eqb_refl.
  - rewrite has_char_cons in H. apply orb_false_elim in H as [Hx Hs].
    cbn [append remove_first]. rewrite Ascii.eqb_sym, Hx, (IH Hs). reflexivity.
Qed.

Lemma remove_first_absent (c : ascii) (a : string) :
  has_char c a = false -> remove_first c a = a.
Proof.
  induction a as [|x a IH]; intros H; [reflexivity|].
  rewrite has_char_cons in H. apply orb_false_elim in H as [Hx Hs].
  cbn [remove_first]. rewrite Ascii.eqb_sym, Hx, (IH Hs). reflexivity.
Qed.






End TextProps.

Section TextClaims.

Local Open Scope string_scope.

(** X1.  The description shown for a voice in the dropdown,
    [voice.label.split('(')[1].replace(')', '')]: for a label of the
    form [name(desc)], with no parenthesis inside [name] and [desc], it is
    [desc]; for a label without an opening parenthesis the expression
    throws; and each of the five voice options has a label [name (desc)],
    so rendering the dropdown does not throw and shows [desc]. *)
Theorem voice_description_shown :
  (forall name desc,
      has_char "(" name = false -> has_char "(" desc = false ->
      has_char ")" desc = false ->
      voice_description (name ++ "(" ++ desc ++ ")") = Some desc)
  /\ (forall label, has_char "(" label = false -> voice_description label = None)
  /\ (forall voice,
         In voice VOICE_OPTIONS ->
         exists desc,
           voice_description (voice_label voice) = Some desc
           /\ voice_label voice = voice_name voice ++ " (" ++ desc ++ ")").
Proof.
  split; [|split].
  - intros name desc Hn Hd Hc. unfold voice_description.
    change (name ++ "(" ++ desc ++ ")") with (name ++ String "(" (desc ++ ")")).
    rewrite (split_on_app "(" name _ Hn).
    rewrite split_on_whole by (rewrite has_char_app, Hd; reflexivity).
    cbn [lookup list_lookup]. f_equal. now apply remove_first_last.
  - intros label H. unfold voice_description. now rewrite (split_on_whole _ _ H).
  - intros voice Hin. cbn in Hin.
    destruct Hin as [<-|[<-|[<-|[<-|[<-|[]]]]]]; eexists; split; reflexivity.
Qed.

Lemma voice_description_shown_witness :
  voice_description "Kore (Female, Calm)" = Some "Female, Calm"
  /\ voice_description "Kore" = None.
Proof.
  destruct voice_description_shown as (Hshape & Hnone & _).
  split.
  - apply (Hshape "Kore " "Female, Calm"); reflexivity.
  - apply Hnone. reflexivity.
Defined.



End TextClaims.

(** * Further properties of the WAV encoder and of the sample decoder *)

Section SampleProps.

Lemma int16_elements_range (data : list byte) :
  Forall (fun v => -32768 <= v < 32768) (int16_elements data).
Proof.
  remember (length data) as n eqn:Hn.
  revert data Hn. induction n as [n IH] using lt_wf_ind. intros data Hn.
  destruct data as [|lo [|hi r]]; subst; try constructor.
  - apply to_int16_range.
  - apply (IH (length r)); [cbn [length]; lia | reflexivity].
Qed.

Lemma pcm16_to_float_range (v : Z) :
  -32768 <= v < 32768 -> (-1 <= pcm16_to_float v)%Q /\ (pcm16_to_float v < 1)%Q.
Proof.
  intros Hv. unfold pcm16_to_float, Qle, Qlt. cbn. lia.
Qed.

Lemma pcm16_to_float_inj (v v' : Z) :
  (pcm16_to_float v == pcm16_to_float v')%Q -> v = v'.
Proof. unfold pcm16_to_float, Qeq. cbn. lia. Qed.

Lemma byte_val_inj (a b : byte) : byte_val a = byte_val b -> a = b.
Proof.
  unfold byte_val. intros H. apply N2Z.inj in H.
  pose proof (Byte.of_to_N a) as Ea. pose proof (Byte.of_to_N b) as Eb.
  rewrite H, Eb in Ea. now inversion Ea.
Qed.

Lemma to_int16_inj (lo hi lo' hi' : byte) :
  to_int16 (byte_val lo + 256 * byte_val hi) = to_int16 (byte_val lo' + 256 * byte_val hi') ->
  lo = lo' /\ hi = hi'.
Proof.
  pose proof (byte_val_range lo). pose proof (byte_val_range hi).
  pose proof (byte_val_range lo'). pose proof (byte_val_range hi').
  unfold to_int16. intros E.
  destruct (Z.ltb_spec (byte_val lo + 256 * byte_val hi) 32768);
    destruct (Z.ltb_spec (byte_val lo' + 256 * byte_val hi') 32768);
    split; apply byte_val_inj; lia.
Qed.

Lemma int16_elements_inj (a b : list byte) :
  Nat.even (length a) = true -> Nat.even (length b) = true ->
  int16_elements a = int16_elements b -> a = b.
Proof.
  remember (length a) as n eqn:Hn.
  revert a b Hn. induction n as [n IH] using lt_wf_ind. intros a b Hn Ha Hb E.
  destruct a as [|lo [|hi r]]; destruct b as [|lo' [|hi' r']];
    subst; try reflexivity; try discriminate.
  cbn [int16_elements] in E. inversion E as [[E1 E2]].
  apply to_int16_inj in E1 as [-> ->]. do 2 f_equal.
  apply (IH (length r)); [cbn [length]; lia | reflexivity | exact Ha | exact Hb | exact E2].
Qed.

(** A successful decode, unfolded. *)
Lemma decode_samples_ok (base64 : string) (buffer : AudioBuffer) :
  decode_samples base64 = ok buffer ->
  exists binaryString,
    atob base64 = ok binaryString
    /\ Nat.even (String.length binaryString) = true
    /\ binaryString <> EmptyString
    /\ buffer = mkAudioBuffer 1 (String.length binaryString / 2) 24000
                  [map pcm16_to_float (int16_elements (ascii_bytes binaryString))].
Proof.
  unfold decode_samples. intros H.
  destruct (atob base64) as [e|bin] eqn:Hatob.
  { unfold decode in H. rewrite Hatob in H. discriminate H. }
  rewrite (decode_eq _ _ Hatob) in H. cbn [rbind ok] in H.
  exists bin. split; [reflexivity|].
  destruct (Nat.even (String.length bin)) eqn:Heven.
  - destruct bin as [|c r].
    + discriminate H.
    + split; [reflexivity|]. split; [discriminate|].
      rewrite decodePCM16_mono in H.
      * rewrite ascii_bytes_length in H. now inversion H.
      * now rewrite ascii_bytes_length.
      * discriminate.
      * reflexivity.
  - rewrite decodePCM16_odd in H; [discriminate H|].
    rewrite ascii_bytes_length, <- Nat.negb_even, Heven. reflexivity.
Qed.

Lemma length_ascii_even (s : string) :
  Nat.even (String.length s) = true ->
  (2 * (String.length s / 2) = String.length s)%nat.
Proof.
  intros H. apply Nat.even_spec in H as [k Hk]. rewrite Hk.
  rewrite (Nat.mul_comm 2 k), Nat.div_mul by lia. lia.
Qed.

End SampleProps.

Section SampleClaims.

(** X3.  Whenever the decoder of [playRawAudio] yields a buffer, the
    buffer has one channel at 24000 Hz with at least one frame, one frame
    for every two bytes of the decoded payload, and every sample [s]
    satisfies [-1 <= s < 1]. *)
Theorem decoded_samples_in_range (base64 : string) (buffer : AudioBuffer) :
  decode_samples base64 = ok buffer ->
  numberOfChannels buffer = 1%nat
  /\ buffer_sampleRate buffer = 24000
  /\ (0 < frame_count buffer)%nat
  /\ (exists bytes, decode base64 = ok bytes
                    /\ length bytes = (2 * frame_count buffer)%nat)
  /\ exists samples,
       channels buffer = [samples]
       /\ length samples = frame_count buffer
       /\ Forall (fun s => (-1 <= s)%Q /\ (s < 1)%Q) samples.
Proof.
  intros H. destruct (decode_samples_ok _ _ H) as (bin & Hatob & Heven & Hne & ->).
  cbn [numberOfChannels buffer_sampleRate frame_count channels].
  split; [reflexivity|]. split; [reflexivity|]. split.
  { pose proof (length_ascii_even _ Heven). destruct bin as [|c [|c' r]]; try congruence.
    - discriminate Heven.
    - cbn [String.length]. rewrite div2_SS. lia. }
  split.
  { exists (ascii_bytes bin). split; [now apply decode_eq|].
    rewrite ascii_bytes_length. symmetry. now apply length_ascii_even. }
  eexists. split; [reflexivity|]. split.
  - now rewrite length_map, int16_elements_length, ascii_bytes_length.
  - apply Forall_map. eapply Forall_impl; [apply int16_elements_range|].
    intros v Hv. now apply pcm16_to_float_range.
Qed.

Lemma decoded_samples_in_range_witness :
  exists buffer samples,
    decode_samples "/38AgAEA" = ok buffer
    /\ channels buffer = [samples]
    /\ Forall (fun s => (-1 <= s)%Q /\ (s < 1)%Q) samples.
Proof.
  eexists.
  destruct (decoded_samples_in_range "/38AgAEA" _ eq_refl)
    as (_ & _ & _ & _ & samples & Hc & _ & Hr).
  exists samples. split; [reflexivity|]. split; [exact Hc | exact Hr].
Defined.

(** X4.  The conversion of 16-bit PCM to floating-point samples loses
    nothing: two payloads that [decodePCM16] turns into buffers with equal
    samples are the same byte sequence. *)
Theorem decodePCM16_lossless (a b : list byte) (sampleRate : Z)
    (bufferA bufferB : AudioBuffer) :
  decodePCM16 a sampleRate 1 = ok bufferA ->
  decodePCM16 b sampleRate 1 = ok bufferB ->
  Forall2 (Forall2 Qeq) (channels bufferA) (channels bufferB) ->
  a = b.
Proof.
  intros Ha Hb Heq.
  assert (Hshape : forall data buffer,
             decodePCM16 data sampleRate 1 = ok buffer ->
             Nat.even (length data) = true
             /\ channels buffer = [map pcm16_to_float (int16_elements data)]).
  { intros data buffer H.
    destruct (Nat.even (length data)) eqn:Heven.
    - split; [reflexivity|].
      destruct (decide (data = [])) as [->|Hne]; [discriminate H|].
      destruct (Z.ltb_spec 0 sampleRate) as [Hsr|Hsr].
      + rewrite decodePCM16_mono in H by assumption. now inversion H.
      + unfold decodePCM16, Int16Array_of, createBuffer in H. rewrite Heven in H.
        cbn [rbind ok] in H. apply Z.leb_le in Hsr. rewrite Hsr, orb_true_r in H.
        discriminate H.
    - rewrite decodePCM16_odd in H; [discriminate H|].
      now rewrite <- Nat.negb_even, Heven. }
  destruct (Hshape _ _ Ha) as [Ea Ca]. destruct (Hshape _ _ Hb) as [Eb Cb].
  rewrite Ca, Cb in Heq. apply Forall2_cons_1 in Heq as [Heq _].
  apply int16_elements_inj; [exact Ea | exact Eb|].
  revert Heq. generalize (int16_elements a) (int16_elements b).
  intros l. induction l as [|v l IH]; intros [|v' l'] Heq; cbn [map] in Heq;
    try reflexivity; try (inversion Heq; fail).
  apply Forall2_cons_1 in Heq as [Hv Hl].
  f_equal; [now apply pcm16_to_float_inj | now apply IH].
Qed.

Lemma decodePCM16_lossless_witness :
  let buffer := mkAudioBuffer 1 1 24000 [[pcm16_to_float (-32767)]] in
  decodePCM16 ["001"; "128"]%byte 24000 1 = ok buffer
  /\ Forall2 (Forall2 Qeq) (channels buffer) (channels buffer)
  /\ ["001"; "128"]%byte = ["001"; "128"]%byte.
Proof.
  intros buffer.
  assert (Heq : Forall2 (Forall2 Qeq) (channels buffer) (channels buffer))
    by (repeat constructor).
  split; [reflexivity|]. split; [exact Heq|].
  exact (decodePCM16_lossless ["001"; "128"]%byte ["001"; "128"]%byte 24000
           buffer buffer eq_refl eq_refl Heq).
Defined.

End SampleClaims.

(** * [decodePCM16] with several channels *)

Section Channels.



End Channels.

Section ChannelClaims.



End ChannelClaims.

(** * [writeString] in general *)

Section WriteString.

Lemma setUint8_ok (view : list byte) (offset : nat) (c : ascii) :
  (offset < length view)%nat ->
  setUint8 view offset (Z.of_N (N_of_ascii c)) = ok (<[offset := byte_of_ascii c]> view).
Proof.
  intros H. unfold setUint8.
  destruct (Nat.leb_spec (offset + 1) (length view)) as [_|E]; [|lia].
  now rewrite u8_char.
Qed.

Lemma setUint8_out (view : list byte) (offset : nat) (v : Z) :
  (length view <= offset)%nat -> setUint8 view offset v = throw OutOfBounds.
Proof.
  intros H. unfold setUint8.
  destruct (Nat.leb_spec (offset + 1) (length view)) as [E|_]; [lia | reflexivity].
Qed.

Lemma writeString_fits (s : string) (view : list byte) (offset : nat) :
  (offset + String.length s <= length view)%nat ->
  writeString view offset s
  = ok (take offset view ++ ascii_bytes s ++ drop (offset + String.length s) view).
Proof.
  revert view offset. induction s as [|c r IH]; intros view offset H.
  - cbn [writeString String.length ascii_bytes list_ascii_of_string map app].
    now rewrite Nat.add_0_r, app_nil_l, take_drop.
  - cbn [String.length] in H. cbn [writeString].
    rewrite setUint8_ok by lia. cbn [rbind ok].
    rewrite IH by (rewrite length_insert; cbn [String.length]; lia).
    f_equal. cbn [String.length].
    assert (Hl : (<[offset := byte_of_ascii c]> view) !! offset = Some (byte_of_ascii c))
      by (apply list_lookup_insert_eq; lia).
    rewrite (take_S_r _ _ _ Hl), take_insert_ge by lia.
    rewrite drop_insert_lt by lia.
    unfold ascii_bytes. cbn [list_ascii_of_string map].
    rewrite <- app_assoc. cbn [app].
    replace (S offset + String.length r)%nat with (offset + S (String.length r))%nat by lia.
    reflexivity.
Qed.

Lemma writeString_overflows (s : string) (view : list byte) (offset : nat) :
  s <> EmptyString ->
  (length view < offset + String.length s)%nat ->
  writeString view offset s = throw OutOfBounds.
Proof.
  revert view offset. induction s as [|c r IH]; intros view offset Hne H; [congruence|].
  cbn [writeString]. cbn [String.length] in H.
  destruct (Nat.le_gt_cases (length view) offset) as [Hout|Hin].
  - now rewrite setUint8_out.
  - rewrite setUint8_ok by lia. cbn [rbind ok].
    apply IH.
    + intros ->. cbn in H. lia.
    + rewrite length_insert. lia.
Qed.

(** X9.  [writeString] copies the characters of a string into a view,
    one byte each, from an offset on.  When the string fits, the view
    afterwards holds the bytes of the string at the offset and is
    unchanged before and after them, and its length is as before; the
    empty string writes nothing, whatever the offset; and a string that
    is not empty and does not fit makes [setUint8] throw. *)
Theorem writeString_writes (view : list byte) (offset : nat) (s : string) :
  ((offset + String.length s <= length view)%nat ->
   exists view',
     writeString view offset s = ok view'
     /\ view' = take offset view ++ ascii_bytes s ++ drop (offset + String.length s) view
     /\ length view' = length view
     /\ wav_field offset (String.length s) view' = ascii_bytes s)
  /\ (s = EmptyString -> writeString view offset s = ok view)
  /\ (s <> EmptyString -> (length view < offset + String.length s)%nat ->
      writeString view offset s = throw OutOfBounds).
Proof.
  split; [|split].
  - intros H. eexists. split; [now apply writeString_fits|]. split; [reflexivity|].
    split.
    + rewrite !length_app, length_take, length_drop, ascii_bytes_length. lia.
    + unfold wav_field.
      rewrite drop_app_length' by (rewrite length_take; lia).
      rewrite take_app_length' by (symmetry; apply ascii_bytes_length). reflexivity.
  - intros ->. reflexivity.
  - apply writeString_overflows.
Qed.

End WriteString.

Lemma writeString_writes_witness :
  writeString (replicate 6 "000"%byte) 1 "RIFF"
  = ok ["000"; "082"; "073"; "070"; "070"; "000"]%byte.
Proof.
  destruct (writeString_writes (replicate 6 "000"%byte) 1 "RIFF") as (H & _).
  destruct H as (view' & Hw & -> & _); [cbn; lia|].
  exact Hw.
Defined.

Section DownloadClaims.

Local Open Scope string_scope.

(** X5.  [handleDownload] offers what the demo button plays.  Without
    cached audio it does nothing; with cached audio that is not base64 the
    exception of [atob] leaves the handler; otherwise the file is the WAV
    header for 24000 Hz followed by the bytes [decode] yields for the same
    text.  When the cached audio is playable, the header declares the
    rate and the channel count of the buffer that is played, the file
    holds two bytes per frame, and the samples that are played are the
    16-bit values of the payload divided by 32768. *)
Theorem download_matches_playback :
  (forall iso, handleDownload None iso = ok None
               /\ handleDownload (Some "") iso = ok None)
  /\ (forall d iso e,
         d <> "" -> decode d = throw e -> handleDownload (Some d) iso = throw e)
  /\ (forall d iso bytes,
         d <> "" -> decode d = ok bytes ->
         handleDownload (Some d) iso
         = ok (Some (mkDownload
                       ("ai_voice_" ++ download_timestamp iso ++ ".wav")
                       (mkBlob (wav_header (Z.of_nat (length bytes)) 24000 ++ bytes)
                               "audio/wav"))))
  /\ (forall d iso buffer,
         decode_samples d = ok buffer ->
         exists file,
           handleDownload (Some d) iso
           = ok (Some (mkDownload
                         ("ai_voice_" ++ download_timestamp iso ++ ".wav")
                         (mkBlob file "audio/wav")))
           /\ length file = (44 + 2 * frame_count buffer)%nat
           /\ channels buffer = [map pcm16_to_float (int16_elements (drop 44 file))]
           /\ le_value (wav_field 24 4 file) = buffer_sampleRate buffer
           /\ le_value (wav_field 22 2 file) = Z.of_nat (numberOfChannels buffer)
           /\ le_value (wav_field 34 2 file) = 16).
Proof.
  assert (Hdec : forall d, decode d
                           = match atob d with
                             | inl e => inl e
                             | inr bin => ok (ascii_bytes bin)
                             end).
  { intros d. unfold decode. destruct (atob d); [reflexivity|].
    cbn [rbind ok]. now rewrite uint8_of_binary_spec. }
  assert (Hsome : forall d iso bin,
             d <> "" -> atob d = ok bin ->
             handleDownload (Some d) iso
             = ok (Some (mkDownload
                           ("ai_voice_" ++ download_timestamp iso ++ ".wav")
                           (mkBlob (wav_header (Z.of_nat (length (ascii_bytes bin))) 24000
                                    ++ ascii_bytes bin) "audio/wav")))).
  { intros d iso bin Hd Hatob. unfold handleDownload.
    destruct d as [|c r]; [congruence|]. cbn [truthy].
    rewrite (base64ToWavBlob_eq _ _ _ Hatob). cbn [rbind ok].
    now rewrite ascii_bytes_length. }
  split; [|split; [|split]].
  - intros iso. split; reflexivity.
  - intros d iso e Hd H. rewrite Hdec in H. unfold handleDownload, base64ToWavBlob.
    destruct d as [|c r]; [congruence|]. cbn [truthy].
    destruct (atob (String c r)); [|discriminate H]. now inversion H.
  - intros d iso bytes Hd H. rewrite Hdec in H.
    destruct (atob d) as [|bin] eqn:Hatob; [discriminate H|].
    inversion H; subst bytes. now apply Hsome.
  - intros d iso buffer H.
    destruct (decode_samples_ok _ _ H) as (bin & Hatob & Heven & Hne & ->).
    assert (Hd : d <> "") by (intros ->; cbn in Hatob; inversion Hatob; congruence).
    eexists. split; [apply (Hsome d iso bin Hd Hatob)|].
    cbn [frame_count channels buffer_sampleRate numberOfChannels].
    split.
    { rewrite length_app, wav_header_length, ascii_bytes_length.
      now rewrite length_ascii_even. }
    split; [now rewrite drop_header|].
    split; [|split].
    + change (wav_field 24 4 _) with (le32 24000). now rewrite le32_value.
    + change (wav_field 22 2 _) with (le16 1). now rewrite le16_value.
    + change (wav_field 34 2 _) with (le16 16). now rewrite le16_value.
Qed.

Lemma download_matches_playback_witness :
  exists file,
    handleDownload (Some "/38AgAEA") "2026-11-02T09:05:59.123Z"
    = ok (Some (mkDownload "ai_voice_20261102090559.wav" (mkBlob file "audio/wav")))
    /\ length file = 50%nat
    /\ drop 44 file = ["255"; "127"; "000"; "128"; "001"; "000"]%byte.
Proof.
  destruct download_matches_playback as (_ & _ & Hfile & _).
  eexists. split; [|split].
  - apply (Hfile "/38AgAEA" "2026-11-02T09:05:59.123Z"
             ["255"; "127"; "000"; "128"; "001"; "000"]%byte); [discriminate | reflexivity].
  - reflexivity.
  - reflexivity.
Defined.

(** X6.  The header [wav_encode] writes describes the file it is part of.
    For a payload shorter than 2^32 - 36 bytes and a sample rate from 0 to
    2^31 - 1, the fields read back from the file satisfy: ChunkSize is the
    file length minus 8, Subchunk2Size the file length minus 44,
    SampleRate the rate given, BlockAlign is NumChannels * BitsPerSample /
    8 and ByteRate is SampleRate * BlockAlign.  No alignment is checked:
    the data size is a multiple of BlockAlign exactly when the payload
    has even length. *)
Theorem wav_header_consistent (bytes : list byte) (sampleRate : Z) :
  Z.of_nat (length bytes) + 36 < 4294967296 ->
  0 <= sampleRate < 2147483648 ->
  exists file,
    wav_encode bytes sampleRate = ok file
    /\ le_value (wav_field 4 4 file) = Z.of_nat (length file) - 8
    /\ le_value (wav_field 40 4 file) = Z.of_nat (length file) - 44
    /\ le_value (wav_field 24 4 file) = sampleRate
    /\ le_value (wav_field 32 2 file)
       = le_value (wav_field 22 2 file) * le_value (wav_field 34 2 file) / 8
    /\ le_value (wav_field 28 4 file)
       = le_value (wav_field 24 4 file) * le_value (wav_field 32 2 file)
    /\ (le_value (wav_field 40 4 file) mod le_value (wav_field 32 2 file) = 0
        <-> Nat.even (length bytes) = true).
Proof.
  intros Hlen Hrate.
  exists (wav_header (Z.of_nat (length bytes)) sampleRate ++ bytes)%list.
  split; [apply wav_encode_eq|].
  rewrite length_app, wav_header_length.
  change (wav_field 4 4 _) with (le32 (36 + Z.of_nat (length bytes))).
  change (wav_field 40 4 _) with (le32 (Z.of_nat (length bytes))).
  change (wav_field 24 4 _) with (le32 sampleRate).
  change (wav_field 28 4 _) with (le32 (sampleRate * 2)).
  change (wav_field 32 2 _) with (le16 2).
  change (wav_field 22 2 _) with (le16 1).
  change (wav_field 34 2 _) with (le16 16).
  rewrite !le32_value, !le16_value.
  rewrite !Z.mod_small by lia.
  repeat split; try lia; try reflexivity.
  - intros H. apply Nat.even_spec.
    exists (Z.to_nat (Z.of_nat (length bytes) / 2)).
    apply Z.mod_divide in H; [|lia]. destruct H as [k Hk].
    rewrite Hk, Z.div_mul by lia. lia.
  - intros H. apply Nat.even_spec in H as [k Hk]. rewrite Hk.
    rewrite Nat2Z.inj_mul, Z.mul_comm. now apply Z.mod_mul.
Qed.

Lemma wav_header_consistent_witness :
  exists file,
    wav_encode ["001"; "128"; "255"; "127"]%byte 24000 = ok file
    /\ le_value (wav_field 4 4 file) = 40
    /\ le_value (wav_field 28 4 file) = 48000.
Proof.
  destruct (wav_header_consistent ["001"; "128"; "255"; "127"]%byte 24000)
    as (file & Hfile & Hchunk & _ & Hrate & _ & Hbyte & _); [cbn; lia | lia |].
  exists file. split; [exact Hfile|].
  assert (file = (wav_header 4 24000 ++ ["001"; "128"; "255"; "127"]%byte)%list) as ->
    by (rewrite wav_encode_eq in Hfile; now inversion Hfile).
  split; reflexivity.
Defined.

End DownloadClaims.

(** * Base64: the encoder of the data URL against [atob] *)

Section Base64Props.

Lemma list_ind3 {A} (P : list A -> Prop) :
  P [] -> (forall a, P [a]) -> (forall a b, P [a; b]) ->
  (forall a b c r, P r -> P (a :: b :: c :: r)) ->
  forall l, P l.
Proof.
  intros H0 H1 H2 H3 l.
  remember (length l) as n eqn:Hn.
  revert l Hn. induction n as [n IH] using lt_wf_ind. intros l Hn.
  destruct l as [|a [|b [|c r]]]; auto.
  apply H3. apply (IH (length r)); [subst; cbn [length]; lia | reflexivity].
Qed.

Lemma base64_encode_split (bytes : list byte) :
  base64_encode bytes = map base64_char (base64_sextets bytes) ++ base64_padding bytes.
Proof.
  induction bytes as [|a|a b|a b c r IH] using list_ind3; try reflexivity.
  cbn [base64_encode base64_sextets base64_padding map app]. now rewrite IH.
Qed.

Lemma base64_sextets_range (bytes : list byte) :
  Forall (fun v => 0 <= v < 64) (base64_sextets bytes).
Proof.
  induction bytes as [|a|a b|a b c r IH] using list_ind3; cbn [base64_sextets];
    repeat (apply Forall_cons; split);
    try apply Forall_nil; try exact IH;
    try (pose proof (byte_val_range a));
    try (pose proof (byte_val_range b));
    try (pose proof (byte_val_range c));
    Z.to_euclidean_division_equations; lia.
Qed.

Lemma base64_char_value (v : Z) :
  0 <= v < 64 ->
  base64_value (base64_char v) = Some v
  /\ is_ascii_whitespace (base64_char v) = false
  /\ Ascii.eqb (base64_char v) "=" = false
  /\ Ascii.eqb "," (base64_char v) = false.
Proof.
  intros Hv. rewrite <- (Z2Nat.id v) by lia.
  assert (Hk : (Z.to_nat v < 64)%nat) by lia.
  revert Hk. generalize (Z.to_nat v). clear. intros k Hk.
  do 64 (destruct k as [|k]; [repeat split; vm_compute; reflexivity|]). lia.
Qed.

Lemma base64_values_chars (l : list Z) :
  Forall (fun v => 0 <= v < 64) l -> base64_values (map base64_char l) = Some l.
Proof.
  induction 1 as [|v l Hv _ IH]; [reflexivity|].
  cbn [map base64_values]. rewrite IH.
  destruct (base64_char_value v Hv) as [-> _]. reflexivity.
Qed.

Lemma u8_of_byte (v : Z) (a : byte) : v mod 256 = byte_val a -> u8 v = a.
Proof. intros H. apply byte_val_inj. now rewrite u8_val. Qed.

Lemma base64_groups_sextets (bytes : list byte) :
  base64_groups (base64_sextets bytes) = map ascii_of_byte bytes.
Proof.
  induction bytes as [|a|a b|a b c r IH] using list_ind3;
    cbn [base64_sextets base64_groups map]; try reflexivity;
    try (pose proof (byte_val_range a));
    try (pose proof (byte_val_range b));
    try (pose proof (byte_val_range c)).
  - f_equal. f_equal. apply u8_of_byte. Z.to_euclidean_division_equations; lia.
  - f_equal; [|f_equal]; f_equal; apply u8_of_byte;
      Z.to_euclidean_division_equations; lia.
  - rewrite IH. f_equal; [|f_equal; [|f_equal]]; f_equal; apply u8_of_byte;
      Z.to_euclidean_division_equations; lia.
Qed.

Lemma base64_sextets_length (bytes : list byte) :
  exists k, length (base64_sextets bytes) = (k * 4)%nat
            \/ length (base64_sextets bytes) = (2 + k * 4)%nat
            \/ length (base64_sextets bytes) = (3 + k * 4)%nat.
Proof.
  induction bytes as [|a|a b|a b c r IH] using list_ind3.
  - exists 0%nat. now left.
  - exists 0%nat. right. now left.
  - exists 0%nat. right. now right.
  - destruct IH as (k & IH). exists (S k). cbn [base64_sextets length].
    destruct IH as [-> | [-> | ->]]; [left | right; left | right; right]; lia.
Qed.

Lemma base64_encode_length (bytes : list byte) :
  exists k, length (base64_encode bytes) = (k * 4)%nat.
Proof.
  induction bytes as [|a|a b|a b c r IH] using list_ind3.
  - now exists 0%nat.
  - now exists 1%nat.
  - now exists 1%nat.
  - destruct IH as (k & IH). exists (S k). cbn [base64_encode length]. lia.
Qed.

Lemma base64_padding_cases (bytes : list byte) :
  base64_padding bytes = []
  \/ base64_padding bytes = ["="%char]
  \/ base64_padding bytes = ["="%char; "="%char].
Proof.
  induction bytes as [|a|a b|a b c r IH] using list_ind3; cbn [base64_padding]; auto.
Qed.

Lemma strip_padding_encoded (body pad : list ascii) :
  (exists k, length (body ++ pad) = (k * 4)%nat) ->
  Forall (fun c => Ascii.eqb c "=" = false) body ->
  pad = [] \/ pad = ["="%char] \/ pad = ["="%char; "="%char] ->
  strip_padding (body ++ pad) = body.
Proof.
  intros (k & Hk) Hbody Hpad. unfold strip_padding.
  rewrite Hk, Nat.Div0.mod_mul, Nat.eqb_refl, rev_app_distr.
  assert (Hrev : Forall (fun c => Ascii.eqb c "=" = false) (rev body))
    by now apply Forall_rev.
  destruct (rev body) as [|c r] eqn:E.
  - apply (f_equal (@rev ascii)) in E. rewrite rev_involutive in E. subst body.
    destruct Hpad as [-> | [-> | ->]]; reflexivity.
  - assert (Hc : Ascii.eqb c "=" = false) by now inversion Hrev.
    assert (Hb : body = rev (c :: r)) by (rewrite <- E; symmetry; apply rev_involutive).
    clear E Hrev Hbody Hk. subst body.
    destruct Hpad as [-> | [-> | ->]]; cbn [rev]; rewrite ?app_nil_l;
      change (@app ascii) with (@List.app ascii); cbn [List.app];
      try reflexivity;
      destruct c as [[] [] [] [] [] [] [] []];
      try (exfalso; vm_compute in Hc; discriminate Hc);
      cbn [rev]; rewrite ?app_nil_r; reflexivity.
Qed.

Lemma filter_all {A} (P : A -> bool) (l : list A) :
  Forall (fun x => P x = true) l -> List.filter P l = l.
Proof.
  induction 1 as [|x l Hx _ IH]; [reflexivity|]. cbn. now rewrite Hx, IH.
Qed.

Lemma atob_base64_encode (bytes : list byte) :
  atob (string_of_list_ascii (base64_encode bytes)) = ok (binary_string bytes).
Proof.
  unfold atob. rewrite list_ascii_of_string_of_list_ascii.
  pose proof (base64_sextets_range bytes) as Hrange.
  assert (Hbody : Forall (fun c => Ascii.eqb c "=" = false)
                         (map base64_char (base64_sextets bytes))).
  { apply Forall_map. eapply Forall_impl; [exact Hrange|].
    intros v Hv. now destruct (base64_char_value v Hv) as (_ & _ & H & _). }
  rewrite filter_all.
  2:{ rewrite base64_encode_split. apply Forall_app. split.
      - apply Forall_map. eapply Forall_impl; [exact Hrange|].
        intros v Hv. destruct (base64_char_value v Hv) as (_ & H & _). now rewrite H.
      - destruct (base64_padding_cases bytes) as [-> | [-> | ->]]; repeat constructor. }
  cbv zeta. rewrite base64_encode_split.
  rewrite strip_padding_encoded;
    [| rewrite <- base64_encode_split; apply base64_encode_length
     | exact Hbody | apply base64_padding_cases].
  rewrite length_map.
  destruct (base64_sextets_length bytes) as (k & [E|[E|E]]); rewrite E;
    rewrite ?Nat.Div0.mod_mul, ?Nat.Div0.mod_add; cbn [Nat.modulo Nat.eqb];
    rewrite (base64_values_chars _ Hrange), base64_groups_sextets; reflexivity.
Qed.

Lemma ascii_bytes_binary_string (bytes : list byte) :
  ascii_bytes (binary_string bytes) = bytes.
Proof.
  unfold ascii_bytes, binary_string. rewrite list_ascii_of_string_of_list_ascii, map_map.
  induction bytes as [|a r IH]; [reflexivity|].
  cbn [map]. now rewrite byte_of_ascii_of_byte, IH.
Qed.

Lemma has_char_encoded (bytes : list byte) :
  has_char "," (string_of_list_ascii (base64_encode bytes)) = false.
Proof.
  unfold has_char. rewrite list_ascii_of_string_of_list_ascii, base64_encode_split.
  rewrite existsb_app. apply orb_false_intro.
  - pose proof (base64_sextets_range bytes) as Hrange.
    induction Hrange as [|v l Hv _ IH]; [reflexivity|].
    cbn [map existsb]. rewrite IH.
    now destruct (base64_char_value v Hv) as (_ & _ & _ & ->).
  - destruct (base64_padding_cases bytes) as [-> | [-> | ->]]; reflexivity.
Qed.

End Base64Props.

Section Base64Claims.

Local Open Scope string_scope.

(** X7.  What [blobToBase64] hands to the analysis request.  For a blob
    whose type holds no comma, the string cut out of the data URL is the
    base64 text of the blob's bytes, and [atob] and [decode] turn this
    text back into exactly these bytes; when the read fails, the promise
    rejects with the error of the reader. *)
Theorem blobToBase64_round_trip :
  (forall blob,
      has_char "," (blob_type blob) = false ->
      let text := string_of_list_ascii (base64_encode (blob_bytes blob)) in
      blobToBase64 (ok (readAsDataURL blob)) = ok (Some text)
      /\ atob text = ok (binary_string (blob_bytes blob))
      /\ decode text = ok (blob_bytes blob))
  /\ (forall e, blobToBase64 (throw e) = throw e).
Proof.
  split; [|reflexivity].
  intros blob Htype text. split; [|split].
  - unfold blobToBase64, readAsDataURL. cbn [rbind ok]. fold text.
    replace ("data:" ++ blob_type blob ++ ";base64," ++ text)
      with (("data:" ++ blob_type blob ++ ";base64") ++ String "," text)
      by (rewrite !string_app_assoc; reflexivity).
    rewrite split_on_app.
    + rewrite split_on_whole by apply has_char_encoded. reflexivity.
    + rewrite !has_char_app, Htype. reflexivity.
  - apply atob_base64_encode.
  - subst text. rewrite (decode_eq _ _ (atob_base64_encode _)).
    now rewrite ascii_bytes_binary_string.
Qed.

Lemma blobToBase64_round_trip_witness :
  blobToBase64 (ok (readAsDataURL (mkBlob ["255"; "127"; "000"; "128"]%byte "audio/webm")))
  = ok (Some "/38AgA==")
  /\ decode "/38AgA==" = ok ["255"; "127"; "000"; "128"]%byte.
Proof.
  destruct blobToBase64_round_trip as [H _].
  destruct (H (mkBlob ["255"; "127"; "000"; "128"]%byte "audio/webm") eq_refl)
    as (Hcut & _ & Hdec).
  split; [exact Hcut | exact Hdec].
Defined.

End Base64Claims.

(** * Further properties of the playback layer *)

Section PlaybackMore.

Context {Cb U : Type}.
Variable run_cb : Cb -> U -> U.

Local Abbreviation Machine := (@Machine Cb U) (only parsing).
Local Abbreviation Source := (@Source Cb) (only parsing).

Lemma filter_insert_count (P : Source -> bool) (l : list Source) (i : nat) (x y : Source)
      (bx bY : bool) :
  l !! i = Some x -> P x = bx -> P y = bY ->
  (length (List.filter P (<[i := y]> l)) + (if bx then 1 else 0)
   = length (List.filter P l) + (if bY then 1 else 0))%nat.
Proof.
  intros H <- <-. revert i H. induction l as [|z l IH]; intros [|i] H; try discriminate H.
  - cbn in H. inversion H; subst z.
    change (<[0%nat := y]> (x :: l)) with (y :: l). cbn [List.filter].
    destruct (P x), (P y); cbn [length]; lia.
  - cbn in H. specialize (IH i H).
    change (<[S i := y]> (z :: l)) with (z :: <[i := y]> l). cbn [List.filter].
    destruct (P z); cbn [length]; lia.
Qed.

Lemma is_rendering_state (s : Source) (st : SourceState) :
  src_state s = st ->
  is_rendering s = match st with Rendering => true | _ => false end.
Proof. intros <-. reflexivity. Qed.

Lemma after_stop_other (i j : nat) (m : Machine) :
  j <> i -> sources (after_stop i m) !! j = sources m !! j.
Proof.
  intros Hj. unfold after_stop.
  destruct (sources m !! i) as [s|] eqn:E; [|reflexivity].
  destruct (src_state s); cbn; try reflexivity;
    now rewrite list_lookup_insert_ne by congruence.
Qed.

Lemma after_stop_length (i : nat) (m : Machine) :
  length (sources (after_stop i m)) = length (sources m).
Proof.
  unfold after_stop.
  destruct (sources m !! i) as [s|] eqn:E; [|reflexivity].
  destruct (src_state s); cbn; try reflexivity; now rewrite length_insert.
Qed.

Lemma after_stop_count (i : nat) (m : Machine) :
  (rendering_count (after_stop i m) + (if source_rendering m i then 1 else 0)
   = rendering_count m)%nat.
Proof.
  unfold after_stop, source_rendering, rendering_count.
  destruct (sources m !! i) as [s|] eqn:E; [|lia].
  destruct (src_state s) eqn:Es; cbn [sources set_sources];
    rewrite (is_rendering_state s _ Es).
  - lia.
  - pose proof (filter_insert_count is_rendering (sources m) i s
                  (mkSource (src_buffer s) false (src_listeners s) Finished Pending)
                  true false E (is_rendering_state s _ Es) eq_refl) as H.
    cbv iota in H. lia.
  - pose proof (filter_insert_count is_rendering (sources m) i s
                  (mkSource (src_buffer s) false (src_listeners s) Finished (src_ended s))
                  false false E (is_rendering_state s _ Es) eq_refl) as H.
    cbv iota in H. lia.
Qed.

Lemma after_stop_other_fields (i : nat) (m : Machine) :
  audioContext (after_stop i m) = audioContext m /\ env (after_stop i m) = env m.
Proof.
  unfold after_stop. destruct (sources m !! i) as [s|]; [|now split].
  destruct (src_state s); now split.
Qed.

Lemma finishes_other (i j : nat) (m : Machine) :
  j <> i -> sources (source_finishes i m) !! j = sources m !! j.
Proof.
  intros Hj. rewrite source_finishes_outcome.
  destruct (sources m !! i) as [s|] eqn:E; [|reflexivity].
  destruct (src_state s); cbn; try reflexivity.
  now rewrite list_lookup_insert_ne by congruence.
Qed.

Lemma finishes_count (i : nat) (m : Machine) :
  (rendering_count (source_finishes i m) <= rendering_count m)%nat.
Proof.
  rewrite source_finishes_outcome. unfold rendering_count.
  destruct (sources m !! i) as [s|] eqn:E; [|lia].
  destruct (src_state s) eqn:Es; cbn [sources set_sources]; try lia.
  pose proof (filter_insert_count is_rendering (sources m) i s
                (mkSource (src_buffer s) (src_connected s) (src_listeners s)
                          Finished Pending)
                true false E (is_rendering_state s _ Es) eq_refl) as H.
  cbv iota in H. lia.
Qed.

Lemma dispatch_count (i : nat) (m : Machine) :
  rendering_count (dispatch_ended run_cb i m) = rendering_count m.
Proof.
  rewrite dispatch_ended_outcome. unfold after_dispatch, rendering_count.
  destruct (sources m !! i) as [s|] eqn:E; [|reflexivity].
  destruct (src_ended s); cbn [sources]; try reflexivity.
  pose proof (filter_insert_count is_rendering (sources m) i s
                (mkSource (src_buffer s) (src_connected s) (src_listeners s)
                          (src_state s) Dispatched)
                (is_rendering s) (is_rendering s) E eq_refl eq_refl) as H.
  destruct (is_rendering s); lia.
Qed.

Lemma filter_silent (extra : list Source) :
  Forall (fun x => src_state x = Unstarted /\ src_ended x = NotDue) extra ->
  List.filter is_rendering extra = [].
Proof.
  induction 1 as [|x l [Hx _] _ IH]; [reflexivity|].
  cbn. unfold is_rendering at 1. now rewrite Hx.
Qed.

(** What an invocation of [playRawAudio] leaves of the nodes there were. *)
Lemma play_sources (base64String : string) (onEnded : option Cb) (m : Machine) :
  exists extra,
    sources (fst (playRawAudio run_cb base64String onEnded m)) = sources m ++ extra
    /\ (length (List.filter is_rendering extra)
        = if some_step_fails base64String m then 0 else 1)%nat.
Proof.
  rewrite playRawAudio_outcome.
  destruct (some_step_fails base64String m) eqn:E.
  - destruct (play_outcome_failure run_cb base64String onEnded m E)
      as (e & m1 & extra & -> & _ & _ & _ & _ & Hs & Hx).
    exists extra. cbn. split; [exact Hs|]. now rewrite filter_silent.
  - destruct (play_outcome_success run_cb base64String onEnded m E) as (b & _ & ->).
    eexists. cbn. split; reflexivity.
Qed.

(** Without a callback an invocation calls nothing. *)
Lemma play_no_callback (base64String : string) (m : Machine) :
  invoked (fst (playRawAudio run_cb base64String None m)) = invoked m
  /\ app (fst (playRawAudio run_cb base64String None m)) = app m.
Proof.
  rewrite playRawAudio_outcome.
  destruct (some_step_fails base64String m) eqn:E.
  - destruct (play_outcome_failure run_cb base64String None m E)
      as (e' & m' & extra & -> & _ & _ & Hi & Ha & _).
    cbn. rewrite app_nil_r. now split.
  - destruct (play_outcome_success run_cb base64String None m E) as (b & _ & ->).
    now split.
Qed.

Lemma play_count (base64String : string) (onEnded : option Cb) (m : Machine) :
  rendering_count (fst (playRawAudio run_cb base64String onEnded m))
  = (rendering_count m + if some_step_fails base64String m then 0 else 1)%nat.
Proof.
  destruct (play_sources base64String onEnded m) as (extra & Hs & Hc).
  unfold rendering_count. now rewrite Hs, List.filter_app, length_app, Hc.
Qed.

Lemma silent_step (i : nat) (m : Machine) (op : AudioOp) :
  silent i m -> silent i (audio_step run_cb m op).
Proof.
  intros [Hlen Hidle]. destruct op as [s cb|stop|j|j| |e]; cbn [audio_step].
  - destruct (play_sources s cb m) as (extra & Hs & _). split.
    + rewrite Hs, length_app. lia.
    + unfold source_rendering in *. now rewrite Hs, lookup_app_l by exact Hlen.
  - destruct stop as [|j]; [now split|]. rewrite call_stop_outcome. cbn [fst]. split.
    + now rewrite after_stop_length.
    + destruct (decide (i = j)) as [->|Hne]; [apply after_stop_idle|].
      unfold source_rendering in *. now rewrite after_stop_other.
  - split.
    + rewrite source_finishes_outcome. destruct (sources m !! j) as [x|]; [|exact Hlen].
      destruct (src_state x); cbn; try exact Hlen. now rewrite length_insert.
    + destruct (decide (i = j)) as [->|Hne]; [apply finishes_idle|].
      unfold source_rendering in *. now rewrite finishes_other.
  - split.
    + rewrite dispatch_ended_outcome. unfold after_dispatch.
      destruct (sources m !! j) as [x|]; [|exact Hlen].
      destruct (src_ended x); cbn; try exact Hlen. now rewrite length_insert.
    + now rewrite dispatch_rendering.
  - unfold context_suspends. destruct (audioContext m); now split.
  - now split.
Qed.

End PlaybackMore.

Section PlaybackMoreClaims.

Context {Cb U : Type}.
Variable run_cb : Cb -> U -> U.

Local Abbreviation Machine := (@Machine Cb U) (only parsing).

(** X10.  [playRawAudio] resolves with the closure over a started node
    exactly when no step of its [try] block fails.  It then has appended
    one node to the nodes there were, rendering the decoded buffer with
    the caller's listener, and has changed nothing else: the nodes that
    existed, the console, the callbacks invoked and the state of the
    caller are as before, and one more node renders. *)
Theorem playRawAudio_starts_one_node
    (base64String : string) (onEnded : option Cb) (m : Machine) :
  let m' := fst (playRawAudio run_cb base64String onEnded m) in
  let stop := snd (playRawAudio run_cb base64String onEnded m) in
  (some_step_fails base64String m = false <-> exists i, stop = inr (StopSource i))
  /\ (some_step_fails base64String m = true <-> stop = inr NoopStop)
  /\ (some_step_fails base64String m = false ->
      exists buffer,
        decode_samples base64String = ok buffer
        /\ stop = inr (StopSource (length (sources m)))
        /\ sources m'
           = sources m ++ [mkSource (Some buffer) true (listeners_of onEnded) Rendering NotDue]
        /\ audioContext m' = Some Running
        /\ env m' = env m
        /\ console m' = console m
        /\ invoked m' = invoked m
        /\ app m' = app m
        /\ rendering_count m' = S (rendering_count m)).
Proof.
  intros m' stop. subst m' stop. rewrite playRawAudio_outcome.
  destruct (some_step_fails base64String m) eqn:E.
  - destruct (play_outcome_failure run_cb base64String onEnded m E)
      as (e & m1 & extra & -> & _).
    cbn [caught snd]. split; [|split].
    + split; [discriminate | intros (i & H); discriminate H].
    + split; reflexivity.
    + discriminate.
  - destruct (play_outcome_success run_cb base64String onEnded m E) as (b & Hb & ->).
    cbn [fst snd]. split; [|split].
    + split; [eexists; reflexivity | reflexivity].
    + split; [discriminate | intros H; discriminate H].
    + intros _. exists b. split; [exact Hb|]. repeat split.
      unfold rendering_count. cbn. rewrite List.filter_app, length_app. cbn. lia.
Qed.


(** X11.  Calling a stop function touches its own node only: every
    other node, the audio context, the console, the callbacks invoked
    and the state of the caller stay, no node is added or removed, and
    the number of rendering nodes drops by one if the session was
    playing and stays otherwise. *)
Theorem stop_is_local (stop : StopFn) (m : Machine) :
  let m' := fst (call_stop stop m) in
  (forall j, stop <> StopSource j -> sources m' !! j = sources m !! j)
  /\ length (sources m') = length (sources m)
  /\ audioContext m' = audioContext m
  /\ env m' = env m
  /\ console m' = console m
  /\ invoked m' = invoked m
  /\ app m' = app m
  /\ (rendering_count m' + match session_state m stop with Playing => 1 | Idle => 0 end
      = rendering_count m)%nat.
Proof.
  intros m'. subst m'. destruct stop as [|i].
  - cbn. repeat split. lia.
  - rewrite call_stop_outcome. cbn [fst].
    destruct (after_stop_frame i m) as (Hi & Ha & Hc).
    destruct (after_stop_other_fields i m) as (Hctx & Henv).
    split; [intros j Hj; apply after_stop_other; congruence|].
    split; [apply after_stop_length|].
    repeat (split; [assumption|]).
    pose proof (after_stop_count i m) as H. unfold session_state.
    destruct (source_rendering m i); exact H.
Qed.

(** X12.  A session started without an [onEnded] callback, as the voice
    previews are, never calls anything: the invocation itself invokes no
    callback and leaves the state of the caller, whether it succeeds or
    fails; and however the execution goes on, the [ended] event of its
    node invokes no callback, and delivering it leaves the state of the
    caller and the list of invocations as they are. *)
Theorem no_callback_no_invocation
    (e : Env) (u : U) (before : list AudioOp) (base64String : string)
    (m1 : Machine) (stop : StopFn) :
  let m := audio_run run_cb (fresh_machine e u) before in
  playRawAudio run_cb base64String None m = (m1, inr stop) ->
  invoked m1 = invoked m
  /\ app m1 = app m
  /\ forall i, stop = StopSource i ->
       forall after,
         let m2 := audio_run run_cb m1 after in
         ended_calls i m2 = 0%nat
         /\ invoked (dispatch_ended run_cb i m2) = invoked m2
         /\ app (dispatch_ended run_cb i m2) = app m2.
Proof.
  intros m Hplay.
  assert (Hm : audio_inv m) by (apply audio_inv_run, audio_inv_fresh).
  assert (Hframe : invoked m1 = invoked m /\ app m1 = app m).
  { pose proof (play_no_callback run_cb base64String m) as H.
    now rewrite Hplay in H. }
  split; [apply Hframe|]. split; [apply Hframe|].
  intros i -> after m2.
  destruct (playRawAudio_started run_cb _ _ _ _ _ Hplay) as (buffer & Hi & Hshape).
  assert (Hlist : has_listeners i [] m1).
  { exists (mkSource (Some buffer) true [] Rendering NotDue). split; [|reflexivity].
    rewrite Hshape, Hi. cbn. apply list_lookup_middle. reflexivity. }
  destruct (has_listeners_run run_cb i [] m1 after Hlist) as (s & Hs & Hl).
  fold m2 in Hs.
  assert (Hm2 : audio_inv m2).
  { apply audio_inv_run.
    pose proof (audio_inv_play run_cb base64String None m Hm) as H.
    now rewrite Hplay in H. }
  split.
  - destruct Hm2 as [Hin _]. destruct (Hin i s Hs) as [Hc _].
    rewrite Hc, Hl. now destruct (src_ended s).
  - rewrite dispatch_ended_outcome. unfold after_dispatch. rewrite Hs.
    destruct (src_ended s); cbn; rewrite ?Hl; cbn; rewrite ?app_nil_r; now split.
Qed.


(** X13.  A node that does not render never renders again: once a
    session has been stopped or has ended, or its node could not be
    started, the node stays silent in every continuation of the
    execution, whatever is played, stopped or delivered afterwards. *)
Theorem silent_nodes_stay_silent (m : Machine) (i : nat) (ops : list AudioOp) :
  (i < length (sources m))%nat ->
  source_rendering m i = false ->
  source_rendering (audio_run run_cb m ops) i = false.
Proof.
  intros Hlen Hidle.
  assert (H : silent i (audio_run run_cb m ops)).
  { assert (Hs : silent i m) by now split.
    clear Hlen Hidle. revert m Hs.
    induction ops as [|op ops IH]; intros m Hs; [exact Hs|].
    cbn. apply IH. now apply silent_step. }
  apply H.
Qed.


(** X14.  Only [playRawAudio] starts audio: in every execution the
    number of rendering nodes is at most the number there was plus the
    number of calls of [playRawAudio]; a step that is not such a call
    never increases it, and a call increases it by one when it succeeds
    and not at all when it fails. *)
Theorem only_play_starts_rendering :
  (forall (m : Machine) (ops : list AudioOp),
      (rendering_count (audio_run run_cb m ops) <= rendering_count m + count_plays ops)%nat)
  /\ (forall (m : Machine) (op : AudioOp),
         is_play op = false ->
         (rendering_count (audio_step run_cb m op) <= rendering_count m)%nat)
  /\ (forall (m : Machine) base64String onEnded,
         rendering_count (fst (playRawAudio run_cb base64String onEnded m))
         = (rendering_count m + if some_step_fails base64String m then 0 else 1)%nat).
Proof.
  assert (Hstep : forall (m : Machine) (op : AudioOp),
             is_play op = false ->
             (rendering_count (audio_step run_cb m op) <= rendering_count m)%nat).
  { intros m op Hop. destruct op as [s cb|stop|j|j| |e]; cbn [audio_step];
      try discriminate Hop.
    - destruct stop as [|j]; [apply Nat.le_refl|]. rewrite call_stop_outcome. cbn [fst].
      pose proof (after_stop_count j m). lia.
    - apply finishes_count.
    - rewrite dispatch_count. lia.
    - unfold context_suspends. destruct (audioContext m); apply Nat.le_refl.
    - apply Nat.le_refl. }
  split; [|split; [exact Hstep | intros; apply play_count]].
  intros m ops. revert m. induction ops as [|op ops IH]; intros m; [cbn; lia|].
  cbn [audio_run fold_left]. specialize (IH (audio_step run_cb m op)).
  fold (audio_run run_cb (audio_step run_cb m op) ops).
  unfold count_plays in *. cbn [List.filter].
  destruct (is_play op) eqn:Hop.
  - destruct op as [s cb|stop|j|j| |e]; try discriminate Hop.
    cbn [audio_step] in *. rewrite play_count in IH. cbn [length].
    destruct (some_step_fails s m); lia.
  - pose proof (Hstep m op Hop). lia.
Qed.

End PlaybackMoreClaims.

Lemma playRawAudio_starts_one_node_witness :
  let count (_ : unit) (n : nat) := S n in
  let m := fresh_machine healthy_env 0%nat in
  some_step_fails "AAAAAAAA" m = false
  /\ snd (playRawAudio count "AAAAAAAA" (Some tt) m) = inr (StopSource 0)
  /\ rendering_count (fst (playRawAudio count "AAAAAAAA" (Some tt) m)) = 1%nat.
Proof.
  intros count m.
  destruct (playRawAudio_starts_one_node count "AAAAAAAA" (Some tt) m)
    as (_ & _ & Hok).
  destruct (Hok eq_refl) as (b & _ & Hs & _ & _ & _ & _ & _ & _ & Hc).
  split; [reflexivity|]. split; [exact Hs | exact Hc].
Defined.

Lemma no_callback_no_invocation_witness :
  let count (_ : unit) (n : nat) := S n in
  let started := playRawAudio count "AAAAAAAA" None (fresh_machine healthy_env 0%nat) in
  let ended := dispatch_ended count 0 (source_finishes 0 (fst started)) in
  snd started = inr (StopSource 0)
  /\ ended_calls 0 ended = 0%nat
  /\ app ended = 0%nat.
Proof.
  intros count started ended.
  pose proof (no_callback_no_invocation (fun (_ : unit) (n : nat) => S n) healthy_env 0%nat []
                "AAAAAAAA" (fst started) (StopSource 0) eq_refl) as (_ & _ & H).
  destruct (H 0%nat eq_refl [OpFinishes 0; OpDispatch 0]) as (Hc & _).
  split; [reflexivity|]. split; [exact Hc | reflexivity].
Defined.

Lemma silent_nodes_stay_silent_witness :
  let count (_ : unit) (n : nat) := S n in
  let started := fst (playRawAudio count "AAAAAAAA" (Some tt) (fresh_machine healthy_env 0%nat)) in
  let stopped := fst (call_stop (StopSource 0) started) in
  source_rendering started 0 = true
  /\ source_rendering
       (audio_run count stopped [OpDispatch 0; OpPlay "AAAAAAAA" None; OpStop (StopSource 0)]) 0
     = false.
Proof.
  intros count started stopped. split; [reflexivity|].
  apply (silent_nodes_stay_silent count stopped 0%nat); [vm_compute; lia | reflexivity].
Defined.

(** * Further properties of the studio *)

Section StudioMore.

Local Abbreviation Node := (@Source Callback) (only parsing).

Lemma playing_only_refl (a : App) : playing_only a a.
Proof. repeat split. Qed.

Lemma playing_only_trans (a b c : App) :
  playing_only a b -> playing_only b c -> playing_only a c.
Proof.
  intros (H1 & H2 & H3 & H4 & H5) (K1 & K2 & K3 & K4 & K5).
  repeat split; congruence.
Qed.

Lemma playing_only_callback (cb : Callback) (a : App) : playing_only a (run_callback cb a).
Proof.
  destruct cb as [inst]. unfold run_callback.
  destruct (inst =? instance (studio a))%nat; repeat split.
Qed.

Lemma playing_only_flag (b : bool) (w : World) :
  playing_only (app w) (app (upd_studio (setIsPlayingDemo b) w)).
Proof. repeat split. Qed.

Lemma playing_only_play (d : string) (onEnded : option Callback) (w : World) :
  playing_only (app w) (app (fst (playRawAudio run_callback d onEnded w))).
Proof.
  destruct (play_app d onEnded w) as [->|(cb & _ & ->)];
    [apply playing_only_refl | apply playing_only_callback].
Qed.

Lemma playing_only_callbacks (l : list Callback) (a : App) :
  playing_only a (fold_left (fun u cb => run_callback cb u) l a).
Proof.
  revert a. induction l as [|cb l IH]; intros a; [apply playing_only_refl|].
  cbn [fold_left]. eapply playing_only_trans; [apply playing_only_callback | apply IH].
Qed.

Lemma playing_only_dispatch (i : nat) (w : World) :
  playing_only (app w) (app (dispatch_ended run_callback i w)).
Proof.
  rewrite dispatch_ended_outcome. unfold after_dispatch.
  destruct (sources w !! i) as [x|]; [|apply playing_only_refl].
  destruct (src_ended x); try apply playing_only_refl. cbn [app].
  apply playing_only_callbacks.
Qed.

Lemma playing_only_stop_demo (w : World) :
  playing_only (app w) (app (fst (stop_demo_if_playing w))).
Proof.
  unfold stop_demo_if_playing.
  destruct (isPlayingDemo (the_studio w)); [|apply playing_only_refl].
  destruct (stopDemoRef (the_studio w)) as [stop|]; [|apply playing_only_refl].
  rewrite call_stop_world. cbn [fst].
  eapply playing_only_trans; [|apply playing_only_flag].
  destruct stop as [|i]; [apply playing_only_refl|].
  rewrite after_stop_app. apply playing_only_refl.
Qed.

Lemma playing_only_fields (a a' : App) :
  playing_only a a' ->
  instance (studio a') = instance (studio a)
  /\ demoAudioData (studio a') = demoAudioData (studio a)
  /\ isGeneratingDemo (studio a') = isGeneratingDemo (studio a)
  /\ stopDemoRef (studio a') = stopDemoRef (studio a)
  /\ selectedVoice (studio a') = selectedVoice (studio a)
  /\ isVoiceDropdownOpen (studio a') = isVoiceDropdownOpen (studio a)
  /\ previewingVoiceId (studio a') = previewingVoiceId (studio a).
Proof.
  intros (_ & _ & _ & _ & H). unfold setIsPlayingDemo in H. inversion H. repeat split.
Qed.

(** The requests in flight after the rest of a handler has run. *)
Lemma pending_demo_settled (inst : nat) (outcome : Result string) (w : World) :
  pending (app (demo_settled inst outcome w)) = pending (app w)
  /\ requested (app (demo_settled inst outcome w)) = requested (app w)
  /\ selectedVoice (the_studio (demo_settled inst outcome w)) = selectedVoice (the_studio w)
  /\ mode (app (demo_settled inst outcome w)) = mode (app w)
  /\ script (app (demo_settled inst outcome w)) = script (app w).
Proof.
  unfold demo_settled.
  destruct (inst =? instance (the_studio w))%nat.
  - destruct outcome as [e|d]; [repeat split|].
    set (w2 := upd_studio (setIsPlayingDemo true)
                 (upd_studio (setDemoAudioData (Some d)) w)).
    pose proof (playing_only_play d (Some (SetIsPlayingDemoFalse inst)) w2) as Hp.
    destruct (playing_only_fields _ _ Hp) as (_ & _ & _ & _ & Hv & _).
    destruct Hp as (Hm & Hs & Hp & Hr & _).
    destruct (playRawAudio run_callback d (Some (SetIsPlayingDemoFalse inst)) w2)
      as [w3 [e|stopFn]]; cbn [fst] in *; unfold the_studio; cbn;
      rewrite Hp, Hr, Hv, Hm, Hs; repeat split.
  - destruct outcome as [e|d]; [repeat split|].
    pose proof (playing_only_play d (Some (SetIsPlayingDemoFalse inst)) w) as Hp.
    destruct (playing_only_fields _ _ Hp) as (_ & _ & _ & _ & Hv & _).
    destruct Hp as (Hm & Hs & Hp & Hr & _). unfold the_studio.
    rewrite Hp, Hr, Hv, Hm, Hs. repeat split.
Qed.

Lemma preview_settled_app (inst : nat) (outcome : Result string) (w : World) :
  app (preview_settled inst outcome w) = app w
  \/ app (preview_settled inst outcome w)
     = app (upd_studio (setPreviewingVoiceId None) w).
Proof.
  unfold preview_settled.
  set (w1 := match outcome with
             | inl _ => w
             | inr audioData => fst (playRawAudio run_callback audioData None w)
             end).
  assert (H1 : app w1 = app w).
  { subst w1. destruct outcome as [e|d]; [reflexivity|].
    now destruct (preview_play_effect w d) as [H _]. }
  unfold the_studio. rewrite H1.
  destruct (inst =? instance (studio (app w)))%nat; [right | now left].
  unfold upd_studio. cbn. now rewrite H1.
Qed.

Lemma handlePreviewVoice_app (voice : VoiceOption) (w : World) :
  handlePreviewVoice voice w = w
  \/ handlePreviewVoice voice w
     = send_request (PreviewRequest (instance (the_studio w)) previewText (voice_id voice))
         (upd_studio (setPreviewingVoiceId (Some (voice_id voice))) w).
Proof.
  unfold handlePreviewVoice.
  destruct (previewingVoiceId (the_studio w)) as [id|]; [|now right].
  destruct (String.eqb id (voice_id voice)); [now left | now right].
Qed.


Lemma substring_length (n : nat) (s : string) :
  (String.length (substring 0 n s) <= n)%nat.
Proof.
  revert s. induction n as [|n IH]; intros [|c s]; cbn; try lia.
  specialize (IH s). lia.
Qed.

End StudioMore.

Section StudioMoreClaims.

Local Open Scope string_scope.

(** X15.  The script and the mode change in one way only.  If a step
    changes the script, the step is an edit made in the editor and the
    script is the text of the edit: nothing that happens in the practice
    view (generating, playing, previewing, recording, responses of the
    service, events of the audio engine) and no switch of the mode
    touches the script.  If a step changes the mode, it is a switch to
    the mode it requests. *)
Theorem script_changes_only_in_editor (w : World) (ev : Event) :
  (script (app (step w ev)) <> script (app w) ->
   exists s, ev = ScriptChange s /\ mode (app w) = EDITOR /\ script (app (step w ev)) = s)
  /\ (mode (app (step w ev)) <> mode (app w) ->
      exists target, ev = SetMode target /\ mode (app (step w ev)) = target).
Proof.
  destruct (is_app_event ev) eqn:Hev.
  - destruct ev as [target|s| | |voice|voice| | |k response|i|i| |e]; try discriminate Hev.
    + split; intros H.
      * exfalso. apply H. cbn [step]. unfold set_mode.
        destruct (mode (app w)), target; try reflexivity.
        destruct (stopDemoRef (studio (app w))) as [stop|]; [|reflexivity].
        cbn. now rewrite call_stop_app.
      * exists target. split; [reflexivity|]. cbn [step] in *. unfold set_mode in *.
        destruct (mode (app w)) eqn:Em, target; try reflexivity; try congruence.
    + cbn [step]. unfold in_practice. destruct (mode (app w)) eqn:Em.
      * split; intros H; [|exfalso; apply H; exact Em]. exists s. repeat split.
      * split; intros H; congruence.
  - destruct (frame_step w ev Hev) as (_ & Hm & Hs & _). split; intros H; congruence.
Qed.

Lemma script_changes_only_in_editor_witness :
  exists s,
    ScriptChange "hello" = ScriptChange s
    /\ mode (app (initial_world healthy_env)) = EDITOR
    /\ script (app (step (initial_world healthy_env) (ScriptChange "hello"))) = s.
Proof.
  destruct (script_changes_only_in_editor (initial_world healthy_env) (ScriptChange "hello"))
    as [H _].
  apply H. cbn. discriminate.
Defined.



End StudioMoreClaims.

Section StudioRequests.

Local Open Scope string_scope.

Lemma voice_option_id (voice : VoiceOption) :
  is_voice_option voice = true -> In (voice_id voice) (map voice_id VOICE_OPTIONS).
Proof.
  unfold is_voice_option. intros H. apply existsb_exists in H as (x & Hx & Heq).
  unfold voice_eqb in Heq. apply andb_prop in Heq as [Heq _].
  apply andb_prop in Heq as [Heq _]. apply String.eqb_eq in Heq. rewrite Heq.
  now apply in_map.
Qed.


(** The calls a handler adds and the voice it leaves selected. *)
Lemma handleGenerateAndPlayDemo_requests (w : World) :
  selectedVoice (the_studio (handleGenerateAndPlayDemo w)) = selectedVoice (the_studio w)
  /\ (requested (app (handleGenerateAndPlayDemo w)) = requested (app w)
      \/ requested (app (handleGenerateAndPlayDemo w))
         = (requested (app w)
            ++ [(substring 0 500 (script (app w)),
                 voice_id (selectedVoice (the_studio w)))])%list).
Proof.
  unfold handleGenerateAndPlayDemo.
  pose proof (playing_only_stop_demo w) as Hstop.
  destruct (stop_demo_if_playing w) as [w1 [|]]; cbn [fst] in Hstop.
  { destruct (playing_only_fields _ _ Hstop) as (_ & _ & _ & _ & Hv & _).
    destruct Hstop as (_ & _ & _ & Hr & _). split; [exact Hv | now left]. }
  destruct (truthy (demoAudioData (the_studio w))) as [d|].
  - set (w1' := upd_studio (setIsPlayingDemo true) w).
    pose proof (playing_only_play d (Some (demo_callback w)) w1') as Hp.
    destruct (playing_only_fields _ _ Hp) as (_ & _ & _ & _ & Hv & _).
    destruct Hp as (_ & _ & _ & Hr & _).
    destruct (playRawAudio run_callback d (Some (demo_callback w)) w1')
      as [w2 [e|stopFn]]; cbn [fst] in *; unfold the_studio; cbn;
      rewrite Hv, Hr; split; try reflexivity; now left.
  - destruct (trim_is_empty (script (app w))); [split; [reflexivity | now left]|].
    split; [reflexivity | now right].
Qed.

Lemma step_requests (w : World) (ev : Event) :
  is_voice_option (selectedVoice (the_studio w)) = true ->
  is_voice_option (selectedVoice (the_studio (step w ev))) = true
  /\ exists extra,
       requested (app (step w ev)) = (requested (app w) ++ extra)%list
       /\ Forall request_ok extra.
Proof.
  intros Hv.
  assert (Hsame : forall w', selectedVoice (the_studio w') = selectedVoice (the_studio w) ->
                             requested (app w') = requested (app w) ->
                             is_voice_option (selectedVoice (the_studio w')) = true
                             /\ exists extra,
                                  requested (app w') = (requested (app w) ++ extra)%list
                                  /\ Forall request_ok extra).
  { intros w' H1 H2. split; [now rewrite H1|]. exists []. rewrite app_nil_r. now split. }
  destruct ev as [target|s| | |voice|voice| | |k response|i|i| |e]; cbn [step].
  - unfold set_mode. destruct (mode (app w)), target; try now apply Hsame.
    split; [reflexivity|]. exists []. rewrite app_nil_r. split; [|constructor].
    destruct (stopDemoRef (studio (app w))) as [stop|]; [|reflexivity].
    cbn. now rewrite call_stop_app.
  - destruct (in_practice w); now apply Hsame.
  - destruct (in_practice w); now apply Hsame.
  - destruct (in_practice w); now apply Hsame.
  - destruct (in_practice w && isVoiceDropdownOpen (the_studio w) && is_voice_option voice)
      eqn:Hg; [|now apply Hsame].
    apply andb_prop in Hg as [_ Hg].
    unfold select_voice. split.
    + destruct (truthy (demoAudioData (the_studio w))); exact Hg.
    + exists []. rewrite app_nil_r. split; [|constructor].
      destruct (truthy (demoAudioData (the_studio w))); reflexivity.
  - destruct (in_practice w && isVoiceDropdownOpen (the_studio w) && is_voice_option voice)
      eqn:Hg; [|now apply Hsame].
    apply andb_prop in Hg as [_ Hg].
    destruct (handlePreviewVoice_app voice w) as [->| ->]; [now apply Hsame|].
    split; [exact Hv|]. eexists. split; [reflexivity|].
    constructor; [|constructor]. split; [vm_compute; lia | now apply voice_option_id].
  - destruct (in_practice w && negb (isGeneratingDemo (the_studio w))
              && nonempty (script (app w))); [|now apply Hsame].
    destruct (handleGenerateAndPlayDemo_requests w) as (Hsel & [Hr|Hr]);
      [now apply Hsame|].
    split; [now rewrite Hsel|]. eexists. split; [exact Hr|].
    constructor; [|constructor].
    split; [apply substring_length | now apply voice_option_id].
  - destruct (in_practice w && nonempty (script (app w))); [|now apply Hsame].
    pose proof (playing_only_stop_demo w) as Hstop.
    destruct (playing_only_fields _ _ Hstop) as (_ & _ & _ & _ & Hsel & _).
    destruct Hstop as (_ & _ & _ & Hr & _). now apply Hsame.
  - unfold settle. destruct (pending (app w) !! k) as [r|]; [|now apply Hsame].
    destruct r as [inst text voiceName|inst text voiceName].
    + destruct (pending_demo_settled inst (generation_result response) (drop_request k w))
        as (_ & Hr & Hsel & _).
      now apply Hsame.
    + destruct (preview_settled_app inst (generation_result response) (drop_request k w))
        as [Happ|Happ]; apply Hsame; unfold the_studio; now rewrite Happ.
  - apply Hsame; rewrite source_finishes_outcome;
      (destruct (sources w !! i) as [x|]; [|reflexivity]);
      destruct (src_state x); reflexivity.
  - pose proof (playing_only_dispatch i w) as Hd.
    destruct (playing_only_fields _ _ Hd) as (_ & _ & _ & _ & Hsel & _).
    destruct Hd as (_ & _ & _ & Hr & _). now apply Hsame.
  - apply Hsame; unfold context_suspends; destruct (audioContext w); reflexivity.
  - now apply Hsame.
Qed.



(** X18.  A response for a studio that is gone changes nothing the user
    sees.  When the request of an instance other than the mounted one
    settles, the rest of its handler leaves the whole application state:
    no flag, no cached audio and no stop function is written.  The audio
    of a late demo response is played all the same.  In particular, in
    every reachable state in which the editor is shown, the settling of
    any request leaves the studio state, the script and the mode. *)
Theorem stale_response_isolated :
  (forall inst outcome (w : World),
      inst <> instance (the_studio w) ->
      app (demo_settled inst outcome w) = app w
      /\ app (preview_settled inst outcome w) = app w)
  /\ (forall inst d (w : World),
         inst <> instance (the_studio w) ->
         some_step_fails d w = false ->
         rendering_count (demo_settled inst (ok d) w) = S (rendering_count w))
  /\ (forall (w : World),
         reachable w -> mode (app w) = EDITOR ->
         forall k response,
           the_studio (step w (Settle k response)) = the_studio w
           /\ script (app (step w (Settle k response))) = script (app w)
           /\ mode (app (step w (Settle k response))) = EDITOR).
Proof.
  assert (Hstale : forall inst outcome (w : World),
             inst <> instance (the_studio w) ->
             app (demo_settled inst outcome w) = app w
             /\ app (preview_settled inst outcome w) = app w).
  { intros inst outcome w Hne.
    assert (Hb : (inst =? instance (the_studio w))%nat = false) by now apply Nat.eqb_neq.
    split.
    - unfold demo_settled. rewrite Hb. destruct outcome as [e|d]; [reflexivity|].
      destruct (play_app d (Some (SetIsPlayingDemoFalse inst)) w)
        as [->|(cb & Hcb & ->)]; [reflexivity|].
      inversion Hcb; subst cb. unfold run_callback.
      fold (the_studio w). now rewrite Hb.
    - unfold preview_settled.
      set (w1 := match outcome with
                 | inl _ => w
                 | inr audioData => fst (playRawAudio run_callback audioData None w)
                 end).
      assert (H1 : app w1 = app w).
      { subst w1. destruct outcome as [e|d]; [reflexivity|].
        now destruct (preview_play_effect w d) as [H _]. }
      unfold the_studio. rewrite H1. fold (the_studio w). now rewrite Hb. }
  split; [exact Hstale|]. split.
  - intros inst d w Hne Hok.
    assert (Hb : (inst =? instance (the_studio w))%nat = false) by now apply Nat.eqb_neq.
    unfold demo_settled. rewrite Hb. cbn [ok].
    rewrite play_count, Hok. lia.
  - intros w Hreach Hmode k response.
    destruct (reachable_app_inv w Hreach) as [_ Hed].
    destruct (Hed Hmode) as [_ Hold].
    cbn [step]. unfold settle.
    destruct (pending (app w) !! k) as [r|] eqn:Hk; [|now repeat split].
    assert (Hlt : (request_instance r < instance (the_studio w))%nat).
    { apply Hold. apply list_elem_of_In. eapply list_elem_of_lookup_2. exact Hk. }
    destruct r as [inst text voiceName|inst text voiceName]; cbn in Hlt;
      destruct (Hstale inst (generation_result response) (drop_request k w)) as [Hd Hp];
      try (change (the_studio (drop_request k w)) with (the_studio w); lia);
      unfold the_studio; rewrite ?Hd, ?Hp; repeat split; exact Hmode.
Qed.

Lemma stale_response_isolated_witness :
  let w := run (initial_world healthy_env)
               [ScriptChange "hello"; SetMode PRACTICE; GenerateAndPlayDemo;
                SetMode EDITOR] in
  let w' := step w (Settle 0 (inr "AAAAAAAA")) in
  the_studio w' = the_studio w
  /\ demoAudioData (the_studio w') = None
  /\ rendering_count w' = 1%nat.
Proof.
  intros w w'.
  destruct stale_response_isolated as (_ & _ & Hed).
  assert (Hreach : reachable w).
  { subst w. unfold run. cbv [fold_left]. repeat apply reachable_step.
    apply reachable_initial. }
  destruct (Hed w Hreach eq_refl 0%nat (inr "AAAAAAAA")) as (Hst & _).
  split; [exact Hst|]. split; reflexivity.
Defined.

(** X19.  What the application asks of the synthesis service.  In every
    reachable state, every call of [generateDemonstrationAudio] that has
    been made carried a text of at most 500 characters and the id of one
    of the five voice options, and the selected voice is one of the
    options. *)
Theorem requests_well_formed (w : World) :
  reachable w ->
  Forall request_ok (requested (app w))
  /\ is_voice_option (selectedVoice (the_studio w)) = true.
Proof.
  induction 1 as [e|w ev _ [IHr IHv]]; [split; [constructor | reflexivity]|].
  destruct (step_requests w ev IHv) as (Hv & extra & -> & Hextra).
  split; [|exact Hv]. apply Forall_app. now split.
Qed.

Lemma requests_well_formed_witness :
  let w := run (initial_world healthy_env)
               [ScriptChange "hello"; SetMode PRACTICE; ToggleVoiceDropdown;
                SelectVoice (mkVoice "Kore" "Kore" "Kore (Female, Calm)");
                GenerateAndPlayDemo] in
  requested (app w) = [("hello", "Kore")]
  /\ Forall request_ok (requested (app w)).
Proof.
  intros w. split; [reflexivity|].
  apply requests_well_formed.
  subst w. unfold run. cbv [fold_left]. repeat apply reachable_step.
  apply reachable_initial.
Defined.



(** X21.  Previewing a voice leaves the demo alone.  A click on a
    preview button and the settling of a preview request change nothing
    of the demo state (the cached audio, [isGeneratingDemo],
    [isPlayingDemo], the stored stop function and the selected voice),
    nor the script or the mode; the click starts no audio, and when the
    request settles every node that renders keeps rendering and no
    callback is invoked. *)
Theorem voice_preview_leaves_demo :
  (forall (w : World) voice,
      let w' := step w (PreviewVoice voice) in
      demo_fields (the_studio w') = demo_fields (the_studio w)
      /\ script (app w') = script (app w)
      /\ mode (app w') = mode (app w)
      /\ sources w' = sources w)
  /\ (forall (w : World) k inst text voiceName response,
         pending (app w) !! k = Some (PreviewRequest inst text voiceName) ->
         let w' := step w (Settle k response) in
         demo_fields (the_studio w') = demo_fields (the_studio w)
         /\ script (app w') = script (app w)
         /\ mode (app w') = mode (app w)
         /\ invoked w' = invoked w
         /\ forall i, source_rendering w i = true -> source_rendering w' i = true).
Proof.
  split.
  - intros w voice w'. subst w'. cbn [step].
    destruct (in_practice w && isVoiceDropdownOpen (the_studio w) && is_voice_option voice);
      [|repeat split].
    destruct (handlePreviewVoice_app voice w) as [->| ->]; repeat split.
  - intros w k inst text voiceName response Hk w'. subst w'.
    cbn [step]. unfold settle. rewrite Hk.
    set (w0 := drop_request k w).
    set (outcome := generation_result response).
    assert (Hinv : invoked (preview_settled inst outcome w0) = invoked w).
    { unfold preview_settled.
      assert (H1 : invoked (match outcome with
                            | inl _ => w0
                            | inr audioData =>
                                fst (playRawAudio run_callback audioData None w0)
                            end) = invoked w).
      { destruct outcome as [e|d]; [reflexivity|].
        now destruct (play_no_callback run_callback d w0) as [-> _]. }
      destruct (inst =? _)%nat; exact H1. }
    assert (Hrender : forall i, source_rendering w i = true ->
                                source_rendering (preview_settled inst outcome w0) i = true).
    { intros i Hi. now apply preview_keeps_rendering. }
    destruct (preview_settled_app inst outcome w0) as [Happ|Happ];
      unfold the_studio; rewrite Happ; repeat split; assumption.
Qed.

Lemma voice_preview_leaves_demo_witness :
  let w := run (initial_world healthy_env)
               [ScriptChange "hello"; SetMode PRACTICE; GenerateAndPlayDemo;
                Settle 0 (inr "AAAAAAAA"); ToggleVoiceDropdown;
                PreviewVoice default_voice] in
  let w' := step w (Settle 0 (inr "AAAAAAAA")) in
  demo_fields (the_studio w') = demo_fields (the_studio w)
  /\ source_rendering w' 0 = true.
Proof.
  intros w w'.
  destruct voice_preview_leaves_demo as (_ & Hsettle).
  destruct (Hsettle w 0%nat 0%nat previewText "Puck" (inr "AAAAAAAA") eq_refl)
    as (Hf & _ & _ & _ & Hr).
  split; [exact Hf | now apply Hr].
Defined.

End StudioRequests.

(** * Properties of the synthesis service *)

Section ServiceClaims.

Local Open Scope string_scope.

Lemma truthy_some (d : option string) (x : string) :
  truthy d = Some x <-> d = Some x /\ x <> "".
Proof.
  destruct d as [[|c r]|]; cbn; split.
  - discriminate.
  - intros [H Hx]. inversion H. congruence.
  - intros H. inversion H. split; [reflexivity | discriminate].
  - intros [H _]. exact H.
  - discriminate.
  - intros [H _]. discriminate H.
Qed.

(** X22.  [generateDemonstrationAudio].  Without an API key (none, or
    the empty string) it throws before anything else happens: no request
    is sent and nothing is logged; the application shows the editor and
    the studio only when a key is present.  With a key, exactly one
    request is sent, for the model, the text and the voice given (Puck
    when none is given).  The call returns a string exactly when the
    request is answered and the first part of the first candidate of the
    response carries non-empty inline data, and the string is this data:
    it is never empty, and the studio's check of the outcome accepts it.
    Every other outcome is an error that is logged once under "TTS
    error:" and thrown again unchanged; a rejection of the request is
    such an error. *)
Theorem generateDemonstrationAudio_outcome
    (text : string) (voiceName : option string)
    (reply : ServiceError + GenerateContentResponse) (s : Service) :
  let s' := fst (generateDemonstrationAudio text voiceName reply s) in
  let result := snd (generateDemonstrationAudio text voiceName reply s) in
  (hasApiKey s = false -> s' = s /\ result = inl ApiKeyMissing)
  /\ (hasApiKey s = true ->
      api_key s' = api_key s
      /\ sent s'
         = (sent s ++ [mkTtsRequest "gemini-2.5-flash-preview-tts" text
                         (match voiceName with Some v => v | None => "Puck" end)])%list)
  /\ (forall d,
         result = inr d
         <-> hasApiKey s = true
             /\ exists response,
                  reply = inr response
                  /\ first_inline_data response = Some d /\ d <> "")
  /\ (forall d, result = inr d ->
                service_console s' = service_console s
                /\ generation_result (inr d) = ok d)
  /\ (forall e, result = inl e -> hasApiKey s = true ->
                service_console s' = (service_console s ++ [("TTS error:", e)])%list
                /\ (e = NoAudioGenerated \/ reply = inl e)).
Proof.
  intros s' result. subst s' result.
  unfold generateDemonstrationAudio, getAiClient, hasApiKey.
  destruct (truthy (api_key s)) as [key|] eqn:Hkey.
  - destruct reply as [e|response].
    + cbn. split; [discriminate|]. split; [intros _; now split|]. split; [|split].
      * intros d. split; [discriminate|]. intros (_ & r & H & _). discriminate H.
      * discriminate.
      * intros e' H _. inversion H; subst e'. split; [reflexivity | now right].
    + destruct (truthy (first_inline_data response)) as [d|] eqn:Hd.
      * apply truthy_some in Hd as [Hd Hne].
        cbn. split; [discriminate|]. split; [intros _; now split|]. split; [|split].
        -- intros d'. split.
           ++ intros H. inversion H; subst d'. split; [reflexivity|].
              exists response. now repeat split.
           ++ intros (_ & r & Hr & Hf & _). inversion Hr; subst r. congruence.
        -- intros d' H. inversion H; subst d'. split; [reflexivity|].
           destruct d; [congruence | reflexivity].
        -- discriminate.
      * cbn. split; [discriminate|]. split; [intros _; now split|]. split; [|split].
        -- intros d. split; [discriminate|].
           intros (_ & r & Hr & Hf & Hne). inversion Hr; subst r.
           assert (truthy (first_inline_data response) = Some d)
             by (apply truthy_some; now split).
           congruence.
        -- discriminate.
        -- intros e H _. inversion H; subst e. split; [reflexivity | now left].
  - cbn. split; [intros _; now split|]. split; [discriminate|]. split; [|split].
    + intros d. split; [discriminate | intros [H _]; discriminate H].
    + discriminate.
    + intros e _ H. discriminate H.
Qed.

Lemma generateDemonstrationAudio_outcome_witness :
  let audio := mkPart None (Some (mkInlineData (Some "audio/L16") (Some "AAAA"))) in
  let silent := mkPart (Some "no audio") None in
  let s := mkService (Some "key") [] [] in
  snd (generateDemonstrationAudio "hello" (Some "Kore")
         (inr (mkResponse (Some [mkCandidate (Some (mkContent (Some [audio; silent])))]))) s)
  = inr "AAAA"
  /\ snd (generateDemonstrationAudio "hello" (Some "Kore")
            (inr (mkResponse (Some [mkCandidate (Some (mkContent (Some [silent; audio])))]))) s)
     = inl NoAudioGenerated.
Proof.
  intros audio silent s. split.
  - destruct (generateDemonstrationAudio_outcome "hello" (Some "Kore")
                (inr (mkResponse (Some [mkCandidate (Some (mkContent (Some [audio; silent])))])))
                s) as (_ & _ & Hiff & _).
    apply Hiff. split; [reflexivity|]. eexists. split; [reflexivity|].
    split; [reflexivity | discriminate].
  - reflexivity.
Defined.

End ServiceClaims.

(** * Properties of the editor *)

Section EditorProps.

Local Open Scope string_scope.

Lemma ends_with_snoc (c : ascii) (pre : string) :
  ends_with c (pre ++ String c "") = true.
Proof.
  induction pre as [|x pre IH]; cbn [append ends_with].
  - apply Ascii.eqb_refl.
  - destruct (pre ++ String c "") eqn:E; [|exact IH].
    destruct pre; discriminate E.
Qed.

Lemma drop_last_snoc (c : ascii) (pre : string) :
  drop_last (pre ++ String c "") = pre.
Proof.
  induction pre as [|x pre IH]; [reflexivity|].
  cbn [append drop_last].
  destruct (pre ++ String c "") eqn:E; [destruct pre; discriminate E|].
  now rewrite IH.
Qed.




Lemma editor_inv_set_prompt (p : PromptState) (e : Editor) :
  editor_inv e -> editor_inv (set_prompt p e).
Proof. intros H. exact H. Qed.



End EditorProps.

Section EditorClaims.

Local Open Scope string_scope.

(** X23.  The quick prompts of the instruction field.  After every
    change of the input the instruction is the value typed and the panel
    of quick prompts is shown exactly when this value ends with a slash.
    Choosing a quick prompt closes the panel; it replaces the trailing
    slash of the instruction by the prompt and keeps what precedes the
    slash, and when the instruction does not end with a slash it replaces
    the whole instruction.  So typing a text that ends with a slash and
    choosing a prompt yields the text before the slash followed by the
    prompt; and clearing empties the instruction and closes the panel. *)
Theorem quick_prompt_replaces_slash (p : PromptState) :
  (forall val,
      customInstruction (handlePromptChange val p) = val
      /\ showQuickPrompts (handlePromptChange val p) = ends_with "/" val)
  /\ (forall pre promptValue,
         customInstruction p = pre ++ "/" ->
         selectQuickPrompt promptValue p = mkPromptState (pre ++ promptValue) false)
  /\ (forall promptValue,
         ends_with "/" (customInstruction p) = false ->
         selectQuickPrompt promptValue p = mkPromptState promptValue false)
  /\ (forall pre promptValue,
         selectQuickPrompt promptValue (handlePromptChange (pre ++ "/") p)
         = mkPromptState (pre ++ promptValue) false)
  /\ clearInstruction p = mkPromptState "" false.
Proof.
  assert (Hselect : forall q pre promptValue,
             customInstruction q = pre ++ "/" ->
             selectQuickPrompt promptValue q = mkPromptState (pre ++ promptValue) false).
  { intros q pre promptValue Hq. unfold selectQuickPrompt.
    now rewrite Hq, ends_with_snoc, drop_last_snoc. }
  split; [|split; [|split; [|split]]].
  - intros val. unfold handlePromptChange.
    destruct (ends_with "/" val) eqn:E; [now split|].
    destruct (showQuickPrompts p) eqn:Es; cbn; now split.
  - intros pre promptValue. apply Hselect.
  - intros promptValue H. unfold selectQuickPrompt. now rewrite H.
  - intros pre promptValue. apply Hselect.
    unfold handlePromptChange. now rewrite ends_with_snoc.
  - reflexivity.
Qed.

Lemma quick_prompt_replaces_slash_witness :
  selectQuickPrompt "Output in English"
    (handlePromptChange "be brief, /" (mkPromptState "be brief, " false))
  = mkPromptState "be brief, Output in English" false.
Proof.
  destruct (quick_prompt_replaces_slash (mkPromptState "be brief, " false))
    as (_ & _ & _ & H & _).
  apply (H "be brief, " "Output in English").
Defined.



End EditorClaims.

(** * Properties of recording and analysis *)

Section RecordingProps.

Context {Analysis : Type}.

Local Abbreviation Recording := (@Recording Analysis) (only parsing).
Local Abbreviation RecordingEvent := (@RecordingEvent Analysis) (only parsing).

Lemma concat_kept (chunks : list Blob) :
  concat (map blob_bytes (kept_chunks chunks)) = concat (map blob_bytes chunks).
Proof.
  induction chunks as [|c l IH]; [reflexivity|].
  cbn [kept_chunks List.filter map concat]. fold (kept_chunks l).
  destruct (blob_bytes c) eqn:E; cbn [map concat]; rewrite IH, ?E; reflexivity.
Qed.

Lemma kept_chunks_app (a b : list Blob) :
  kept_chunks (a ++ b) = kept_chunks a ++ kept_chunks b.
Proof. apply List.filter_app. Qed.

(** A run of [dataavailable] events of an existing recorder. *)
Lemma run_data (w : World) (r : Recording) (i : nat) (chunks : list Blob) :
  (i < length (recorders r))%nat ->
  recording_run (w, r) (map (RecDataAvailable i) chunks)
  = (w, mkRecording (isRecording r) (audioBlob r) (audioUrl r) (isAnalyzing r) (analysis r)
          (mediaRecorderRef r) (chunksRef r ++ kept_chunks chunks) (startTimeRef r)
          (recorders r) (stop_calls r) (tracks_stopped r) (mic_awaiting r) (analysing r)
          (object_urls r) (recording_console r) (recording_alerts r)).
Proof.
  revert r. induction chunks as [|c l IH]; intros r Hi.
  - cbn. rewrite app_nil_r. now destruct r.
  - cbn [map recording_run fold_left recording_step].
    destruct (lookup_lt_is_Some_2 (recorders r) i Hi) as [captured Hc]. rewrite Hc.
    fold (recording_run (w, ondataavailable c r) (map (RecDataAvailable i) l)).
    rewrite IH.
    + unfold ondataavailable, kept_chunks. cbn [List.filter].
      destruct (blob_bytes c); cbn; [reflexivity|].
      now rewrite <- app_assoc.
    + unfold ondataavailable. now destruct (blob_bytes c).
Qed.

Lemma recording_run_app (s : World * Recording) (a b : list RecordingEvent) :
  recording_run s (a ++ b) = recording_run (recording_run s a) b.
Proof. apply fold_left_app. Qed.

Lemma recording_inv_step (w : World) (r : Recording) (ev : RecordingEvent) :
  recording_inv r -> recording_inv (snd (recording_step (w, r) ev)).
Proof.
  intros (Hrec & Han & Hchunks).
  assert (Hinv : recording_inv r) by (repeat split; assumption).
  destruct ev as [|k outcome now|stop_throws|i data|i|k outcome]; cbn [recording_step].
  - destruct (in_practice w && negb (isRecording r) && nonempty (script (app w)));
      exact Hinv.
  - cbn [snd]. unfold start_settled.
    destruct (mic_awaiting r !! k) as [captured|]; [|exact Hinv].
    destruct outcome; repeat split; cbn; try assumption; try constructor.
    + intros H. destruct (Hrec H) as (i & Hi & Hlt). eexists. split; [reflexivity|].
      rewrite length_app. cbn. lia.
    + intros _. eexists. split; [reflexivity|]. rewrite length_app. cbn. lia.
  - destruct (in_practice w && isRecording r); [|exact Hinv].
    cbn [snd]. unfold stopRecording.
    destruct (mediaRecorderRef r) as [i|] eqn:Hi; [|exact Hinv].
    destruct (isRecording r) eqn:Hr; [|exact Hinv].
    destruct stop_throws; repeat split; cbn; try assumption; discriminate.
  - destruct (recorders r !! i); [|exact Hinv].
    cbn [snd]. unfold ondataavailable.
    destruct (blob_bytes data) eqn:E; [exact Hinv|].
    repeat split; cbn; try assumption.
    apply Forall_app. split; [exact Hchunks|]. repeat constructor. now rewrite E.
  - destruct (recorders r !! i) as [captured|]; [|exact Hinv].
    cbn [snd]. unfold onstop. repeat split; cbn; try assumption.
    intros _ H. now apply app_eq_nil in H as [_ H].
  - cbn [snd]. unfold analysis_settled.
    destruct (analysing r !! k); [|exact Hinv].
    repeat split; cbn; try assumption. discriminate.
Qed.

End RecordingProps.

Section RecordingClaims.

Context {Analysis : Type}.

Local Abbreviation Recording := (@Recording Analysis) (only parsing).
Local Abbreviation RecordingEvent := (@RecordingEvent Analysis) (only parsing).

(** X25.  What is analysed is what was recorded.  From a studio that is
    not recording and waits for no microphone, with a script: the record
    button is clicked and the microphone is granted; the recorder
    delivers chunks of data, the stop button is clicked, the recorder
    delivers its remaining chunks and its [stop] event.  Then the
    recording is over, the blob stored and handed to [analyzeSpeech] is
    the [audio/webm] blob of the bytes of all chunks delivered, in their
    order (the empty chunks the handler drops carry no byte), together
    with the script; the spinner is on and the previous analysis is
    cleared; the recorder was stopped once and its tracks were stopped;
    and the demo was stopped before the microphone was asked for. *)
Theorem recording_is_analysed
    (w : World) (r : Recording) (now : Z) (before after : list Blob) :
  in_practice w = true ->
  nonempty (script (app w)) = true ->
  isRecording r = false ->
  mic_awaiting r = [] ->
  let i := length (recorders r) in
  let trace :=
    [RecStartClick; RecMicSettles 0 MicGranted now]
    ++ map (RecDataAvailable i) before
    ++ [RecStopClick false]
    ++ map (RecDataAvailable i) after
    ++ [RecStopped i] in
  let w' := fst (recording_run (w, r) trace) in
  let r' := snd (recording_run (w, r) trace) in
  let blob := mkBlob (concat (map blob_bytes (before ++ after))) "audio/webm" in
  w' = fst (stop_demo_if_playing w)
  /\ isRecording r' = false
  /\ audioBlob r' = Some blob
  /\ analysing r' = analysing r ++ [(blob, script (app w))]
  /\ isAnalyzing r' = true
  /\ analysis r' = None
  /\ audioUrl r' = Some (length (object_urls r))
  /\ stop_calls r' = stop_calls r ++ [i]
  /\ tracks_stopped r' = tracks_stopped r ++ [i].
Proof.
  intros Hp Hs Hr Hm i trace w' r' blob. subst w' r' trace.
  set (w1 := fst (stop_demo_if_playing w)).
  assert (Hpw : in_practice w1 = true).
  { destruct (playing_only_stop_demo w) as (Hmode & _).
    subst w1. unfold in_practice in *. now rewrite Hmode. }
  set (r1 := @mkRecording Analysis true (audioBlob r) (audioUrl r) (isAnalyzing r) None (Some i) []
               now (recorders r ++ [script (app w)]) (stop_calls r) (tracks_stopped r) []
               (analysing r) (object_urls r) (recording_console r) (recording_alerts r)).
  assert (Hstart : recording_run (w, r) [RecStartClick; RecMicSettles 0 MicGranted now]
                   = (w1, r1)).
  { unfold recording_run. cbn [fold_left recording_step].
    rewrite Hp, Hr, Hs. cbn [andb negb]. unfold startRecording.
    cbn [recording_step]. unfold start_settled. cbn [mic_awaiting]. rewrite Hm.
    reflexivity. }
  assert (Hi1 : (i < length (recorders r1))%nat)
    by (subst r1 i; cbn [recorders]; rewrite length_app; cbn; lia).
  rewrite recording_run_app, Hstart.
  rewrite recording_run_app, (run_data w1 r1 i before Hi1).
  set (r2 := mkRecording _ _ _ _ _ _ _ _ _ _ _ _ _ _ _ _).
  set (r3 := @mkRecording Analysis false (audioBlob r) (audioUrl r) (isAnalyzing r) None (Some i)
               (kept_chunks before) now (recorders r ++ [script (app w)])
               (stop_calls r ++ [i]) (tracks_stopped r ++ [i]) []
               (analysing r) (object_urls r) (recording_console r) (recording_alerts r)).
  assert (Hstop : recording_run (w1, r2) [RecStopClick false] = (w1, r3)).
  { unfold recording_run. cbn [fold_left recording_step]. rewrite Hpw. reflexivity. }
  assert (Hi3 : (i < length (recorders r3))%nat)
    by (subst r3 i; cbn [recorders]; rewrite length_app; cbn; lia).
  rewrite recording_run_app, Hstop.
  rewrite recording_run_app, (run_data w1 r3 i after Hi3).
  unfold recording_run. cbn [fold_left recording_step recorders r3].
  assert (Hlook : (recorders r ++ [script (app w)]) !! i = Some (script (app w)))
    by (apply list_lookup_middle; reflexivity).
  rewrite Hlook. unfold onstop, Blob_of. cbn.
  assert (Hbytes : concat (map blob_bytes (kept_chunks before ++ kept_chunks after))
                   = concat (map blob_bytes (before ++ after))).
  { now rewrite <- kept_chunks_app, concat_kept. }
  rewrite Hbytes. repeat split.
Qed.

End RecordingClaims.

Lemma recording_is_analysed_witness :
  let w := run (initial_world healthy_env) [ScriptChange "hello"; SetMode PRACTICE] in
  let voice := mkBlob ["001"; "002"]%byte "audio/webm" in
  let empty := mkBlob [] "audio/webm" in
  let r' := snd (recording_run (w, @initial_recording unit)
                   [RecStartClick; RecMicSettles 0 MicGranted 0;
                    RecDataAvailable 0 voice; RecStopClick false;
                    RecDataAvailable 0 empty; RecStopped 0]) in
  audioBlob r' = Some (mkBlob ["001"; "002"]%byte "audio/webm")
  /\ analysing r' = [(mkBlob ["001"; "002"]%byte "audio/webm", "hello"%string)].
Proof.
  intros w voice empty r'.
  destruct (@recording_is_analysed unit w initial_recording 0 [voice] [empty]
              eq_refl eq_refl eq_refl eq_refl) as (_ & _ & Hb & Ha & _).
  split; [exact Hb | exact Ha].
Defined.

Section RecordingInvariant.

Context {Analysis : Type}.

(** X26.  In every state a recording reaches from the initial state,
    whatever the microphone, the recorder and the analysis service do:
    while the stop button is shown there is a recorder for it to stop; the
    analysis spinner is shown only while a call of [analyzeSpeech] is
    outstanding; and no empty chunk is kept for the blob.  When a call of
    [analyzeSpeech] settles the spinner is cleared; a rejection is logged
    and leaves the analysis shown as it was. *)
Theorem recording_bookkeeping (w : World) (trace : list (@RecordingEvent Analysis)) :
  let r := snd (recording_run (w, initial_recording) trace) in
  recording_inv r
  /\ (forall k outcome request,
         analysing r !! k = Some request ->
         let r' := analysis_settled k outcome r in
         isAnalyzing r' = false
         /\ analysing r' = delete k (analysing r)
         /\ match outcome with
            | Some a => analysis r' = Some a /\ recording_console r' = recording_console r
            | None =>
                analysis r' = analysis r
                /\ recording_console r'
                   = recording_console r ++ ["Analysis failed"%string]
            end).
Proof.
  intros r. split.
  - subst r.
    assert (H : forall (s : World * Recording), recording_inv (snd s) ->
                recording_inv (snd (recording_run s trace))).
    { induction trace as [|ev l IH]; intros s Hs; [exact Hs|].
      cbn [recording_run fold_left]. apply IH.
      destruct s as [w0 r0]. now apply recording_inv_step. }
    apply H. repeat split; try constructor; cbn; discriminate.
  - intros k outcome request Hk r'. subst r'. unfold analysis_settled. rewrite Hk.
    destruct outcome; repeat split.
Qed.

End RecordingInvariant.
